(** * twodspec: wavelength calibration on extracted ThAr spectra, and CCD frames

    A shallow embedding of [twodspec/calibration.py] and of the methods of
    the [CCD] class of [twodspec/ccd.py].

    - numpy [float64] values are IEEE-754 binary64 numbers, taken from the
      Standard Library's [SpecFloat] (no NaN payload); [+ - * /], [sqrt]
      and the comparisons are the IEEE operations, so [nan] compares false
      with everything and [-0.0 == 0.0];
    - 1-D arrays are lists, 2-D arrays are lists of rows with their second
      extent; where a function writes into arrays that others can see,
      arrays are objects in a store;
    - Python integers are [Z], slices follow [slice.indices];
    - a Python exception is a [Raise] outcome; arguments have the array
      types the functions expect; [print] statements are left out;
    - numpy reductions with an implementation-defined summation order
      ([mean], [nanmean], [nanstd], [nanmedian]), [**], [exp], [np.unique]
      and the solvers ([leastsq], [curve_fit], [splrep], [splev],
      [np.polyfit]) are parameters of the sections that use them, and so
      are the FITS files [fits.open] finds; reference
      implementations at the end of the definitions allow the model to
      run. *)

From Stdlib Require Import ZArith Bool List Lia.
From Stdlib Require Import Floats.SpecFloat.
From stdpp Require Import base option list strings gmap.

Local Open Scope Z_scope.

(** ** float64 *)

Abbreviation float := spec_float.

Definition prec : Z := 53.
Definition emax : Z := 1024.

Definition fadd : float -> float -> float := SFadd prec emax.
Definition fsub : float -> float -> float := SFsub prec emax.
Definition fmul : float -> float -> float := SFmul prec emax.
Definition fdiv : float -> float -> float := SFdiv prec emax.
Definition fabs : float -> float := SFabs.
Definition fsqrt : float -> float := SFsqrt prec emax.

(** [a < b], [a <= b], [a == b], [a > b], [a >= b] of numpy. *)
Definition flt (a b : float) : bool := SFltb a b.
Definition fle (a b : float) : bool := SFleb a b.
Definition feq (a b : float) : bool := SFeqb a b.
Definition fgt (a b : float) : bool := SFltb b a.
Definition fge (a b : float) : bool := SFleb b a.

Definition nan : float := S754_nan.
Definition fzero : float := S754_zero false.

(** Conversion of a Python [int] to [float64]. *)
Definition of_Z (z : Z) : float := binary_normalize prec emax z 0 false.

Definition fone : float := of_Z 1.

(** A boolean array entry used in arithmetic: [True] is [1.0], [False] is [0.0]. *)
Definition of_bool (b : bool) : float := if b then fone else fzero.

Definition isnan (x : float) : bool :=
  match x with S754_nan => true | _ => false end.

Definition isfinite (x : float) : bool :=
  match x with S754_zero _ | S754_finite _ _ _ => true | _ => false end.

(** ** Python exceptions *)

Inductive exn : Type :=
| TypeError
| ValueError
| IndexError
| RuntimeError.

Inductive outcome (A : Type) : Type :=
| Ret (a : A)
| Raise (e : exn).
Arguments Ret {A} a.
Arguments Raise {A} e.

(** ** Python slices with step 1 *)

(** [slice(start, stop).indices(n)]: a negative bound counts from the end,
    and both bounds are clipped to [0, n]. *)
Definition clip_index (i n : Z) : Z :=
  if i <? 0 then Z.max (i + n) 0 else Z.min i n.

Definition in_pyslice (start stop : Z) (n : nat) (i : nat) : bool :=
  (clip_index start (Z.of_nat n) <=? Z.of_nat i) &&
  (Z.of_nat i <? clip_index stop (Z.of_nat n)).

(** [row[start:stop] = v] *)
Definition set_slice {A} (row : list A) (start stop : Z) (v : A) : list A :=
  imap (fun i a => if in_pyslice start stop (length row) i then v else a) row.

(** [row[start:stop]] *)
Definition get_slice {A} (row : list A) (start stop : Z) : list A :=
  let n := Z.of_nat (length row) in
  let lo := Z.to_nat (clip_index start n) in
  let hi := Z.to_nat (clip_index stop n) in
  take (hi - lo) (drop lo row).

(** ** Arrays *)

(** A 2-D [float64] array: its second dimension and its rows. *)
Record array2 : Type := Array2 { ncols : nat; rows : list (list float) }.

Definition nrows (a : array2) : nat := length (rows a).

(** Every row has [ncols] entries: what numpy guarantees of a 2-D array. *)
Definition rectangular (a : array2) : Prop :=
  Forall (fun r => length r = ncols a) (rows a).

(** [np.zeros((n, m))] *)
Definition np_zeros2 (n m : nat) : array2 :=
  Array2 m (replicate n (replicate m fzero)).

(** [a.flatten()] in C order. *)
Definition flatten (a : array2) : list float := mjoin (rows a).

(** [a[:, j]] *)
Definition column (a : array2) (j : nat) : outcome (list float) :=
  if (j <? ncols a)%nat
  then Ret (map (fun r => default nan (r !! j)) (rows a))
  else Raise IndexError.

(** numpy broadcasting of one axis: equal extents, or one of them is 1. *)
Definition bdim (n m : nat) : option nat :=
  if (n =? m)%nat then Some n
  else if (n =? 1)%nat then Some m
  else if (m =? 1)%nat then Some n
  else None.

Definition stretch {A} (n : nat) (l : list A) : list A :=
  match l with
  | [a] => replicate n a
  | _ => l
  end.

(** An elementwise binary operation on 1-D arrays. *)
Definition broadcast1 {A B C} (f : A -> B -> C) (a : list A) (b : list B)
    : outcome (list C) :=
  match bdim (length a) (length b) with
  | Some n => Ret (zip_with f (stretch n a) (stretch n b))
  | None => Raise ValueError
  end.

(** An elementwise binary operation on 2-D arrays. *)
Definition broadcast2 (f : float -> float -> float) (a b : array2)
    : outcome array2 :=
  match bdim (nrows a) (nrows b), bdim (ncols a) (ncols b) with
  | Some r, Some c =>
      Ret (Array2 c (zip_with (zip_with f)
                       (stretch r (map (stretch c) (rows a)))
                       (stretch r (map (stretch c) (rows b)))))
  | _, _ => Raise ValueError
  end.

(** [a[mask]] for a boolean [mask]: a fresh array of the selected entries;
    numpy raises IndexError when the extents differ. *)
Definition mask_index {A} (a : list A) (mask : list bool) : outcome (list A) :=
  if (length a =? length mask)%nat
  then Ret (fst <$> filter (fun p => snd p = true) (zip a mask))
  else Raise IndexError.

(** [a[mask] = v] *)
Definition mask_assign {A} (a : list A) (mask : list bool) (v : A)
    : outcome (list A) :=
  if (length a =? length mask)%nat
  then Ret (zip_with (fun x (b : bool) => if b then v else x) a mask)
  else Raise IndexError.

(** [a[idx]] for an integer index array. *)
Fixpoint fancy_index {A} (a : list A) (idx : list nat) : outcome (list A) :=
  match idx with
  | [] => Ret []
  | i :: rest =>
      match a !! i, fancy_index a rest with
      | Some v, Ret vs => Ret (v :: vs)
      | None, _ => Raise IndexError
      | _, Raise e => Raise e
      end
  end.

(** [np.where(m)[0]] for a 1-D boolean array. *)
Definition where1 (m : list bool) : list nat :=
  filter (fun i => m !! i = Some true) (seq 0 (length m)).

(** [np.where(m)] for a 2-D boolean array: the coordinates of the true
    cells in row-major order. *)
Definition where2 (m : list (list bool)) : list (nat * nat) :=
  mjoin (imap (fun x row => (fun y => (x, y)) <$> where1 row) m).

(** [np.sum(m)] of a boolean array. *)
Definition count_true (m : list bool) : Z :=
  Z.of_nat (length (filter (fun b => b = true) m)).

(** [np.max]: a NaN operand propagates. *)
Definition fmax (a b : float) : float :=
  if isnan a then a else if isnan b then b else if flt a b then b else a.

Definition np_max (a : list float) : outcome float :=
  match a with
  | [] => Raise ValueError
  | v :: rest => Ret (fold_left fmax rest v)
  end.

(** [np.argmax]: the first index holding the maximum. *)
Fixpoint argmax_from (best : nat) (bv : float) (k : nat) (l : list float) : nat :=
  match l with
  | [] => best
  | v :: t =>
      if flt bv v then argmax_from k v (S k) t
      else argmax_from best bv (S k) t
  end.

(** [np.nanargmax]: NaN entries are replaced by [-inf] before [argmax];
    an all-NaN (or empty) array raises ValueError. *)
Definition nanargmax (a : list float) : outcome nat :=
  if forallb isnan a then Raise ValueError
  else
    match map (fun v => if isnan v then S754_infinity true else v) a with
    | [] => Raise ValueError
    | v :: t => Ret (argmax_from 0 v 1 t)
    end.

(** ** Fixing ThAr spectra *)

(** [ind_sat_conv[x, y - conv_len:y + conv_len] = 1] *)
Definition paint_window (conv_len : Z) (m : list (list bool)) (p : nat * nat)
    : list (list bool) :=
  let '(x, y) := p in
  alter (fun row =>
           set_slice row (Z.of_nat y - conv_len) (Z.of_nat y + conv_len) true)
        x m.

(** What [paint_window] does to row [r]. *)
Definition paint_row (conv_len : Z) (r : nat) (row : list bool) (p : nat * nat)
    : list bool :=
  let '(x, y) := p in
  if (x =? r)%nat
  then set_slice row (Z.of_nat y - conv_len) (Z.of_nat y + conv_len) true
  else row.

(** [thar1d_fix(thar1d, conv_len, sat_count)] *)
Definition thar1d_fix (thar1d : array2) (conv_len : Z) (sat_count : float)
    : array2 :=
  let ind_sat := map (map (fun v => fge v sat_count)) (rows thar1d) in
  let zeros := map (map (fun _ => false)) ind_sat in
  let ind_sat_conv := fold_left (paint_window conv_len) (where2 ind_sat) zeros in
  let ind_neg := map (map (fun v => flt v fzero)) (rows thar1d) in
  let ind_bad := zip_with (zip_with orb) ind_neg ind_sat_conv in
  Array2 (ncols thar1d)
    (zip_with (zip_with (fun (b : bool) v => if b then fzero else v))
       ind_bad (rows thar1d)).

(** The mask the specification describes for a row: pixel [c] is covered
    when some saturated pixel [y] of the same row has
    [y - conv_len <= c < y + conv_len]. *)
Definition window_covered (row : list float) (conv_len : Z) (sat_count : float)
    (c : nat) : Prop :=
  exists y v, row !! y = Some v /\ fge v sat_count = true /\
    Z.of_nat y - conv_len <= Z.of_nat c < Z.of_nat y + conv_len.

(** What the slice assignment of the code covers: the same window after
    Python has normalised its bounds. *)
Definition slice_covered (row : list float) (conv_len : Z) (sat_count : float)
    (c : nat) : Prop :=
  exists y v, row !! y = Some v /\ fge v sat_count = true /\
    in_pyslice (Z.of_nat y - conv_len) (Z.of_nat y + conv_len) (length row) c = true.

(** ** 2-D cross-correlation of ThAr spectra *)

(** The literals [.2] and [.8]: the doubles nearest to 1/5 and 4/5. *)
Definition f0_2 : float := Eval vm_compute in fdiv (of_Z 1) (of_Z 5).
Definition f0_8 : float := Eval vm_compute in fdiv (of_Z 4) (of_Z 5).

(** [astype(int)]: truncation toward zero. *)
Definition astype_int (x : float) : Z :=
  match x with
  | S754_finite s m e =>
      cond_Zopp s (if e <? 0 then Z.shiftr (Zpos m) (- e) else Z.shiftl (Zpos m) e)
  | _ => 0
  end.

(** [(n * np.array([.2, .8])).astype(int)] *)
Definition trim_region (n : nat) : Z * Z :=
  (astype_int (fmul (of_Z (Z.of_nat n)) f0_2),
   astype_int (fmul (of_Z (Z.of_nat n)) f0_8)).

(** [range(lo, hi)] *)
Definition zrange (lo hi : Z) : list Z :=
  map (fun i => lo + Z.of_nat i) (seq 0 (Z.to_nat (hi - lo))).

(** [a[yslice, xslice]]: the window and its shape. *)
Definition window (a : array2) (ys ye xs xe : Z) : array2 :=
  Array2 (length (get_slice (replicate (ncols a) tt) xs xe))
         (map (fun r => get_slice r xs xe) (get_slice (rows a) ys ye)).

(** [np.int(a)], the builtin [int], for an integer array: only a
    one-element array converts. *)
Definition np_int (a : list Z) : outcome Z :=
  match a with
  | [v] => Ret v
  | _ => Raise TypeError
  end.

Section Correlation.
(** [np.mean] of the flattened array. *)
Variable np_mean : list float -> float.

(** The body of the double loop: the surface cell of one trial offset. *)
Definition corr_cell (thar1d_fixed thar_temp : array2)
    (xtrim ytrim : Z * Z) (xofst yofst : Z) : outcome float :=
  match broadcast2 fmul
          (window thar1d_fixed (fst ytrim + yofst) (snd ytrim + yofst)
                               (fst xtrim + xofst) (snd xtrim + xofst))
          (window thar_temp (fst ytrim) (snd ytrim) (fst xtrim) (snd xtrim))
  with
  | Ret p => Ret (np_mean (flatten p))
  | Raise e => Raise e
  end.

(** [corr2d[r, c] = v] inside the loop. *)
Definition set_cell (m : list (list float)) (r c : nat) (v : float)
    : list (list float) :=
  alter (fun row => <[c := v]> row) r m.

(** The double loop, [xofst] outermost, filling [corr2d]. *)
Definition fill_corr2d (thar1d_fixed thar_temp : array2)
    (xtrim ytrim : Z * Z) (x_shiftmax y_shiftmax : Z)
    (corr2d : list (list float)) : outcome (list (list float)) :=
  fold_left
    (fun acc xofst =>
       fold_left
         (fun acc' yofst =>
            match acc' with
            | Raise e => Raise e
            | Ret m =>
                match corr_cell thar1d_fixed thar_temp xtrim ytrim xofst yofst with
                | Ret v => Ret (set_cell m (Z.to_nat (yofst + y_shiftmax))
                                           (Z.to_nat (xofst + x_shiftmax)) v)
                | Raise e => Raise e
                end
            end)
         (zrange (- y_shiftmax) (y_shiftmax + 1)) acc)
    (zrange (- x_shiftmax) (x_shiftmax + 1)) (Ret corr2d).

(** [np.where(corr2d == np.max(corr2d))] *)
Definition where_max (corr2d : list (list float)) : outcome (list (nat * nat)) :=
  match np_max (mjoin corr2d) with
  | Ret mx => Ret (where2 (map (map (fun v => feq v mx)) corr2d))
  | Raise e => Raise e
  end.

(** [thar1d_corr2d(thar1d_fixed, thar_temp, x_shiftmax, y_shiftmax)] *)
Definition thar1d_corr2d (thar1d_fixed thar_temp : array2)
    (x_shiftmax y_shiftmax : Z) : outcome ((Z * Z) * list (list float)) :=
  let xtrim := trim_region (ncols thar1d_fixed) in
  let ytrim := trim_region (nrows thar1d_fixed) in
  if (1 + 2 * y_shiftmax <? 0) || (1 + 2 * x_shiftmax <? 0)
  then Raise ValueError
  else
    let zeros := replicate (Z.to_nat (1 + 2 * y_shiftmax))
                   (replicate (Z.to_nat (1 + 2 * x_shiftmax)) fzero) in
    match fill_corr2d thar1d_fixed thar_temp xtrim ytrim
            x_shiftmax y_shiftmax zeros with
    | Raise e => Raise e
    | Ret corr2d =>
        match where_max corr2d with
        | Raise e => Raise e
        | Ret cells =>
            let y_ := map (fun p => Z.of_nat (fst p)) cells in
            let x_ := map (fun p => Z.of_nat (snd p)) cells in
            match np_int (map (fun v => x_shiftmax - v) x_) with
            | Raise e => Raise e
            | Ret x_shift =>
                match np_int (map (fun v => y_shiftmax - v) y_) with
                | Raise e => Raise e
                | Ret y_shift => Ret ((x_shift, y_shift), corr2d)
                end
            end
        end
    end.
End Correlation.

(** A left-to-right mean, to run the model on concrete spectra. *)
Definition mean_naive (a : list float) : float :=
  fdiv (fold_left fadd a fzero) (of_Z (Z.of_nat (length a))).

(** ** 2-D surface *)

(** The arrays the calibration passes around. *)
Inductive array : Type :=
| AFloat (d : list float)
| ABool (d : list bool)
| AFloat2 (a : array2).

(** [coefs.flatten()] *)
Definition array_flatten (c : array) : list float :=
  match c with
  | AFloat d => d
  | ABool d => map of_bool d
  | AFloat2 a => flatten a
  end.

(** [coefs.shape] *)
Definition array_shape (c : array) : list nat :=
  match c with
  | AFloat d => [length d]
  | ABool d => [length d]
  | AFloat2 a => [nrows a; ncols a]
  end.

(** [itertools.product(range(orderx + 1), range(ordery + 1))] *)
Definition ij_product (orderx ordery : nat) : list (nat * nat) :=
  i ← seq 0 (orderx + 1); (fun j => (i, j)) <$> seq 0 (ordery + 1).

Section Surface.
(** [x ** p] of numpy for a float base. *)
Variable np_power : float -> float -> float.

(** The loop of [polyval2d] once [orderx, ordery] are bound: the flattened
    coefficients are zipped with the index pairs, and a pair contributes
    when [i + j < max(orderx, ordery)].  [x] and [y] have one extent. *)
Definition polyval2d_terms (x y : list float) (coefs : list float)
    (orders : nat * nat) : list float :=
  let '(orderx, ordery) := orders in
  fold_left
    (fun z '(a, (i, j)) =>
       if (i + j <? Nat.max orderx ordery)%nat
       then zip_with fadd z
              (zip_with fmul
                 (map (fun xv => fmul a (np_power xv (of_Z (Z.of_nat i)))) x)
                 (map (fun yv => np_power yv (of_Z (Z.of_nat j))) y))
       else z)
    (zip coefs (ij_product orderx ordery))
    (map (fun _ => fzero) x).

(** [polyval2d(x, y, coefs, orders=None)] *)
Definition polyval2d (x y : list float) (coefs : array)
    (orders : option (nat * nat)) : outcome (list float) :=
  match orders with
  | Some o => Ret (polyval2d_terms x y (array_flatten coefs) o)
  | None =>
      match array_shape coefs with
      | [orderx; ordery] =>
          Ret (polyval2d_terms x y (array_flatten coefs) (orderx, ordery))
      | _ => Raise ValueError
      end
  end.

(** [residual(coefs, x, y, z, w, poly_order)]; the weights are a boolean
    array. *)
Definition residual (coefs x y z : list float) (w : list bool)
    (poly_order : nat * nat) : list float :=
  let fitted := polyval2d_terms x y coefs poly_order in
  zip_with fmul (zip_with fsub fitted z) (map of_bool w).

(** [residual_lar(coefs, x, y, z, w, poly_order)] *)
Definition residual_lar (coefs x y z : list float) (w : list bool)
    (poly_order : nat * nat) : list float :=
  let fitted := polyval2d_terms x y coefs poly_order in
  map (fun v => fsqrt (fabs v))
      (zip_with fmul (zip_with fsub fitted z) (map of_bool w)).

(** [standardize_inverse(x, xmean, xstd)] *)
Definition standardize_inverse (x : list float) (xmean xstd : float)
    : list float :=
  map (fun v => fadd (fmul v xstd) xmean) x.

End Surface.

(** ** The store *)

(** Arrays are objects: a Python variable holds a reference, an in-place
    write is seen through every reference to the same object.  The trace
    records the calls of the least-squares solver and the rejections. *)
Inductive loss : Type := Residual | ResidualLar.

Inductive event : Type :=
| EvFit (l : loss)
| EvReject (idx : list nat).

Record state : Type := State { heap : gmap positive array; trace : list event }.

Definition M (A : Type) : Type := state -> outcome A * state.

Definition ret {A} (a : A) : M A := fun st => (Ret a, st).

Definition raise {A} (e : exn) : M A := fun st => (Raise e, st).

Definition bind {A B} (m : M A) (k : A -> M B) : M B :=
  fun st =>
    match m st with
    | (Ret a, st') => k a st'
    | (Raise e, st') => (Raise e, st')
    end.

Definition lift {A} (o : outcome A) : M A := fun st => (o, st).

(** A new array object. *)
Definition alloc (a : array) : M positive :=
  fun st =>
    let l := fresh (dom (heap st)) in
    (Ret l, State (<[l := a]> (heap st)) (trace st)).

Definition load (l : positive) : M array :=
  fun st =>
    match heap st !! l with
    | Some a => (Ret a, st)
    | None => (Raise TypeError, st)
    end.

Definition store (l : positive) (a : array) : M unit :=
  fun st => (Ret tt, State (<[l := a]> (heap st)) (trace st)).

Definition emit (e : event) : M unit :=
  fun st => (Ret tt, State (heap st) (trace st ++ [e])).

Definition load_float (l : positive) : M (list float) :=
  bind (load l) (fun a =>
    match a with AFloat d => ret d | _ => raise TypeError end).

Definition load_bool (l : positive) : M (list bool) :=
  bind (load l) (fun a =>
    match a with ABool d => ret d | _ => raise TypeError end).

Definition load_float2 (l : positive) : M array2 :=
  bind (load l) (fun a =>
    match a with AFloat2 d => ret d | _ => raise TypeError end).

Notation "x <- m ;; k" := (bind m (fun x => k))
  (at level 100, m at next level, right associativity).
Notation "m ;;; k" := (bind m (fun _ => k))
  (at level 100, right associativity).

(** A computation leaves the array objects of [P] as they are. *)
Definition preserves {A} (P : gset positive) (m : M A) : Prop :=
  forall st r st',
    P ⊆ dom (heap st) -> m st = (r, st') ->
    P ⊆ dom (heap st') /\ forall l, l ∈ P -> heap st' !! l = heap st !! l.

(** A computation adds nothing to the trace. *)
Definition silent {A} (m : M A) : Prop :=
  forall st r st', m st = (r, st') -> trace st' = trace st.

(** A computation that returns has added one of the event sequences of
    [S] to the trace; one that raises has added the beginning of one. *)
Definition traces {A} (S : list event -> Prop) (m : M A) : Prop :=
  forall st r st', m st = (r, st') ->
    exists done, trace st' = trace st ++ done /\
      match r with
      | Ret _ => S done
      | Raise _ => exists rest, S (done ++ rest)
      end.

(** The sequences of [S1] followed by those of [S2]. *)
Definition then_ (S1 S2 : list event -> Prop) : list event -> Prop :=
  fun t => exists t1 t2, t = t1 ++ t2 /\ S1 t1 /\ S2 t2.



(** [weight[i] = v] on the array object at [l]. *)
Definition store_at_bool (l : positive) (i : nat) (v : bool) : M unit :=
  a <- load_bool l ;;
  if (i <? length a)%nat then store l (ABool (<[i := v]> a)) else raise IndexError.

Definition store_at_float (l : positive) (i : nat) (v : float) : M unit :=
  a <- load_float l ;;
  if (i <? length a)%nat then store l (AFloat (<[i := v]> a)) else raise IndexError.

Fixpoint mapM {A B} (f : A -> outcome B) (l : list A) : outcome (list B) :=
  match l with
  | [] => Ret []
  | a :: t =>
      match f a, mapM f t with
      | Ret b, Ret bs => Ret (b :: bs)
      | Raise e, _ => Raise e
      | _, Raise e => Raise e
      end
  end.

(** ** Fitting the grating equation *)

(** The lines of one order that still carry weight:
    [np.sum(weight[lc_order_s == o] > 0)]. *)
Definition order_left (weight : list bool) (lc_order_s : list float) (o : float)
    : outcome Z :=
  match mask_index weight (map (fun v => feq v o) lc_order_s) with
  | Ret w => Ret (count_true w)
  | Raise e => Raise e
  end.

(** The same count as a total function, for statements. *)
Definition retained_in_order (lc_order_s : list float) (weight : list bool)
    (o : float) : Z :=
  count_true (zip_with (fun v (b : bool) => feq v o && b) lc_order_s weight).

(** [wave_dev * (wave_dev > max_dev_threshold) * (lc_order_s_left > nl_eachorder)] *)
Definition possible_outlier (wave_dev : list float) (max_dev_threshold : float)
    (lc_order_s_left : list Z) (nl_eachorder : Z) : list float :=
  zip_with fmul
    (zip_with fmul wave_dev
       (map (fun d => of_bool (fgt d max_dev_threshold)) wave_dev))
    (map (fun k => of_bool (nl_eachorder <? k)) lc_order_s_left).

(** The values the function keeps between its statements. *)
Record locals : Type := Locals {
  lc_coord_s : list float;
  lc_order_s : list float;
  ml_mean : float;
  ml_std : float;
  l_lc_order : positive;
  l_lc_thar : positive;
  l_ml_s : positive;
  l_weight : positive }.

(** What one pass of the loop body leaves in its variables. *)
Record iter_result : Type := IterResult {
  x_mini_lsq : list float;
  fitted_wave : list float;
  wave_dev : list float;
  lc_order_s_left : list Z;
  ind_max_dev : option nat }.

Section FitGratingEquation.
Variable np_power : float -> float -> float.
Variable np_nanmean np_nanstd np_nanmedian : list float -> float.
(** [np.unique(a, return_inverse=True)] *)
Variable np_unique : list float -> list float * list nat.
(** [leastsq(func, x0)]: the minimiser, or the error scipy raises. *)
Variable leastsq :
  (list float -> list float) -> list float -> outcome (list float).

(** [standardize(x)] *)
Definition standardize (x : list float) : list float * float * float :=
  (map (fun v => fdiv (fsub v (np_nanmean x)) (np_nanstd x)) x,
   np_nanmean x, np_nanstd x).

(** The expression of the [try] block. *)
Definition good_thar_mask (ind_good_thar0 : list bool) (lc_coord : list float)
    (popt pcov : array2) : outcome (list bool) :=
  match column popt 3, column pcov 2 with
  | Ret width, Ret cvar =>
      match broadcast1 andb ind_good_thar0 (map isfinite lc_coord) with
      | Ret m1 =>
          match broadcast1 andb m1 (map (fun v => flt v fone) width) with
          | Ret m2 => broadcast1 andb m2 (map (fun v => flt v fone) cvar)
          | Raise e => Raise e
          end
      | Raise e => Raise e
      end
  | Raise e, _ => Raise e
  | _, Raise e => Raise e
  end.

(** [popt[ind_good_thar, j]] *)
Definition masked_column (a : array2) (mask : list bool) (j : nat)
    : outcome (list float) :=
  match mask_index (rows a) mask with
  | Ret sel => column (Array2 (ncols a) sel) j
  | Raise e => Raise e
  end.

Definition loss_fun (l : loss) :
    list float -> list float -> list float -> list float -> list bool ->
    nat * nat -> list float :=
  match l with
  | Residual => residual np_power
  | ResidualLar => residual_lar np_power
  end.

(** [leastsq(func, x0, args=(lc_coord_s, lc_order_s, ml_s, weight, poly_order))] *)
Definition call_leastsq (l : loss) (poly_order : nat * nat) (lv : locals)
    (x0 : list float) : M (list float) :=
  ml_s <- load_float (l_ml_s lv) ;;
  weight <- load_bool (l_weight lv) ;;
  emit (EvFit l) ;;;
  lift (leastsq (fun c => loss_fun l c (lc_coord_s lv) (lc_order_s lv)
                            ml_s weight poly_order) x0).

(** [fitted_wave] and [fitted_wave_diff] of a fit. *)
Definition wave_diff (poly_order : nat * nat) (lv : locals)
    (x : list float) (lc_order lc_thar : list float) : list float * list float :=
  let fitted := polyval2d_terms np_power (lc_coord_s lv) (lc_order_s lv)
                  x poly_order in
  let fitted_wave :=
    zip_with fdiv (standardize_inverse fitted (ml_mean lv) (ml_std lv))
             lc_order in
  (fitted_wave, zip_with fsub fitted_wave lc_thar).

(** [np.abs(fitted_wave_diff - np.nanmedian(fitted_wave_diff))] *)
Definition deviation (diff : list float) : list float :=
  map (fun d => fabs (fsub d (np_nanmedian diff))) diff.

(** One pass of the body of [while n_loop < n_iter]. *)
Definition iteration (poly_order : nat * nat) (max_dev_threshold : float)
    (lar : bool) (nl_eachorder : Z) (lv : locals) (x0 : list float)
    : M iter_result :=
  x <- call_leastsq (if lar then ResidualLar else Residual) poly_order lv x0 ;;
  lc_order <- load_float (l_lc_order lv) ;;
  lc_thar <- load_float (l_lc_thar lv) ;;
  let '(fw, diff) := wave_diff poly_order lv x lc_order lc_thar in
  let dev := deviation diff in
  let '(lc_order_s_unique, ind_inverse) := np_unique (lc_order_s lv) in
  weight <- load_bool (l_weight lv) ;;
  unique_left <- lift (mapM (order_left weight (lc_order_s lv)) lc_order_s_unique) ;;
  left <- lift (fancy_index unique_left ind_inverse) ;;
  let outl := possible_outlier dev max_dev_threshold left nl_eachorder in
  if existsb (fun p => fgt p fzero) outl
  then
    i <- lift (nanargmax outl) ;;
    store_at_bool (l_weight lv) i false ;;;
    store_at_float (l_ml_s lv) i nan ;;;
    store_at_float (l_lc_thar lv) i nan ;;;
    emit (EvReject [i]) ;;;
    ret (IterResult x fw dev left (Some i))
  else ret (IterResult x fw dev left None).

(** The [while] loop entered with [n_iter > 0]: at most [S more] passes,
    left at the first pass that rejects nothing. *)
Fixpoint rejection_loop (more : nat) (poly_order : nat * nat)
    (max_dev_threshold : float) (lar : bool) (nl_eachorder : Z)
    (lv : locals) (x0 : list float) : M iter_result :=
  r <- iteration poly_order max_dev_threshold lar nl_eachorder lv x0 ;;
  match ind_max_dev r, more with
  | Some _, S more' =>
      rejection_loop more' poly_order max_dev_threshold lar nl_eachorder lv x0
  | _, _ => ret r
  end.

(** The [else] branch: one fit, one bulk rejection, one refit. *)
Definition bulk_rejection (poly_order : nat * nat) (max_dev_threshold : float)
    (lar : bool) (lv : locals) (x0 : list float) : M (list float) :=
  x <- call_leastsq (if lar then ResidualLar else Residual) poly_order lv x0 ;;
  lc_order <- load_float (l_lc_order lv) ;;
  lc_thar <- load_float (l_lc_thar lv) ;;
  let '(fw, diff) := wave_diff poly_order lv x lc_order lc_thar in
  let ind_kick := map (fun d => fgt d max_dev_threshold) (deviation diff) in
  weight <- load_bool (l_weight lv) ;;
  weight' <- lift (mask_assign weight ind_kick false) ;;
  store (l_weight lv) (ABool weight') ;;;
  ml_s <- load_float (l_ml_s lv) ;;
  ml_s' <- lift (mask_assign ml_s ind_kick nan) ;;
  store (l_ml_s lv) (AFloat ml_s') ;;;
  lc_thar0 <- load_float (l_lc_thar lv) ;;
  lc_thar' <- lift (mask_assign lc_thar0 ind_kick nan) ;;
  store (l_lc_thar lv) (AFloat lc_thar') ;;;
  emit (EvReject (where1 ind_kick)) ;;;
  call_leastsq ResidualLar poly_order lv x0.

(** [fit_grating_equation(lc_coord, lc_order, lc_thar, popt, pcov,
    ind_good_thar0, poly_order, max_dev_threshold, n_iter, lar,
    nl_eachorder)]; the array arguments are references.  The result is
    [(x_mini_lsq, ind_good_thar, scaler_coord, scaler_order, scaler_ml)]. *)
Definition fit_grating_equation
    (lc_coord lc_order lc_thar popt pcov : positive)
    (ind_good_thar0 : option positive) (poly_order : nat * nat)
    (max_dev_threshold : float) (n_iter : Z) (lar : bool) (nl_eachorder : Z)
    : M (list float * list nat * (float * float) * (float * float)
         * (float * float)) :=
  coord <- load_float lc_coord ;;
  ind0 <- match ind_good_thar0 with
          | None => ret (map (fun _ => true) coord)
          | Some l => load_bool l
          end ;;
  popt_a <- load_float2 popt ;;
  pcov_a <- load_float2 pcov ;;
  let ind_good_thar :=
    match good_thar_mask ind0 coord popt_a pcov_a with
    | Ret m => m
    | Raise _ => map (fun _ => true) coord
    end in
  (* pick good thar lines: boolean-mask indexing makes new arrays *)
  coord' <- lift (mask_index coord ind_good_thar) ;;
  lc_coord' <- alloc (AFloat coord') ;;
  order <- load_float lc_order ;;
  order' <- lift (mask_index order ind_good_thar) ;;
  lc_order' <- alloc (AFloat order') ;;
  thar <- load_float lc_thar ;;
  thar' <- lift (mask_index thar ind_good_thar) ;;
  lc_thar' <- alloc (AFloat thar') ;;
  (* standardization *)
  let '(coord_s, coord_mean, coord_std) := standardize coord' in
  let '(order_s, order_mean, order_std) := standardize order' in
  let '(ml_s0, ml_mean0, ml_std0) := standardize (zip_with fmul thar' order') in
  ml_s <- alloc (AFloat ml_s0) ;;
  (* weight *)
  amp <- lift (masked_column popt_a ind_good_thar 1) ;;
  base <- lift (masked_column popt_a ind_good_thar 0) ;;
  weight <- alloc (ABool (map (fun v => fgt v fzero) (zip_with fdiv amp base))) ;;
  let lv := Locals coord_s order_s ml_mean0 ml_std0 lc_order' lc_thar' ml_s weight in
  (* fit surface *)
  x0 <- call_leastsq Residual poly_order lv
          (flatten (np_zeros2 (fst poly_order) (snd poly_order))) ;;
  x <- (if 0 <? n_iter
        then r <- rejection_loop (Z.to_nat n_iter - 1) poly_order
                    max_dev_threshold lar nl_eachorder lv x0 ;;
             ret (x_mini_lsq r)
        else bulk_rejection poly_order max_dev_threshold lar lv x0) ;;
  thar_final <- load_float lc_thar' ;;
  ind_good <- lift (mask_index (where1 ind_good_thar) (map isfinite thar_final)) ;;
  ret (x, ind_good, (coord_mean, coord_std), (order_mean, order_std),
       (ml_mean0, ml_std0)).
End FitGratingEquation.

(** ** Shifting the wavelength solution *)

(** [np.arange(n)]; a negative extent gives the empty array. *)
Definition arange (n : Z) : list Z := zrange 0 n.


Section Spline.
(** scipy's B-spline representation, [splrep(x, y, k, s)] and
    [splev(x, tck)]. *)
Variable tck : Type.
Variable splrep : list float -> list float -> Z -> option float -> tck.
Variable splev : list float -> tck -> list float.


(** ** Refining ThAr positions *)

Variable np_exp : float -> float.
Variable np_power : float -> float -> float.

Definition f_pi : float := S754_finite false 7074237752028440 (-51).
Definition f0_5 : float := Eval vm_compute in fdiv (of_Z 1) (of_Z 2).
Definition f0_1 : float := Eval vm_compute in fdiv (of_Z 1) (of_Z 10).
Definition f0_01 : float := Eval vm_compute in fdiv (of_Z 1) (of_Z 100).

(** [gauss_poly0(x, p0, a, b, c)] *)
Definition gauss_poly0 (x : list float) (p0 a b c : float) : list float :=
  map (fun xv =>
         fadd p0
           (fmul (fdiv (fdiv a (fsqrt (fmul (of_Z 2) f_pi))) c)
                 (np_exp (fmul (SFopp f0_5)
                               (np_power (fdiv (fsub xv b) c) (of_Z 2))))))
      x.

(** [curve_fit(f, xdata, ydata, p0, bounds)]: the pair [(popt, pcov)], or
    nothing when it raises RuntimeError. *)
Variable curve_fit :
  (list float -> float -> float -> float -> float -> list float) ->
  list float -> list float -> list float -> list float * list float ->
  option (list float * list (list float)).

(** [np.diagonal(m)] *)
Definition np_diagonal (m : list (list float)) : list float :=
  omap id (imap (fun i row => row !! i) m).

(** [np.diff(a)] *)
Definition np_diff (a : list float) : list float :=
  zip_with (fun lo hi => fsub hi lo) a (tail a).

(** The body of the loop over the catalogue lines of the order. *)
Definition refine_line (this_wave_init this_thar : list float)
    (fit_width lc_tol each_thar_line : float)
    : outcome (list float * list float) :=
  let ind_local :=
    zip_with andb
      (map (fun v => fgt v (fsub each_thar_line fit_width)) this_wave_init)
      (map (fun v => flt v (fadd each_thar_line fit_width)) this_wave_init) in
  let p0 := [fzero; of_Z 100000; each_thar_line; f0_1] in
  let bounds :=
    ([SFopp fone; fzero; fsub each_thar_line lc_tol; f0_01],
     [S754_infinity false; S754_infinity false;
      fadd each_thar_line lc_tol; of_Z 2]) in
  match mask_index this_wave_init ind_local,
        mask_index this_thar ind_local with
  | Ret xs, Ret ys =>
      match curve_fit gauss_poly0 xs ys p0 bounds with
      | Some (popt, pcov) => Ret (popt, np_diagonal pcov)
      | None => Ret (map (fun _ => nan) p0, replicate (length p0) nan)
      end
  | Raise e, _ => Raise e
  | _, Raise e => Raise e
  end.

(** [np.all(np.diff(a) >= 0)] and [np.all(np.diff(a) <= 0)] *)
Definition all_diff_ge0 (a : list float) : bool :=
  forallb (fun d => fge d fzero) (np_diff a).

Definition all_diff_le0 (a : list float) : bool :=
  forallb (fun d => fle d fzero) (np_diff a).

(** The interpolant of the pixel coordinate against the wavelength. *)
Definition inversion_interpolant (this_wave_init this_xcoord : list float)
    (k : Z) : outcome tck :=
  if all_diff_ge0 this_wave_init
  then Ret (splrep this_wave_init this_xcoord k None)
  else if all_diff_le0 this_wave_init
  then Ret (splrep (reverse this_wave_init) (reverse this_xcoord) k None)
  else Raise ValueError.

(** [refine_thar_positions_order(this_wave_init, this_xcoord, this_thar,
    this_thar_list, this_order, fit_width, lc_tol, k)]; [None] is the
    Python [None] returned for an order without catalogue lines. *)
Definition refine_thar_positions_order
    (this_wave_init this_xcoord this_thar this_thar_list : list float)
    (this_order fit_width lc_tol : float) (k : Z)
    : outcome (option (list float * list float * list float
                       * list (list float) * list (list float))) :=
  if (length this_thar_list =? 0)%nat then Ret None
  else
    match mapM (refine_line this_wave_init this_thar fit_width lc_tol)
               this_thar_list with
    | Raise e => Raise e
    | Ret fits =>
        match inversion_interpolant this_wave_init this_xcoord k with
        | Raise e => Raise e
        | Ret t =>
            let popt_list := map fst fits in
            let pcov_list := map snd fits in
            let lc_coord :=
              splev (map (fun p => default nan (p !! 2%nat)) popt_list) t in
            let lc_order := map (fun _ => fmul fone this_order) lc_coord in
            Ret (Some (lc_coord, lc_order, this_thar_list, popt_list, pcov_list))
        end
    end.
End Spline.

(** The coordinates [np.arange(n)] as the floats scipy receives. *)
Definition grid (n : nat) : list float := map of_Z (arange (Z.of_nat n)).

(** ** CCD frames *)

(** The attributes of [extr_attr_list]. *)
Record ccd_info : Type := CcdInfo {
  gain : float;
  ron : float;
  unit_ : string;
  fp : string;
  hdu : Z;
  header : option (list (string * string));
  meta : option (list (string * string));
  _trim : option (Z * Z * Z * Z);
  _rot90 : Z }.

(** A [CCD] instance: the array and its attributes. *)
Record CCD : Type := Ccd { data : array2; info : ccd_info }.

(** The class attributes, seen on an instance that never set its own. *)
Definition class_info : ccd_info :=
  CcdInfo fone fzero "adu" "" 0 None None None 0.

(** [self.copy_info(ccd1)] *)
Definition copy_info (self ccd1 : CCD) : CCD :=
  Ccd (data self) (info ccd1).

(** [self / ccd1]: a new instance of the class. *)
Definition ccd_truediv (self ccd1 : CCD) : outcome CCD :=
  match broadcast2 fdiv (data self) (data ccd1) with
  | Ret d => Ret (Ccd d class_info)
  | Raise e => Raise e
  end.

(** [self - ccd1], which the docstring of [subtract] announces. *)
Definition ccd_sub (self ccd1 : CCD) : outcome CCD :=
  match broadcast2 fsub (data self) (data ccd1) with
  | Ret d => Ret (Ccd d class_info)
  | Raise e => Raise e
  end.

(** [CCD.subtract(self, ccd1)] *)
Definition subtract (self ccd1 : CCD) : outcome CCD :=
  match ccd_truediv self ccd1 with
  | Ret ccd2 => Ret (copy_info ccd2 self)
  | Raise e => Raise e
  end.

(** [CCD.devide(self, ccd1)] *)
Definition devide (self ccd1 : CCD) : outcome CCD :=
  match ccd_truediv self ccd1 with
  | Ret ccd2 => Ret (copy_info ccd2 self)
  | Raise e => Raise e
  end.

(** ** The contract of [np.unique] *)

(** Two entries numpy's [unique] identifies: equal, or both NaN. *)
Definition same_value (a b : float) : bool :=
  feq a b || (isnan a && isnan b).

(** [unique[inverse]] reconstructs the array. *)
Definition reconstructs (np_unique : list float -> list float * list nat) : Prop :=
  forall (x : list float),
    length (np_unique x).2 = length x /\
    forall (k i : nat) (v : float),
      (np_unique x).2 !! k = Some i -> x !! k = Some v ->
      exists u, (np_unique x).1 !! i = Some u /\ same_value u v = true.

(** ** Reference numerics

    Plain implementations of the numpy primitives, used to run the model on
    concrete inputs. *)

Definition not_nan (a : list float) : list float :=
  filter (fun v => isnan v = false) a.

Definition nanmean_ref (a : list float) : float := mean_naive (not_nan a).

Definition nanstd_ref (a : list float) : float :=
  let xs := not_nan a in
  let m := mean_naive xs in
  fsqrt (mean_naive (map (fun v => fmul (fsub v m) (fsub v m)) xs)).

(** Ascending order, NaN last. *)
Fixpoint insert_sorted (v : float) (l : list float) : list float :=
  match l with
  | [] => [v]
  | u :: t => if flt v u || isnan u then v :: u :: t
              else u :: insert_sorted v t
  end.

Definition sort_floats (l : list float) : list float :=
  foldr insert_sorted [] l.

Definition nanmedian_ref (a : list float) : float :=
  let xs := sort_floats (not_nan a) in
  let n := length xs in
  if (n =? 0)%nat then nan
  else if Nat.odd n then default nan (xs !! (n / 2)%nat)
  else fdiv (fadd (default nan (xs !! (n / 2 - 1)%nat))
                  (default nan (xs !! (n / 2)%nat))) (of_Z 2).

(** The first entry of every run of identified values. *)
Fixpoint dedupe_from (prev : float) (l : list float) : list float :=
  match l with
  | [] => []
  | b :: t => if same_value prev b then dedupe_from prev t
              else b :: dedupe_from b t
  end.

Definition dedupe (l : list float) : list float :=
  match l with
  | [] => []
  | a :: t => a :: dedupe_from a t
  end.

Definition unique_ref (x : list float) : list float * list nat :=
  let u := dedupe (sort_floats x) in
  (u, map (fun v => match list_find (fun w => same_value w v = true) u with
                    | Some (i, _) => i
                    | None => 0%nat
                    end) x).

(** [x ** p] for a small natural exponent [p]. *)
Definition power_ref (x p : float) : float :=
  Nat.iter (Z.to_nat (astype_int p)) (fun acc => fmul acc x) fone.

(** A solver that gives its starting point back. *)
Definition leastsq_ref (func : list float -> list float) (x0 : list float)
    : outcome (list float) := Ret x0.

(** A spline kept as the table of its values: the i-th evaluation point
    receives the i-th value, which is what an interpolating spline gives
    when it is evaluated at its own knots. *)
Definition splrep_ref (x y : list float) (k : Z) (s : option float)
    : list float := y.

Definition splev_ref (x : list float) (t : list float) : list float :=
  map (fun i => default nan (t !! i)) (seq 0 (length x)).

Definition curve_fit_ref
    (func : list float -> float -> float -> float -> float -> list float)
    (xdata ydata p0 : list float) (bounds : list float * list float)
    : option (list float * list (list float)) :=
  Some (p0, map (fun _ => map (fun _ => fzero) p0) p0).

(** ** An example run

    Four lines in two orders; the last line is far off the others. *)
Definition example_params (c : Z) : list float := [of_Z 1; of_Z 10; of_Z c; f0_5].

Definition example_store : state :=
  State
    (<[1%positive := AFloat [of_Z 10; of_Z 20; of_Z 30; of_Z 40]]>
     (<[2%positive := AFloat [of_Z 1; of_Z 1; of_Z 2; of_Z 2]]>
      (<[3%positive := AFloat [of_Z 5000; of_Z 5100; of_Z 2500; of_Z 9999]]>
       (<[4%positive := AFloat2 (Array2 4 [example_params 5000; example_params 5100;
                                            example_params 2500; example_params 9999])]>
        (<[5%positive := AFloat2 (Array2 4 [example_params 0; example_params 0;
                                             example_params 0; example_params 0])]>
         ∅)))))
    [].

(** [fit_grating_equation] on the example, with the reference numerics. *)
Definition example_fit (max_dev_threshold : float) (n_iter : Z) (lar : bool)
    (nl_eachorder : Z) :=
  fit_grating_equation power_ref nanmean_ref nanstd_ref nanmedian_ref
    unique_ref leastsq_ref 1%positive 2%positive 3%positive 4%positive
    5%positive None (3, 5)%nat max_dev_threshold n_iter lar nl_eachorder
    example_store.

(** The variables of the loop on the example, as the function has them
    when the loop is entered: the four lines carry weight. *)
Definition example_locals : locals :=
  Locals [of_Z (-1); fzero; fzero; of_Z 1] [of_Z (-1); of_Z (-1); of_Z 1; of_Z 1]
         (of_Z 8000) (of_Z 6000) 2%positive 3%positive 4%positive 5%positive.

Definition example_loop_store : state :=
  State
    (<[2%positive := AFloat [of_Z 1; of_Z 1; of_Z 2; of_Z 2]]>
     (<[3%positive := AFloat [of_Z 5000; of_Z 5100; of_Z 2500; of_Z 9999]]>
      (<[4%positive := AFloat [of_Z (-1); of_Z (-1); of_Z (-1); of_Z 2]]>
       (<[5%positive := ABool [true; true; true; true]]> ∅))))
    [].

(** ** The order map of a shifted spectrum *)

(** [a[0, 0]] *)
Definition cell00 (a : array2) : outcome float :=
  match rows a with
  | (v :: _) :: _ => Ret v
  | _ => Raise IndexError
  end.

(** [interpolate_order(order_temp, shift, thar1d_fixed)] *)
Definition interpolate_order (order_temp : array2) (shift : Z * Z)
    (thar1d_fixed : array2) : outcome array2 :=
  let '(xshift, yshift) := shift in
  match cell00 order_temp with
  | Raise e => Raise e
  | Ret o =>
      let ycoord_yshift :=
        map (fun i => fadd (fadd (of_Z i) o) (of_Z yshift))
            (arange (Z.of_nat (nrows thar1d_fixed))) in
      Ret (Array2 (ncols thar1d_fixed)
             (map (fun v => replicate (ncols thar1d_fixed) v) ycoord_yshift))
  end.

(** ** Refining the positions of all orders *)

(** [np.min]: a NaN operand propagates. *)
Definition fmin (a b : float) : float :=
  if isnan a then a else if isnan b then b else if flt b a then b else a.

Definition np_min (a : list float) : outcome float :=
  match a with
  | [] => Raise ValueError
  | v :: rest => Ret (fold_left fmin rest v)
  end.

(** [thar_list[(thar_list > np.min(w) + 1.) * (thar_list < np.max(w) - 1.)]] *)
Definition lines_in_range (thar_list this_wave_init : list float)
    : outcome (list float) :=
  match np_min this_wave_init, np_max this_wave_init with
  | Ret lo, Ret hi =>
      mask_index thar_list
        (zip_with andb
           (map (fun v => fgt v (fadd lo fone)) thar_list)
           (map (fun v => flt v (fsub hi fone)) thar_list))
  | Raise e, _ => Raise e
  | _, Raise e => Raise e
  end.

(** [a[i]] for a row index in range of the loop, and [a[i, 0]]. *)
Definition row_at (a : array2) (i : nat) : outcome (list float) :=
  match rows a !! i with
  | Some r => Ret r
  | None => Raise IndexError
  end.

Definition cell_i0 (a : array2) (i : nat) : outcome float :=
  match rows a !! i with
  | Some (v :: _) => Ret v
  | _ => Raise IndexError
  end.

(** [np.hstack] / [np.vstack] of a list of arrays: an empty list raises
    ValueError. *)
Definition np_stack {A} (parts : list (list A)) : outcome (list A) :=
  match parts with
  | [] => Raise ValueError
  | _ => Ret (mjoin parts)
  end.

Section RefinePositions.
Variable tck : Type.
Variable splrep : list float -> list float -> Z -> option float -> tck.
Variable splev : list float -> tck -> list float.
Variable np_exp : float -> float.
Variable np_power : float -> float -> float.
Variable curve_fit :
  (list float -> float -> float -> float -> float -> list float) ->
  list float -> list float -> list float -> list float * list float ->
  option (list float * list (list float)).

(** The call made for order [i_order]. *)
Definition refine_one_order (wave_init order_init thar1d_fixed : array2)
    (thar_list : list float) (fit_width lc_tol : float) (k : Z) (i_order : nat)
    : outcome (option (list float * list float * list float
                       * list (list float) * list (list float))) :=
  match row_at wave_init i_order with
  | Raise e => Raise e
  | Ret w =>
      match row_at thar1d_fixed i_order with
      | Raise e => Raise e
      | Ret spec =>
          match lines_in_range thar_list w with
          | Raise e => Raise e
          | Ret lines =>
              match cell_i0 order_init i_order with
              | Raise e => Raise e
              | Ret o =>
                  refine_thar_positions_order tck splrep splev np_exp np_power
                    curve_fit w (grid (ncols wave_init)) spec lines o
                    fit_width lc_tol k
              end
          end
      end
  end.

(** [refine_thar_positions(wave_init, order_init, thar1d_fixed, thar_list,
    fit_width, lc_tol, k)]: the orders are refined one by one, in order
    (the results of [Parallel] come in the order of the calls; when more
    than one order raises, the model reports the first, [Parallel] may
    report another); the result is
    [(lc_coord, lc_order, lc_thar, popt, pcov)]. *)
Definition refine_thar_positions (wave_init order_init thar1d_fixed : array2)
    (thar_list : list float) (fit_width lc_tol : float) (k : Z)
    : outcome (list float * list float * list float
               * list (list float) * list (list float)) :=
  match mapM (refine_one_order wave_init order_init thar1d_fixed thar_list
                fit_width lc_tol k) (seq 0 (nrows wave_init)) with
  | Raise e => Raise e
  | Ret r0 =>
      (* remove all null values *)
      let r := omap id r0 in
      match np_stack (map (fun t => t.1.1.1.1) r),
            np_stack (map (fun t => t.1.1.1.2) r),
            np_stack (map (fun t => t.1.1.2) r),
            np_stack (map (fun t => t.1.2) r),
            np_stack (map (fun t => t.2) r) with
      | Ret lc_coord, Ret lc_order, Ret lc_thar, Ret popt, Ret pcov =>
          Ret (lc_coord, lc_order, lc_thar, popt, pcov)
      | Raise e, _, _, _, _ => Raise e
      | _, Raise e, _, _, _ => Raise e
      | _, _, Raise e, _, _ => Raise e
      | _, _, _, Raise e, _ => Raise e
      | _, _, _, _, Raise e => Raise e
      end
  end.
End RefinePositions.

(** ** Predicting wavelengths from the fitted surface *)

(** The rows of [flat.reshape((n, m))]. *)
Fixpoint chunks (n m : nat) (flat : list float) : list (list float) :=
  match n with
  | O => []
  | S n' => take m flat :: chunks n' m (drop m flat)
  end.

(** [flat.reshape((n, m))] *)
Definition reshape (flat : list float) (n m : nat) : outcome array2 :=
  if (length flat =? n * m)%nat then Ret (Array2 m (chunks n m flat))
  else Raise ValueError.

Section Predict.
Variable np_power : float -> float -> float.

(** [grating_equation_predict(grid_coord, grid_order, x_mini_lsq,
    poly_order, scaler_coord, scaler_order, scaler_ml)].  The flattened
    grids have one extent, or [grid_order] has a single cell, which numpy
    broadcasts; any other pair of extents makes numpy raise ValueError, in
    [polyval2d], in the division or in the reshape. *)
Definition grating_equation_predict (grid_coord grid_order : array2)
    (x_mini_lsq : list float) (poly_order : nat * nat)
    (scaler_coord scaler_order scaler_ml : float * float) : outcome array2 :=
  let n := length (flatten grid_coord) in
  if (length (flatten grid_order) =? n)%nat
     || (length (flatten grid_order) =? 1)%nat
  then
    let order_flat := stretch n (flatten grid_order) in
    let sgrid_coord :=
      map (fun v => fdiv (fsub v (fst scaler_coord)) (snd scaler_coord))
          (flatten grid_coord) in
    let sgrid_order :=
      map (fun v => fdiv (fsub v (fst scaler_order)) (snd scaler_order))
          order_flat in
    match polyval2d np_power sgrid_coord sgrid_order (AFloat x_mini_lsq)
            (Some poly_order) with
    | Raise e => Raise e
    | Ret sgrid_fitted =>
        let sgrid_fitted_wave :=
          zip_with fdiv
            (map (fun v => fadd (fmul v (snd scaler_ml)) (fst scaler_ml))
                 sgrid_fitted)
            order_flat in
        reshape sgrid_fitted_wave (nrows grid_coord) (ncols grid_coord)
    end
  else Raise ValueError.
End Predict.

(** ** Polynomial fit with rejection *)

(** [np.polyval(p, x)]: Horner's scheme from the leading coefficient. *)
Definition np_polyval (p : list float) (x : float) : float :=
  fold_left (fun acc c => fadd (fmul acc x) c) p fzero.

(** [polyfit_costfun_lar(p, x, y, w)] *)
Definition polyfit_costfun_lar (p x y w : list float) : list float :=
  zip_with fmul
    (map (fun d => fsqrt (fabs d))
         (zip_with fsub (map (np_polyval p) x) y))
    w.

(** [polyfit_costfun(p, x, y, w)] *)
Definition polyfit_costfun (p x y w : list float) : list float :=
  zip_with fmul (zip_with fsub (map (np_polyval p) x) y) w.

(** [y_res]: the residuals of the points that carry weight, NaN for the
    others. *)
Definition weighted_residuals (p0 x_ y_ w_ : list float) : list float :=
  zip_with (fun (wv : float) r => if fgt wv fzero then r else nan) w_
    (zip_with fsub y_ (map (np_polyval p0) x_)).

Section PolyfitReject.
Variable leastsq :
  (list float -> list float) -> list float -> outcome (list float).
(** [np.polyfit(x, y, deg, w=w)] *)
Variable np_polyfit :
  list float -> list float -> nat -> list float -> outcome (list float).

(** The fit of one pass: [leastsq] on the reserved points. *)
Definition reserved_fit (x_ y_ w_ : list float) (deg : nat)
    (ind_reserved : list bool) : outcome (list float) :=
  match mask_index x_ ind_reserved, mask_index y_ ind_reserved,
        mask_index w_ ind_reserved with
  | Ret xr, Ret yr, Ret wr =>
      leastsq (fun p => polyfit_costfun_lar p xr yr wr) (replicate (deg + 1) fzero)
  | Raise e, _, _ => Raise e
  | _, Raise e, _ => Raise e
  | _, _, Raise e => Raise e
  end.

(** The loop [while np.sum(ind_reserved) > n_reserve]; the result is the
    pair [(ind_reserved, w_)] it leaves.  [fuel] bounds the number of
    passes; [None] means the bound was too small. *)
Fixpoint reject_loop (fuel : nat) (x_ y_ : list float) (deg : nat)
    (epsilon : float) (n_reserve : Z) (ind_reserved : list bool)
    (w_ : list float) : option (outcome (list bool * list float)) :=
  match fuel with
  | O => None
  | S fuel' =>
      if n_reserve <? count_true ind_reserved
      then
        match reserved_fit x_ y_ w_ deg ind_reserved with
        | Raise e => Some (Raise e)
        | Ret p0 =>
            let y_res := weighted_residuals p0 x_ y_ w_ in
            let ind_bad := map (fun r => fgt (fabs r) epsilon) y_res in
            match mask_index ind_bad ind_reserved with
            | Raise e => Some (Raise e)
            | Ret bad_reserved =>
                if existsb (fun b : bool => b) bad_reserved
                then
                  match nanargmax (map fabs y_res) with
                  | Raise e => Some (Raise e)
                  | Ret i_rejected =>
                      if (i_rejected <? length ind_reserved)%nat
                      then reject_loop fuel' x_ y_ deg epsilon n_reserve
                             (<[i_rejected := false]> ind_reserved)
                             (<[i_rejected := fzero]> w_)
                      else Some (Raise IndexError)
                  end
                else Some (Ret (ind_reserved, w_))
            end
        end
      else Some (Ret (ind_reserved, w_))
  end.

(** [polyfit_reject(x, y, deg, w, epsilon, n_reserve)] for an integer
    [n_reserve]; [w] is [None] or an array.  The result is
    [(p, w_ > 0)]. *)
Definition polyfit_reject (x y : list float) (deg : nat)
    (w : option (list float)) (epsilon : float) (n_reserve : Z)
    : option (outcome (list float * list bool)) :=
  let ind_good := map (fun _ => true) x in
  match mask_index x ind_good, mask_index y ind_good,
        mask_index (default (map (fun _ => fone) x) w) ind_good with
  | Ret x_, Ret y_, Ret w_ =>
      match reject_loop (S (length x_)) x_ y_ deg epsilon n_reserve
              (map (fun _ => true) x_) w_ with
      | None => None
      | Some (Raise e) => Some (Raise e)
      | Some (Ret (ind_reserved, w_')) =>
          match mask_index x_ ind_reserved, mask_index y_ ind_reserved,
                mask_index w_' ind_reserved with
          | Ret xr, Ret yr, Ret wr =>
              match np_polyfit xr yr deg wr with
              | Ret p => Some (Ret (p, map (fun v => fgt v fzero) w_'))
              | Raise e => Some (Raise e)
              end
          | Raise e, _, _ => Some (Raise e)
          | _, Raise e, _ => Some (Raise e)
          | _, _, Raise e => Some (Raise e)
          end
      end
  | Raise e, _, _ => Some (Raise e)
  | _, Raise e, _ => Some (Raise e)
  | _, _, Raise e => Some (Raise e)
  end.
End PolyfitReject.

(** ** CCD frames: rotation, trimming, reading *)

(** [np.flip(m, 0)], [np.flip(m, 1)] and [np.transpose(m)]. *)
Definition flip_rows (m : array2) : array2 :=
  Array2 (ncols m) (reverse (rows m)).

Definition flip_cols (m : array2) : array2 :=
  Array2 (ncols m) (map reverse (rows m)).

Definition transpose (m : array2) : array2 :=
  Array2 (nrows m)
    (map (fun j => map (fun r => default nan (r !! j)) (rows m))
         (seq 0 (ncols m))).

(** [np.rot90(m, k)] *)
Definition np_rot90 (m : array2) (k : Z) : array2 :=
  match k mod 4 with
  | 0 => m
  | 1 => transpose (flip_cols m)
  | 2 => flip_cols (flip_rows m)
  | _ => flip_cols (transpose m)
  end.

(** [CCD.rot90(self, k)] *)
Definition ccd_rot90 (self : CCD) (k : Z) : CCD :=
  copy_info (Ccd (np_rot90 (data self) k) class_info) self.

(** [CCD.trim(self, trim=(l, r, t, b))] *)
Definition ccd_trim (self : CCD) (trim : Z * Z * Z * Z) : CCD :=
  let '(l, r, t, b) := trim in
  copy_info (Ccd (window (data self) l (r + 1) t (b + 1)) class_info) self.

(** [CCD.__new__(subtype, data, gain, ron, unit, trim, rot90, header,
    meta)]: the attributes it sets; the others are the class attributes. *)
Definition ccd_new (dat : array2) (gain_ ron_ : float) (unit0 : string)
    (trim : option (Z * Z * Z * Z)) (rot90 : Z)
    (header_ meta_ : option (list (string * string))) : CCD :=
  Ccd dat (CcdInfo gain_ ron_ unit0 (fp class_info) (hdu class_info)
             (header class_info) (meta class_info) trim rot90).

(** [l[i]] of Python: a negative index counts from the end. *)
Definition py_index {A} (l : list A) (i : Z) : outcome A :=
  let j := if i <? 0 then i + Z.of_nat (length l) else i in
  if j <? 0 then Raise IndexError
  else match l !! Z.to_nat j with
       | Some a => Ret a
       | None => Raise IndexError
       end.

(** A FITS file: its header-data units. *)
Record hdu_unit : Type := HduUnit {
  hdu_data : array2;
  hdu_header : list (string * string) }.

Section Read.
(** The files that exist, as [fits.open] reads them. *)
Variable fits_open : string -> option (list hdu_unit).

(** [CCD.read(fp, hdu, gain, ron, unit, trim, rot90)] *)
Definition ccd_read (fp0 : string) (hdu0 : Z) (gain_ ron_ : float)
    (unit0 : string) (trim : option (Z * Z * Z * Z)) (rot90 : Z)
    : outcome CCD :=
  match fits_open fp0 with
  | None => Raise ValueError
  | Some hdu_list =>
      match py_index hdu_list hdu0 with
      | Raise e => Raise e
      | Ret h =>
          let dat :=
            match trim with
            | Some (l, r, t, b) => window (hdu_data h) l (r + 1) t (b + 1)
            | None => hdu_data h
            end in
          let ccd := ccd_new (np_rot90 dat rot90) gain_ ron_ unit0 trim rot90
                       (Some (hdu_header h)) (Some (hdu_header h)) in
          Ret (Ccd (data ccd)
                 (CcdInfo (gain (info ccd)) (ron (info ccd)) (unit_ (info ccd))
                    fp0 (hdu (info ccd)) (header (info ccd)) (meta (info ccd))
                    (_trim (info ccd)) (_rot90 (info ccd))))
      end
  end.
End Read.


(** ** Events of a computation *)

(** What a computation adds to the trace, told by its outcome. *)
Definition emits {A} (S : outcome A -> list event -> Prop) (m : M A) : Prop :=
  forall st r st', m st = (r, st') ->
    exists done, trace st' = trace st ++ done /\ S r done.

(** The events of [n] passes that each rejected one line. *)
Definition passes (l : loss) (idxs : list nat) : list event :=
  idxs ≫= fun i => [EvFit l; EvReject [i]].

(** The events of the loop [while n_loop < n_iter] entered with at most
    [S more] passes ahead: every pass fits once; the passes but the last
    reject one line each; the loop is left at the first pass that rejects
    nothing, or after [S more] passes that all rejected a line. *)
Definition loop_events (l : loss) (more : nat) : list event -> Prop :=
  fun t => exists idxs,
    (t = passes l idxs ++ [EvFit l] /\ (length idxs <= more)%nat) \/
    (t = passes l idxs /\ length idxs = S more).

(** The event sequences of a whole fit in the iterative mode. *)
Definition iterative_events (lar : bool) (n_iter : Z) : list event -> Prop :=
  fun t => exists t',
    t = EvFit Residual :: t' /\
    loop_events (if lar then ResidualLar else Residual)
      (Z.to_nat n_iter - 1) t'.

(** What a computation returns, when it returns. *)
Definition returns {A} (P : A -> Prop) (m : M A) : Prop :=
  forall st a st', m st = (Ret a, st') -> P a.

(** [a[0] < a[1] < ...] for an index array. *)
Definition increasing (a : list nat) : Prop :=
  forall i j x y, a !! i = Some x -> a !! j = Some y -> (i < j)%nat -> (x < y)%nat.

(** The solver calls and the rejections among the events. *)
Fixpoint count_fits (t : list event) : nat :=
  match t with
  | [] => 0
  | EvFit _ :: t' => S (count_fits t')
  | EvReject _ :: t' => count_fits t'
  end.

Fixpoint count_rejects (t : list event) : nat :=
  match t with
  | [] => 0
  | EvFit _ :: t' => count_rejects t'
  | EvReject _ :: t' => S (count_rejects t')
  end.

(** ** Cleaning the line list order by order *)

(** [ind_good[sub_good] = True] on [np.zeros_like(lc_coord, bool)] *)
Definition mark_good (n : nat) (sub_good : list nat) : list bool :=
  foldl (fun m i => <[i := true]> m) (replicate n false) sub_good.

Section CleanThar.
Variable np_unique : list float -> list float * list nat.
Variable leastsq :
  (list float -> list float) -> list float -> outcome (list float).
Variable np_polyfit :
  list float -> list float -> nat -> list float -> outcome (list float).

(** The lines of order [i_order] the fit may use: their positions
    [this_sub[ind_use]], and the arrays [x] and [y] after
    [x, y, z = x[ind_use], y[ind_use], z[ind_use]]. *)
Definition usable_lines (lc_coord lc_order lc_thar : list float)
    (popt : array2) (i_order : float)
    : outcome (list nat * list float * list float) :=
  let this_ind := map (fun v => feq v i_order) lc_order in
  let this_sub := where1 this_ind in
  match mask_index lc_coord this_ind, mask_index lc_thar this_ind,
        masked_column popt this_ind 2 with
  | Ret this_lc_coord, Ret this_lc_thar, Ret centre =>
      let x := this_lc_coord in
      let y := zip_with fsub centre this_lc_thar in
      let ind_use := zip_with andb (map isfinite x) (map isfinite y) in
      match mask_index x ind_use, mask_index y ind_use,
            mask_index this_lc_thar ind_use, mask_index this_sub ind_use with
      | Ret x', Ret y', Ret _, Ret sub => Ret (sub, x', y')
      | Raise e, _, _, _ => Raise e
      | _, Raise e, _, _ => Raise e
      | _, _, Raise e, _ => Raise e
      | _, _, _, Raise e => Raise e
      end
  | Raise e, _, _ => Raise e
  | _, Raise e, _ => Raise e
  | _, _, Raise e => Raise e
  end.

(** The body of the loop over the orders: the positions it adds to
    [sub_good].  The loop of [polyfit_reject] always ends; the model of
    an unfinished loop is never reached. *)
Definition clean_order (lc_coord lc_order lc_thar : list float)
    (popt : array2) (deg : nat) (w : option (list float)) (epsilon : float)
    (n_reserve : Z) (i_order : float) : outcome (list nat) :=
  match usable_lines lc_coord lc_order lc_thar popt i_order with
  | Raise e => Raise e
  | Ret (sub, x, y) =>
      match polyfit_reject leastsq np_polyfit x y deg w epsilon n_reserve with
      | None => Raise RuntimeError
      | Some (Raise e) => Raise e
      | Some (Ret (p, ind_reserved)) => mask_index sub ind_reserved
      end
  end.

(** [clean_thar_polyfit1d_reject(lc_coord, lc_order, lc_thar, popt,
    ind_good0, deg, w, epsilon, n_reserve)]; [lc_coord] is a reference,
    the function writes into the array. *)
Definition clean_thar_polyfit1d_reject (lc_coord : positive)
    (lc_order lc_thar : list float) (popt : array2)
    (ind_good0 : option (list bool)) (deg : nat) (w : option (list float))
    (epsilon : float) (n_reserve : Z) : M (list bool) :=
  coord0 <- load_float lc_coord ;;
  coord <- match ind_good0 with
           | None => ret coord0
           | Some good =>
               coord' <- lift (mask_assign coord0 (map negb good) nan) ;;
               store lc_coord (AFloat coord') ;;;
               ret coord'
           end ;;
  parts <- lift (mapM (clean_order coord lc_order lc_thar popt deg w epsilon
                         n_reserve)
                      (np_unique lc_order).1) ;;
  ret (mark_good (length coord) (mjoin parts)).
End CleanThar.

(** A polynomial fit that returns the zero polynomial, to run the model. *)
Definition polyfit_ref (x y : list float) (deg : nat) (w : list float)
    : outcome (list float) := Ret (replicate (deg + 1) fzero).

(** The lines of the example run, cleaned: the coordinates are the array
    object 1. *)
Definition example_popt : array2 :=
  Array2 4 [example_params 5000; example_params 5100;
            example_params 2500; example_params 9999].

Definition example_lines : state :=
  State (<[1%positive := AFloat [of_Z 10; of_Z 20; of_Z 30; of_Z 40]]> ∅) [].

Definition example_clean (ind_good0 : option (list bool))
    (w : option (list float)) : outcome (list bool) * state :=
  clean_thar_polyfit1d_reject unique_ref leastsq_ref polyfit_ref 1%positive
    [of_Z 1; of_Z 1; of_Z 2; of_Z 2]
    [of_Z 5000; of_Z 5100; of_Z 2500; of_Z 9999] example_popt ind_good0 1 w
    (fdiv (of_Z 4) (of_Z 1000)) 3 example_lines.

(** * Properties *)

(** ** float64 comparisons *)

Lemma flt_irrefl (a : float) : flt a a = false.
Proof.
  unfold flt, SFltb.
  destruct a as [s|s| |s m e]; simpl; try destruct s; try reflexivity;
    rewrite Z.compare_refl, Pos.compare_cont_refl; reflexivity.
Qed.

(** A threshold above zero is not reached by zero. *)
Lemma zero_below_positive (t : float) :
  flt fzero t = true -> fge fzero t = false.
Proof.
  unfold flt, fge, SFltb, SFleb, fzero.
  destruct t as [s|s| |s m e]; simpl; try destruct s; simpl; congruence.
Qed.

(** ** Fixing ThAr spectra *)

Lemma in_pyslice_length_ext (s e : Z) (n m : nat) (c : nat) :
  n = m -> in_pyslice s e n c = in_pyslice s e m c.
Proof. intros ->; reflexivity. Qed.

Lemma length_set_slice {A} (row : list A) (s e : Z) (v : A) :
  length (set_slice row s e v) = length row.
Proof. unfold set_slice. apply length_imap. Qed.

Lemma lookup_set_slice {A} (row : list A) (s e : Z) (v : A) (c : nat) :
  set_slice row s e v !! c =
  (fun a => if in_pyslice s e (length row) c then v else a) <$> row !! c.
Proof. unfold set_slice. apply list_lookup_imap. Qed.

Lemma elem_of_where1 (m : list bool) (i : nat) :
  i ∈ where1 m <-> m !! i = Some true.
Proof.
  unfold where1. rewrite list_elem_of_filter, elem_of_seq. split.
  - intros [H _]; exact H.
  - intros H. split; [exact H|]. apply lookup_lt_Some in H. lia.
Qed.

Lemma elem_of_where2 (m : list (list bool)) (x y : nat) :
  (x, y) ∈ where2 m <-> exists row, m !! x = Some row /\ row !! y = Some true.
Proof.
  unfold where2. rewrite list_elem_of_join. split.
  - intros (l & Hin & Hl).
    apply elem_of_lookup_imap in Hl as (i & row & -> & Hrow).
    apply list_elem_of_fmap in Hin as (y' & Heq & Hy').
    inversion Heq; subst. exists row. split; [exact Hrow|].
    apply elem_of_where1; exact Hy'.
  - intros (row & Hrow & Hy).
    exists ((fun y0 => (x, y0)) <$> where1 row). split.
    + apply list_elem_of_fmap. exists y. split; [reflexivity|].
      apply elem_of_where1; exact Hy.
    + apply elem_of_lookup_imap. exists x, row. split; [reflexivity|exact Hrow].
Qed.

Section SaturationWindows.
Variable conv_len : Z.

(** Row [r] of the painted mask only depends on row [r]. *)
Lemma paint_rows (L : list (nat * nat)) (m : list (list bool)) (r : nat) :
  fold_left (paint_window conv_len) L m !! r = fold_left (paint_row conv_len r) L <$> m !! r.
Proof.
  revert m. induction L as [|[x y] L IH]; intros m; simpl.
  - destruct (m !! r); reflexivity.
  - rewrite IH. destruct (Nat.eqb_spec x r) as [->|Hne].
    + rewrite list_lookup_alter_eq. destruct (m !! r); reflexivity.
    + rewrite list_lookup_alter_ne by exact Hne. destruct (m !! r); reflexivity.
Qed.

Lemma paint_row_length (r : nat) (L : list (nat * nat)) (row : list bool) :
  length (fold_left (paint_row conv_len r) L row) = length row.
Proof.
  revert row. induction L as [|[x y] L IH]; intros row; simpl; [reflexivity|].
  rewrite IH. destruct (x =? r)%nat; [apply length_set_slice|reflexivity].
Qed.

(** A cell of a painted row is set when it was, or when a window of the
    row reaches it. *)
Lemma paint_row_cell (r : nat) (L : list (nat * nat)) (row : list bool)
    (c : nat) (b : bool) :
  row !! c = Some b ->
  exists b', fold_left (paint_row conv_len r) L row !! c = Some b' /\
    (b' = true <->
     b = true \/
     exists y, (r, y) ∈ L /\
       in_pyslice (Z.of_nat y - conv_len) (Z.of_nat y + conv_len)
                  (length row) c = true).
Proof.
  revert row b. induction L as [|[x y] L IH]; intros row b Hc; simpl.
  - exists b. split; [exact Hc|]. split; [auto|].
    intros [H|(y & Hin & _)]; [exact H|]. inversion Hin.
  - destruct (Nat.eqb_spec x r) as [->|Hne].
    + set (row1 := set_slice row _ _ true).
      assert (Hc1 : row1 !! c =
                    Some (if in_pyslice (Z.of_nat y - conv_len)
                               (Z.of_nat y + conv_len) (length row) c
                          then true else b)).
      { unfold row1. rewrite lookup_set_slice, Hc. reflexivity. }
      destruct (IH _ _ Hc1) as (b' & Hb' & Hiff).
      exists b'. split; [exact Hb'|]. rewrite Hiff.
      unfold row1. rewrite length_set_slice. split.
      * intros [H|(y' & Hin & Hs)].
        -- destruct (in_pyslice _ _ _ c) eqn:E; [|auto].
           right. exists y. split; [left|exact E].
        -- right. exists y'. split; [right; exact Hin|exact Hs].
      * intros [H|(y' & Hin & Hs)].
        -- left. rewrite H. destruct (in_pyslice _ _ _ c); reflexivity.
        -- apply elem_of_cons in Hin as [Heq|Hin].
           ++ inversion Heq; subst. left. rewrite Hs. reflexivity.
           ++ right. exists y'. split; [exact Hin|exact Hs].
    + destruct (IH _ _ Hc) as (b' & Hb' & Hiff).
      exists b'. split; [exact Hb'|]. rewrite Hiff. split.
      * intros [H|(y' & Hin & Hs)]; [auto|].
        right. exists y'. split; [right; exact Hin|exact Hs].
      * intros [H|(y' & Hin & Hs)]; [auto|].
        apply elem_of_cons in Hin as [Heq|Hin].
        -- inversion Heq; subst. contradiction.
        -- right. exists y'. split; [exact Hin|exact Hs].
Qed.
End SaturationWindows.

(** The saturated cells of row [r] are the windows painted on it. *)
Lemma saturated_in_row (a : array2) (sat_count : float) (r y : nat)
    (row : list float) :
  rows a !! r = Some row ->
  (r, y) ∈ where2 (map (map (fun v => fge v sat_count)) (rows a)) <->
  exists v, row !! y = Some v /\ fge v sat_count = true.
Proof.
  intros Hrow. rewrite elem_of_where2. split.
  - intros (rowb & Hb & Hy).
    rewrite list_lookup_fmap, Hrow in Hb. simpl in Hb. inversion Hb; subst.
    rewrite list_lookup_fmap in Hy.
    destruct (row !! y) as [v|] eqn:E; simpl in Hy; [|discriminate].
    exists v. split; [reflexivity|]. congruence.
  - intros (v & Hv & Hs).
    exists (map (fun v => fge v sat_count) row). split.
    + rewrite list_lookup_fmap, Hrow. reflexivity.
    + rewrite list_lookup_fmap, Hv. simpl. rewrite Hs. reflexivity.
Qed.

(** What [thar1d_fix] does to a row: every sample becomes zero when it is
    negative or inside a painted slice, and is kept otherwise. *)
Lemma thar1d_fix_row (a : array2) (conv_len : Z) (sat_count : float)
    (r : nat) (row : list float) :
  rows a !! r = Some row ->
  exists row',
    rows (thar1d_fix a conv_len sat_count) !! r = Some row' /\
    length row' = length row /\
    forall c v, row !! c = Some v ->
      exists v', row' !! c = Some v' /\
        ((v' = fzero /\
          (flt v fzero = true \/ slice_covered row conv_len sat_count c)) \/
         (v' = v /\ flt v fzero = false /\
          ~ slice_covered row conv_len sat_count c)).
Proof.
  intros Hrow.
  set (S := where2 (map (map (fun v => fge v sat_count)) (rows a))).
  set (zrow := map (fun _ : bool => false) (map (fun v => fge v sat_count) row)).
  set (crow := fold_left (paint_row conv_len r) S zrow).
  assert (Hz : length zrow = length row) by (unfold zrow; rewrite !length_map; reflexivity).
  assert (Hcl : length crow = length row)
    by (unfold crow; rewrite paint_row_length; exact Hz).
  set (sel := fun (b : bool) (x : float) => if b then fzero else x).
  set (brow := zip_with orb (map (fun v => flt v fzero) row) crow).
  exists (zip_with sel brow row).
  split; [|split].
  - unfold thar1d_fix. simpl. rewrite lookup_zip_with, lookup_zip_with.
    rewrite !list_lookup_fmap, Hrow. simpl.
    fold S. rewrite paint_rows, !list_lookup_fmap, Hrow. simpl.
    reflexivity.
  - unfold brow. rewrite !length_zip_with, length_map, Hcl. lia.
  - intros c v Hv.
    assert (Hzc : zrow !! c = Some false).
    { unfold zrow. rewrite !list_lookup_fmap, Hv. reflexivity. }
    destruct (paint_row_cell conv_len r S zrow c false Hzc) as (b' & Hb' & Hiff).
    fold crow in Hb'.
    assert (Hcov : b' = true <-> slice_covered row conv_len sat_count c).
    { rewrite Hiff. unfold slice_covered. split.
      - intros [H|(y & Hin & Hs)]; [discriminate|].
        apply (saturated_in_row a sat_count r y row Hrow) in Hin as (u & Hu & Hsat).
        exists y, u. rewrite <- Hz. auto.
      - intros (y & u & Hu & Hsat & Hs). right. exists y. split.
        + apply (saturated_in_row a sat_count r y row Hrow). eauto.
        + rewrite Hz. exact Hs. }
    exists (sel (flt v fzero || b') v). split.
    + unfold brow. rewrite !lookup_zip_with, list_lookup_fmap, Hv. simpl.
      rewrite Hb'. reflexivity.
    + unfold sel. destruct (flt v fzero) eqn:En; simpl.
      * left. auto.
      * destruct b'.
        -- left. split; [reflexivity|]. right. apply Hcov. reflexivity.
        -- right. split; [reflexivity|]. split; [reflexivity|].
           intros H. apply Hcov in H. discriminate.
Qed.

Lemma thar1d_fix_nrows (a : array2) (conv_len : Z) (sat_count : float) :
  nrows (thar1d_fix a conv_len sat_count) = nrows a.
Proof.
  unfold nrows, thar1d_fix. simpl.
  rewrite !length_zip_with, !length_map.
  assert (H : forall L m, length (fold_left (paint_window conv_len) L m) = length m).
  { induction L as [|[x y] L IH]; intros m; simpl; [reflexivity|].
    rewrite IH. apply length_alter. }
  rewrite H, !length_map. lia.
Qed.

(** C7, as amended: for a saturation threshold above zero, the sanitizer is
    idempotent, [fix(fix(s)) = fix(s)], for every spectrum and every
    [conv_len]. *)
Theorem thar1d_fix_idempotent (s : array2) (conv_len : Z) (sat_count : float) :
  flt fzero sat_count = true ->
  thar1d_fix (thar1d_fix s conv_len sat_count) conv_len sat_count =
  thar1d_fix s conv_len sat_count.
Proof.
  intros Hsat.
  assert (Hn := thar1d_fix_nrows s conv_len sat_count).
  assert (Hn2 := thar1d_fix_nrows (thar1d_fix s conv_len sat_count) conv_len sat_count).
  set (s1 := thar1d_fix s conv_len sat_count) in *.
  assert (Hrows : rows (thar1d_fix s1 conv_len sat_count) = rows s1).
  { apply list_eq. intros r.
    destruct (rows s !! r) as [row|] eqn:Hrow.
    - destruct (thar1d_fix_row s conv_len sat_count r row Hrow)
        as (row1 & Hrow1 & Hlen1 & Hcell1).
      fold s1 in Hrow1.
      destruct (thar1d_fix_row s1 conv_len sat_count r row1 Hrow1)
        as (row2 & Hrow2 & Hlen2 & Hcell2).
      rewrite Hrow1, Hrow2. f_equal.
      apply list_eq. intros c.
      destruct (row !! c) as [v|] eqn:Hv.
      + destruct (Hcell1 c v Hv) as (v1 & Hv1 & Hcase1).
        destruct (Hcell2 c v1 Hv1) as (v2 & Hv2 & Hcase2).
        rewrite Hv1, Hv2. f_equal.
        destruct Hcase2 as [[-> Hwhy]|[-> _]]; [|reflexivity].
        destruct Hcase1 as [[-> _]|[-> [Hneg Hnot]]]; [reflexivity|].
        exfalso. destruct Hwhy as [Hneg2|Hcov2]; [congruence|].
        destruct Hcov2 as (y & u1 & Hu1 & Hsat1 & Hs).
        assert (Hy : exists u, row !! y = Some u).
        { apply lookup_lt_is_Some. rewrite <- Hlen1.
          apply lookup_lt_Some in Hu1. exact Hu1. }
        destruct Hy as (u & Hu).
        destruct (Hcell1 y u Hu) as (u1' & Hu1' & Hcase).
        rewrite Hu1 in Hu1'. inversion Hu1'; subst u1'.
        destruct Hcase as [[-> _]|[-> _]].
        * rewrite (zero_below_positive _ Hsat) in Hsat1. discriminate.
        * apply Hnot. exists y, u. rewrite <- Hlen1. auto.
      + apply lookup_ge_None in Hv.
        rewrite (proj2 (lookup_ge_None row1 c)) by lia.
        rewrite (proj2 (lookup_ge_None row2 c)) by lia. reflexivity.
    - apply lookup_ge_None in Hrow.
      rewrite (proj2 (lookup_ge_None (rows s1) r)) by (unfold nrows in *; lia).
      rewrite (proj2 (lookup_ge_None (rows (thar1d_fix s1 conv_len sat_count)) r))
        by (unfold nrows in *; lia).
      reflexivity. }
  unfold thar1d_fix at 1. fold (thar1d_fix s1 conv_len sat_count).
  destruct (thar1d_fix s1 conv_len sat_count) as [n2 r2] eqn:E2.
  assert (Hnc : n2 = ncols s1).
  { unfold thar1d_fix in E2. inversion E2. reflexivity. }
  simpl in Hrows. subst. reflexivity.
Qed.

Lemma thar1d_fix_idempotent_witness :
  thar1d_fix (thar1d_fix (Array2 3 [[of_Z 60000; of_Z (-2); of_Z 7]]) 1 (of_Z 50000))
             1 (of_Z 50000) =
  thar1d_fix (Array2 3 [[of_Z 60000; of_Z (-2); of_Z 7]]) 1 (of_Z 50000).
Proof.
  apply (thar1d_fix_idempotent (Array2 3 [[of_Z 60000; of_Z (-2); of_Z 7]]) 1
           (of_Z 50000)).
  vm_compute. reflexivity.
Defined.

(** C7, as stated, fails: with threshold zero the zeros written by the
    first pass count as saturated in the second, and their windows reach a
    sample the first pass kept. *)
Lemma thar1d_fix_not_idempotent :
  thar1d_fix (thar1d_fix (Array2 2 [[nan; of_Z (-1)]]) 1 (of_Z 0)) 1 (of_Z 0) <>
  thar1d_fix (Array2 2 [[nan; of_Z (-1)]]) 1 (of_Z 0).
Proof. vm_compute. discriminate. Qed.

(** The same failure on a spectrum of ordinary numbers: the sample at
    pixel 0 has its own window wrapped away by the negative slice bound in
    the first pass, and is reached by the window of pixel 1 in the second. *)
Lemma thar1d_fix_not_idempotent_finite :
  thar1d_fix (Array2 4 [[of_Z 5; of_Z (-1); of_Z 0; of_Z 0]]) 1 (of_Z 0) =
    Array2 4 [[of_Z 5; fzero; fzero; fzero]] /\
  thar1d_fix (Array2 4 [[of_Z 5; fzero; fzero; fzero]]) 1 (of_Z 0) =
    Array2 4 [[fzero; fzero; fzero; fzero]].
Proof. vm_compute. split; reflexivity. Qed.

(** C6: a saturated sample at pixel [y < conv_len] of a row with at least
    [2 * conv_len] pixels is inside the window the claim describes, yet
    [thar1d_fix] returns the whole row unchanged: the slice
    [y - conv_len:y + conv_len] has a negative start, which Python counts
    from the end of the row. *)
Theorem thar1d_fix_left_edge_kept :
  let row := [of_Z 60000; of_Z 1; of_Z 1; of_Z 1] in
  window_covered row 1 (of_Z 50000) 0 /\
  thar1d_fix (Array2 4 [row]) 1 (of_Z 50000) = Array2 4 [row].
Proof.
  split.
  - exists 0%nat, (of_Z 60000). split; [reflexivity|]. split; [vm_compute; reflexivity|].
    simpl. lia.
  - vm_compute. reflexivity.
Qed.

(** Away from the left edge the painted slice is the window of the
    specification: when no saturated sample of the row sits at a pixel
    below [conv_len], a pixel of the row is inside a painted slice exactly
    when it is inside a window. *)
Lemma interior_slice_is_window (row : list float) (conv_len : Z)
    (sat_count : float) (c : nat) :
  0 <= conv_len ->
  (forall y v, row !! y = Some v -> fge v sat_count = true ->
     conv_len <= Z.of_nat y) ->
  (c < length row)%nat ->
  slice_covered row conv_len sat_count c <->
  window_covered row conv_len sat_count c.
Proof.
  intros Hc Hint Hlt. unfold slice_covered, window_covered.
  assert (Hiff : forall y : nat, conv_len <= Z.of_nat y ->
            in_pyslice (Z.of_nat y - conv_len) (Z.of_nat y + conv_len)
              (length row) c = true <->
            Z.of_nat y - conv_len <= Z.of_nat c < Z.of_nat y + conv_len).
  { intros y Hy. unfold in_pyslice, clip_index.
    destruct (Z.ltb_spec (Z.of_nat y - conv_len) 0) as [H1|H1]; [lia|].
    destruct (Z.ltb_spec (Z.of_nat y + conv_len) 0) as [H2|H2]; [lia|].
    rewrite andb_true_iff, Z.leb_le, Z.ltb_lt. lia. }
  split; intros (y & v & Hv & Hsat & Hin); exists y, v;
    (split; [exact Hv|]); (split; [exact Hsat|]);
    apply (Hiff y (Hint y v Hv Hsat)); exact Hin.
Qed.

(** X3: in a row where no saturated sample sits at a pixel below
    [conv_len], [thar1d_fix] does what the specification says: a sample
    becomes zero when it is negative or inside the window
    [y - conv_len <= c < y + conv_len] of a saturated sample [y], and is
    kept otherwise. *)
Lemma thar1d_fix_interior (a : array2) (conv_len : Z) (sat_count : float)
    (r c : nat) (row : list float) (v : float) :
  0 <= conv_len ->
  (forall y u, row !! y = Some u -> fge u sat_count = true ->
     conv_len <= Z.of_nat y) ->
  rows a !! r = Some row -> row !! c = Some v ->
  exists row' v',
    rows (thar1d_fix a conv_len sat_count) !! r = Some row' /\
    row' !! c = Some v' /\
    ((v' = fzero /\
      (flt v fzero = true \/ window_covered row conv_len sat_count c)) \/
     (v' = v /\ flt v fzero = false /\
      ~ window_covered row conv_len sat_count c)).
Proof.
  intros Hc Hint Hrow Hv.
  destruct (thar1d_fix_row a conv_len sat_count r row Hrow)
    as (row' & Hrow' & _ & Hcell).
  destruct (Hcell c v Hv) as (v' & Hv' & Hcase).
  assert (Hlt : (c < length row)%nat) by (apply lookup_lt_Some in Hv; exact Hv).
  pose proof (interior_slice_is_window row conv_len sat_count c Hc Hint Hlt) as Hiff.
  exists row', v'. split; [exact Hrow'|]. split; [exact Hv'|].
  destruct Hcase as [[-> [H|H]]|[-> [Hn H]]].
  - left. auto.
  - left. split; [reflexivity|]. right. apply Hiff. exact H.
  - right. split; [reflexivity|]. split; [exact Hn|]. rewrite <- Hiff. exact H.
Qed.

(** ** CCD arithmetic *)

(** C10: for all frames [a] and [b], [a.subtract(b)] is the elementwise
    quotient [a / b] carrying the attributes of [a], the same result as
    [a.devide(b)]; it is not the elementwise difference, as the frames
    [[6]] and [[3]] show. *)
Theorem subtract_returns_quotient :
  (forall a b : CCD,
     subtract a b = devide a b /\
     subtract a b =
       match broadcast2 fdiv (data a) (data b) with
       | Ret d => Ret (Ccd d (info a))
       | Raise e => Raise e
       end) /\
  (let a := Ccd (Array2 1 [[of_Z 6]]) class_info in
   let b := Ccd (Array2 1 [[of_Z 3]]) class_info in
   subtract a b = Ret (Ccd (Array2 1 [[of_Z 2]]) class_info) /\
   ccd_sub a b = Ret (Ccd (Array2 1 [[of_Z 3]]) class_info) /\
   subtract a b <> ccd_sub a b).
Proof.
  split.
  - intros a b. split; [reflexivity|].
    unfold subtract, ccd_truediv, copy_info.
    destruct (broadcast2 fdiv (data a) (data b)); reflexivity.
  - vm_compute. split; [reflexivity|]. split; [reflexivity|]. discriminate.
Qed.

(** ** The polynomial surface *)

(** Coefficient [k] of the flattened array meets the [k]-th index pair of
    the product, whatever the shape of the array. *)
Lemma polyval2d_flat_pairing (np_power : float -> float -> float)
    (x y : list float) (c : array2) (orders : nat * nat) :
  polyval2d np_power x y (AFloat2 c) (Some orders) =
  polyval2d np_power x y (AFloat (flatten c)) (Some orders).
Proof. reflexivity. Qed.

(** C2: with the degree pair (3, 5) the coefficient array
    [np.zeros(poly_order)] of [fit_grating_equation] has shape (3, 5), 15
    entries against the 24 index pairs of [polyval2d]; the coefficient at
    cell (1, 1) of that array multiplies [x^1 y^0] instead of [x y]; and
    no coefficient is paired with (3, 0) or (3, 1), so the terms [x^3] and
    [x^3 y], of combined degree below 5, are absent. *)
Theorem polyval2d_coefficients_misaligned :
  let x0 := np_zeros2 3 5 in
  let c := Array2 5 [[fzero; fzero; fzero; fzero; fzero];
                     [fzero; fone; fzero; fzero; fzero];
                     [fzero; fzero; fzero; fzero; fzero]] in
  array_shape (AFloat2 x0) = [3; 5]%nat /\
  length (flatten x0) = 15%nat /\
  length (ij_product 3 5) = 24%nat /\
  polyval2d power_ref [of_Z 2] [of_Z 3] (AFloat2 c) (Some (3, 5)%nat)
    = Ret [of_Z 2] /\
  polyval2d power_ref [of_Z 2] [of_Z 3] (AFloat2 c) None = Ret [of_Z 2] /\
  fmul (of_Z 2) (of_Z 3) = of_Z 6 /\
  snd <$> zip (flatten x0) (ij_product 3 5) =
    [(0, 0); (0, 1); (0, 2); (0, 3); (0, 4); (0, 5);
     (1, 0); (1, 1); (1, 2); (1, 3); (1, 4); (1, 5);
     (2, 0); (2, 1); (2, 2)]%nat.
Proof. vm_compute. repeat split; reflexivity. Qed.

(** With a coefficient array of shape [(orderx + 1, ordery + 1)] and the
    degree pair given, every coefficient meets its own index pair. *)
Lemma ij_product_lookup (orderx ordery i j : nat) :
  (i <= orderx)%nat -> (j <= ordery)%nat ->
  ij_product orderx ordery !! (i * (ordery + 1) + j)%nat = Some (i, j).
Proof.
  intros Hi Hj. unfold ij_product.
  assert (H : forall n s k,
    (k < n)%nat ->
    (seq s n ≫= fun a => (fun b => (a, b)) <$> seq 0 (ordery + 1))
      !! (k * (ordery + 1) + j)%nat = Some ((s + k)%nat, j)).
  { induction n as [|n IH]; intros s k Hk; [lia|].
    simpl. destruct k as [|k].
    - rewrite lookup_app_l by (rewrite length_fmap, length_seq; lia).
      rewrite list_lookup_fmap, lookup_seq_lt by lia. simpl.
      f_equal. f_equal. lia.
    - rewrite lookup_app_r by (rewrite length_fmap, length_seq; lia).
      rewrite length_fmap, length_seq.
      replace (S k * (ordery + 1) + j - (ordery + 1))%nat
        with (k * (ordery + 1) + j)%nat by lia.
      rewrite IH by lia. f_equal. f_equal. lia. }
  rewrite (H (orderx + 1)%nat 0%nat i) by lia. reflexivity.
Qed.

(** ** The shift estimator *)

Lemma feq_refl (a : float) : isnan a = false -> feq a a = true.
Proof.
  unfold feq, SFeqb.
  destruct a as [s|s| |s m e]; simpl; try destruct s; try reflexivity;
    try discriminate; intros _;
    rewrite Z.compare_refl, Pos.compare_cont_refl; reflexivity.
Qed.

Lemma flt_not_feq (a b : float) : flt a b = true -> feq a b = false.
Proof.
  unfold flt, feq, SFltb, SFeqb.
  destruct (SFcompare a b) as [[]|]; congruence.
Qed.

Lemma flt_asym (a b : float) : flt a b = true -> flt b a = false.
Proof.
  unfold flt, SFltb.
  destruct a as [s|s| |s m e], b as [s'|s'| |s' m' e']; simpl;
    try destruct s; try destruct s'; simpl; try congruence.
  - assert (Hm : Pos.compare_cont Eq m' m = CompOpp (Pos.compare_cont Eq m m'))
      by (rewrite (Pos.compare_cont_antisym m m' Eq); reflexivity).
    rewrite (Z.compare_antisym e e'), Hm.
    destruct (e ?= e'); simpl; try congruence.
    destruct (Pos.compare_cont Eq m m'); simpl; congruence.
  - assert (Hm : Pos.compare_cont Eq m' m = CompOpp (Pos.compare_cont Eq m m'))
      by (rewrite (Pos.compare_cont_antisym m m' Eq); reflexivity).
    rewrite (Z.compare_antisym e e'), Hm.
    destruct (e ?= e'); simpl; try congruence.
    destruct (Pos.compare_cont Eq m m'); simpl; congruence.
Qed.

Lemma flt_nan_l (a : float) : isnan a = true -> forall b, flt a b = false.
Proof. destruct a; try discriminate. reflexivity. Qed.

Lemma feq_nan_r (a b : float) : isnan b = true -> feq a b = false.
Proof. destruct b; try discriminate. destruct a; reflexivity. Qed.

Lemma flatten_lookup (c : array2) (i j : nat) (row : list float) :
  rectangular c -> rows c !! i = Some row -> (j < ncols c)%nat ->
  flatten c !! (i * ncols c + j)%nat = row !! j.
Proof.
  destruct c as [m rs]. unfold rectangular, flatten. simpl.
  revert i. induction rs as [|r0 rs IH]; intros i Hrect Hi Hj; [inversion Hi|].
  apply Forall_cons in Hrect as [Hr0 Hrect]. simpl.
  destruct i as [|i]; simpl in *.
  - inversion Hi; subst. apply lookup_app_l. lia.
  - rewrite lookup_app_r by lia.
    replace (m + i * m + j - length r0)%nat with (i * m + j)%nat by lia.
    apply IH; assumption.
Qed.

(** With a coefficient array of shape [(orderx + 1, ordery + 1)] and the
    degree pair given, [polyval2d] pairs the coefficient at cell (i, j)
    with the index pair (i, j). *)
Lemma polyval2d_pairs_full_array (c : array2) (orderx ordery i j : nat)
    (row : list float) (a : float) :
  rectangular c -> ncols c = (ordery + 1)%nat ->
  (i <= orderx)%nat -> rows c !! i = Some row -> row !! j = Some a ->
  zip (flatten c) (ij_product orderx ordery) !! (i * (ordery + 1) + j)%nat
    = Some (a, (i, j)).
Proof.
  intros Hrect Hn Hi Hrow Ha.
  assert (Hj : (j < ncols c)%nat).
  { unfold rectangular in Hrect. rewrite Forall_lookup in Hrect.
    rewrite <- (Hrect i row Hrow). apply lookup_lt_Some in Ha. exact Ha. }
  rewrite lookup_zip_with.
  rewrite <- Hn at 1. rewrite (flatten_lookup c i j row Hrect Hrow Hj), Ha.
  simpl. rewrite ij_product_lookup by lia. reflexivity.
Qed.

Lemma fmax_nan_l (a b : float) : isnan a = true -> fmax a b = a.
Proof. unfold fmax. intros ->. reflexivity. Qed.

Lemma fmax_nan_r (a b : float) :
  isnan a = false -> isnan b = true -> fmax a b = b.
Proof. unfold fmax. intros -> ->. reflexivity. Qed.

Lemma fmax_lt (a b : float) :
  isnan a = false -> isnan b = false -> flt a b = true -> fmax a b = b.
Proof. unfold fmax. intros -> -> ->. reflexivity. Qed.

Lemma fmax_ge (a b : float) :
  isnan a = false -> isnan b = false -> flt a b = false -> fmax a b = a.
Proof. unfold fmax. intros -> -> ->. reflexivity. Qed.

(** The cells of a five-cell row [v v' v v' v] that hold its maximum are
    never exactly one. *)
Lemma alternating_row_ties (v v' : float) :
  exists cells,
    where_max [[v; v'; v; v'; v]] = Ret cells /\ length cells <> 1%nat.
Proof.
  set (mx := fmax (fmax (fmax (fmax v v') v) v') v).
  assert (Hw : where_max [[v; v'; v; v'; v]] =
               Ret (where2 [[feq v mx; feq v' mx; feq v mx; feq v' mx; feq v mx]]))
    by reflexivity.
  rewrite Hw. clear Hw.
  destruct (isnan v) eqn:Nv.
  - assert (Hmx : mx = v) by (unfold mx; rewrite !(fmax_nan_l v) by exact Nv; reflexivity).
    rewrite Hmx, !(feq_nan_r _ v Nv).
    exists []. split; [reflexivity|discriminate].
  - destruct (isnan v') eqn:Nv'.
    + assert (Hmx : mx = v').
      { unfold mx. rewrite (fmax_nan_r v v' Nv Nv').
        rewrite !(fmax_nan_l v') by exact Nv'. reflexivity. }
      rewrite Hmx, !(feq_nan_r _ v' Nv').
      exists []. split; [reflexivity|discriminate].
    + destruct (flt v v') eqn:L.
      * assert (Hmx : mx = v').
        { unfold mx. rewrite (fmax_lt v v' Nv Nv' L).
          rewrite (fmax_ge v' v Nv' Nv (flt_asym _ _ L)).
          rewrite (fmax_ge v' v' Nv' Nv' (flt_irrefl v')).
          apply (fmax_ge v' v Nv' Nv (flt_asym _ _ L)). }
        rewrite Hmx, (flt_not_feq _ _ L), (feq_refl _ Nv').
        exists [(0, 1); (0, 3)]%nat. split; [reflexivity|discriminate].
      * assert (Hmx : mx = v).
        { unfold mx. rewrite (fmax_ge v v' Nv Nv' L).
          rewrite (fmax_ge v v Nv Nv (flt_irrefl v)).
          rewrite (fmax_ge v v' Nv Nv' L).
          apply (fmax_ge v v Nv Nv (flt_irrefl v)). }
        rewrite Hmx, (feq_refl _ Nv).
        destruct (feq v' v).
        -- exists [(0, 0); (0, 1); (0, 2); (0, 3); (0, 4)]%nat.
           split; [reflexivity|discriminate].
        -- exists [(0, 0); (0, 2); (0, 4)]%nat.
           split; [reflexivity|discriminate].
Qed.

(** C4: on a spectrum whose rows repeat the pattern [1 0], correlated with
    itself with [x_shiftmax = 2] and [y_shiftmax = 0], the surface is
    [0.5 0 0.5 0 0.5]: three cells hold the maximum, the first of them in
    row-major order being cell (0, 0), that is the shift (2, 0).
    [thar1d_corr2d] returns no shift: [np.where] yields the three cells and
    the conversion of a three-element array to an integer raises
    TypeError, whatever summation order [np.mean] uses. *)
Theorem thar1d_corr2d_tie_raises :
  let row := [of_Z 1; of_Z 0; of_Z 1; of_Z 0; of_Z 1;
              of_Z 0; of_Z 1; of_Z 0; of_Z 1; of_Z 0] in
  let thar := Array2 10 [row; row; row; row; row] in
  fill_corr2d mean_naive thar thar (trim_region 10) (trim_region 5) 2 0
      [[fzero; fzero; fzero; fzero; fzero]]
    = Ret [[f0_5; fzero; f0_5; fzero; f0_5]] /\
  where_max [[f0_5; fzero; f0_5; fzero; f0_5]]
    = Ret [(0, 0); (0, 2); (0, 4)]%nat /\
  forall np_mean : list float -> float,
    thar1d_corr2d np_mean thar thar 2 0 = Raise TypeError.
Proof.
  intros row thar. split; [vm_compute; reflexivity|].
  split; [vm_compute; reflexivity|].
  intros np_mean.
  assert (H : exists v v',
    fill_corr2d np_mean thar thar (trim_region (ncols thar))
      (trim_region (nrows thar)) 2 0
      (replicate (Z.to_nat (1 + 2 * 0)) (replicate (Z.to_nat (1 + 2 * 2)) fzero))
    = Ret [[v; v'; v; v'; v]]).
  { eexists. eexists. cbv. reflexivity. }
  destruct H as (v & v' & H).
  unfold thar1d_corr2d.
  replace ((1 + 2 * 0 <? 0) || (1 + 2 * 2 <? 0)) with false by reflexivity.
  rewrite H.
  destruct (alternating_row_ties v v') as (cells & -> & Hlen).
  destruct cells as [|c1 [|c2 cells]]; simpl; try reflexivity.
  contradiction Hlen. reflexivity.
Qed.

(** When exactly one cell holds the maximum, its offsets are returned. *)
Lemma thar1d_corr2d_unique_max (np_mean : list float -> float)
    (thar1d_fixed thar_temp : array2) (x_shiftmax y_shiftmax : Z)
    (corr2d : list (list float)) (r c : nat) :
  0 <= x_shiftmax -> 0 <= y_shiftmax ->
  fill_corr2d np_mean thar1d_fixed thar_temp
    (trim_region (ncols thar1d_fixed)) (trim_region (nrows thar1d_fixed))
    x_shiftmax y_shiftmax
    (replicate (Z.to_nat (1 + 2 * y_shiftmax))
       (replicate (Z.to_nat (1 + 2 * x_shiftmax)) fzero)) = Ret corr2d ->
  where_max corr2d = Ret [(r, c)] ->
  thar1d_corr2d np_mean thar1d_fixed thar_temp x_shiftmax y_shiftmax =
    Ret ((x_shiftmax - Z.of_nat c, y_shiftmax - Z.of_nat r), corr2d).
Proof.
  intros Hx Hy Hfill Hmax. unfold thar1d_corr2d.
  replace ((1 + 2 * y_shiftmax <? 0) || (1 + 2 * x_shiftmax <? 0)) with false.
  - rewrite Hfill, Hmax. reflexivity.
  - symmetry. apply orb_false_intro; apply Z.ltb_ge; lia.
Qed.

(** ** Monadic traversal *)

Lemma mapM_Ret {A B} (f : A -> outcome B) (g : A -> B) (l : list A) :
  (forall a, a ∈ l -> f a = Ret (g a)) -> mapM f l = Ret (map g l).
Proof.
  induction l as [|a l IH]; intros H; simpl; [reflexivity|].
  rewrite (H a) by left. rewrite IH; [reflexivity|].
  intros b Hb. apply H. right. exact Hb.
Qed.


Lemma mapM_lookup {A B} (f : A -> outcome B) (l : list A) (bs : list B) :
  mapM f l = Ret bs ->
  length bs = length l /\
  forall i a, l !! i = Some a -> exists b, bs !! i = Some b /\ f a = Ret b.
Proof.
  revert bs. induction l as [|a l IH]; intros bs H; simpl in H.
  - inversion H; subst. split; [reflexivity|]. intros i a Hi. inversion Hi.
  - destruct (f a) as [b|e] eqn:Hf; [|discriminate].
    destruct (mapM f l) as [bs'|e] eqn:Hm; [|discriminate].
    inversion H; subst. destruct (IH bs' eq_refl) as (Hlen & Hl).
    split; [simpl; lia|]. intros [|i] a' Hi; simpl in Hi.
    + inversion Hi; subst. exists b. split; [reflexivity|exact Hf].
    + apply Hl. exact Hi.
Qed.

(** ** Refining the positions of one order *)

Section RefineOrder.
Variable tck : Type.
Variable splrep : list float -> list float -> Z -> option float -> tck.
Variable splev : list float -> tck -> list float.
Variable np_exp : float -> float.
Variable np_power : float -> float -> float.
Variable curve_fit :
  (list float -> float -> float -> float -> float -> list float) ->
  list float -> list float -> list float -> list float * list float ->
  option (list float * list (list float)).


End RefineOrder.



(** ** Remapping the wavelength solution *)


Lemma length_arange (n : nat) : length (arange (Z.of_nat n)) = n.
Proof.
  unfold arange, zrange. rewrite length_map, length_seq. lia.
Qed.



Section Remap.
Variable tck : Type.
Variable splrep : list float -> list float -> Z -> option float -> tck.
Variable splev : list float -> tck -> list float.

(** The tolerance within which the spline reproduces its data. *)
Variable approx : float -> float -> Prop.

(** [splev] returns one value for every evaluation point. *)
Hypothesis splev_length :
  forall (x : list float) (t : tck), length (splev x t) = length x.

(** A cubic spline with zero smoothing through the points
    [(0, y_0), ..., (n-1, y_(n-1))], evaluated at its knots, gives the
    data back within the tolerance. *)
Hypothesis spline_at_knots :
  forall (y : list float),
    Forall2 approx
      (splev (grid (length y)) (splrep (grid (length y)) y 3 (Some fzero))) y.

End Remap.



(** ** The caller's arrays *)

Section Frame.
Context {A B : Type}.
Variable P : gset positive.

Lemma preserves_ret (a : A) : preserves P (ret a).
Proof. intros st r st' HP H. inversion H; subst. auto. Qed.

Lemma preserves_raise (e : exn) : preserves P (raise (A := A) e).
Proof. intros st r st' HP H. inversion H; subst. auto. Qed.

Lemma preserves_lift (o : outcome A) : preserves P (lift o).
Proof. intros st r st' HP H. inversion H; subst. auto. Qed.

Lemma preserves_bind (m : M A) (k : A -> M B) :
  preserves P m -> (forall a, preserves P (k a)) -> preserves P (bind m k).
Proof.
  intros Hm Hk st r st' HP H. unfold bind in H.
  destruct (m st) as [[a|e] st1] eqn:E.
  - destruct (Hm _ _ _ HP E) as [HP1 Hl1].
    destruct (Hk a _ _ _ HP1 H) as [HP2 Hl2].
    split; [exact HP2|]. intros l Hl. rewrite Hl2, Hl1; auto.
  - inversion H; subst. exact (Hm _ _ _ HP E).
Qed.

(** A new object is none of the protected ones. *)
Lemma preserves_alloc_bind (a : array) (k : positive -> M B) :
  (forall l, l ∉ P -> preserves P (k l)) -> preserves P (bind (alloc a) k).
Proof.
  intros Hk st r st' HP H. unfold bind, alloc in H.
  set (l := fresh (dom (heap st))) in *.
  assert (Hl : l ∉ P).
  { intros Hin. apply (is_fresh (dom (heap st))). apply HP. exact Hin. }
  assert (HP1 : P ⊆ dom (heap (State (<[l:=a]> (heap st)) (trace st)))).
  { simpl. rewrite dom_insert_L. set_solver. }
  destruct (Hk l Hl _ _ _ HP1 H) as [HP2 Hl2].
  split; [exact HP2|]. intros l' Hl'. rewrite Hl2 by exact Hl'. simpl.
  apply lookup_insert_ne. intros ->. contradiction.
Qed.
End Frame.

Lemma preserves_load (P : gset positive) (l : positive) : preserves P (load l).
Proof.
  intros st r st' HP H. unfold load in H.
  destruct (heap st !! l); inversion H; subst; auto.
Qed.

Lemma preserves_emit (P : gset positive) (e : event) : preserves P (emit e).
Proof. intros st r st' HP H. inversion H; subst. simpl. auto. Qed.

Lemma preserves_store (P : gset positive) (l : positive) (a : array) :
  l ∉ P -> preserves P (store l a).
Proof.
  intros Hl st r st' HP H. inversion H; subst. simpl. split.
  - rewrite dom_insert_L. set_solver.
  - intros l' Hl'. apply lookup_insert_ne. intros ->. contradiction.
Qed.

Ltac preserves_step :=
  lazymatch goal with
  | |- preserves _ (bind (alloc _) _) =>
      apply preserves_alloc_bind; intros ? ?
  | |- preserves _ (bind _ _) => apply preserves_bind; [|intros ?]
  | |- preserves _ (ret _) => apply preserves_ret
  | |- preserves _ (raise _) => apply preserves_raise
  | |- preserves _ (lift _) => apply preserves_lift
  | |- preserves _ (load _) => apply preserves_load
  | |- preserves _ (emit _) => apply preserves_emit
  | |- preserves _ (store _ _) => apply preserves_store; assumption
  | |- preserves _ (match ?x with _ => _ end) => destruct x
  end.

Lemma preserves_load_float (P : gset positive) (l : positive) :
  preserves P (load_float l).
Proof. unfold load_float. repeat preserves_step. Qed.

Lemma preserves_load_bool (P : gset positive) (l : positive) :
  preserves P (load_bool l).
Proof. unfold load_bool. repeat preserves_step. Qed.

Lemma preserves_load_float2 (P : gset positive) (l : positive) :
  preserves P (load_float2 l).
Proof. unfold load_float2. repeat preserves_step. Qed.

Lemma preserves_store_at_bool (P : gset positive) (l : positive) (i : nat)
    (v : bool) :
  l ∉ P -> preserves P (store_at_bool l i v).
Proof.
  intros Hl. unfold store_at_bool.
  apply preserves_bind; [apply preserves_load_bool|intros a].
  repeat preserves_step.
Qed.

Lemma preserves_store_at_float (P : gset positive) (l : positive) (i : nat)
    (v : float) :
  l ∉ P -> preserves P (store_at_float l i v).
Proof.
  intros Hl. unfold store_at_float.
  apply preserves_bind; [apply preserves_load_float|intros a].
  repeat preserves_step.
Qed.

Ltac preserves_auto :=
  repeat first
    [ apply preserves_load_float
    | apply preserves_load_bool
    | apply preserves_load_float2
    | apply preserves_store_at_bool; assumption
    | apply preserves_store_at_float; assumption
    | preserves_step ].

Section FitFrame.
Variable np_power : float -> float -> float.
Variable np_nanmean np_nanstd np_nanmedian : list float -> float.
Variable np_unique : list float -> list float * list nat.
Variable leastsq :
  (list float -> list float) -> list float -> outcome (list float).
Variable P : gset positive.

Lemma preserves_call_leastsq (l : loss) (poly_order : nat * nat)
    (lv : locals) (x0 : list float) :
  preserves P (call_leastsq np_power leastsq l poly_order lv x0).
Proof. unfold call_leastsq. preserves_auto. Qed.

Lemma preserves_iteration (poly_order : nat * nat) (thr : float)
    (lar : bool) (nl : Z) (lv : locals) (x0 : list float) :
  l_weight lv ∉ P -> l_ml_s lv ∉ P -> l_lc_thar lv ∉ P ->
  preserves P (iteration np_power np_nanmedian np_unique leastsq
                 poly_order thr lar nl lv x0).
Proof.
  intros Hw Hm Ht. unfold iteration.
  apply preserves_bind; [apply preserves_call_leastsq|intros x].
  preserves_auto.
Qed.

Lemma preserves_rejection_loop (more : nat) (poly_order : nat * nat)
    (thr : float) (lar : bool) (nl : Z) (lv : locals) (x0 : list float) :
  l_weight lv ∉ P -> l_ml_s lv ∉ P -> l_lc_thar lv ∉ P ->
  preserves P (rejection_loop np_power np_nanmedian np_unique leastsq
                 more poly_order thr lar nl lv x0).
Proof.
  intros Hw Hm Ht. induction more as [|more IH]; simpl.
  - apply preserves_bind; [apply preserves_iteration; assumption|intros r].
    destruct (ind_max_dev r); apply preserves_ret.
  - apply preserves_bind; [apply preserves_iteration; assumption|intros r].
    destruct (ind_max_dev r); [exact IH|apply preserves_ret].
Qed.

Lemma preserves_bulk_rejection (poly_order : nat * nat) (thr : float)
    (lar : bool) (lv : locals) (x0 : list float) :
  l_weight lv ∉ P -> l_ml_s lv ∉ P -> l_lc_thar lv ∉ P ->
  preserves P (bulk_rejection np_power np_nanmedian leastsq
                 poly_order thr lar lv x0).
Proof.
  intros Hw Hm Ht. unfold bulk_rejection.
  apply preserves_bind; [apply preserves_call_leastsq|intros x].
  repeat first [ apply preserves_call_leastsq | preserves_auto ].
Qed.

Lemma preserves_fit_grating_equation
    (lc_coord lc_order lc_thar popt pcov : positive)
    (ind_good_thar0 : option positive) (poly_order : nat * nat)
    (thr : float) (n_iter : Z) (lar : bool) (nl : Z) :
  preserves P (fit_grating_equation np_power np_nanmean np_nanstd np_nanmedian
                 np_unique leastsq lc_coord lc_order lc_thar popt pcov
                 ind_good_thar0 poly_order thr n_iter lar nl).
Proof.
  unfold fit_grating_equation.
  repeat first
    [ apply preserves_call_leastsq
    | apply preserves_rejection_loop; simpl; assumption
    | apply preserves_bulk_rejection; simpl; assumption
    | preserves_auto ].
Qed.
End FitFrame.

(** C9: whatever [fit_grating_equation] returns or raises, every array
    object that exists when it is called, the caller's [lc_coord],
    [lc_order], [lc_thar], [popt], [pcov] among them, holds afterwards
    what it held before: the weight zeroing and the NaN writes of the
    rejection go to the arrays the function made itself. *)
Theorem fit_grating_equation_keeps_arguments
    (np_power : float -> float -> float)
    (np_nanmean np_nanstd np_nanmedian : list float -> float)
    (np_unique : list float -> list float * list nat)
    (leastsq : (list float -> list float) -> list float -> outcome (list float))
    (lc_coord lc_order lc_thar popt pcov : positive)
    (ind_good_thar0 : option positive) (poly_order : nat * nat)
    (max_dev_threshold : float) (n_iter : Z) (lar : bool) (nl_eachorder : Z)
    (st : state) :
  let '(r, st') :=
    fit_grating_equation np_power np_nanmean np_nanstd np_nanmedian np_unique
      leastsq lc_coord lc_order lc_thar popt pcov ind_good_thar0 poly_order
      max_dev_threshold n_iter lar nl_eachorder st in
  forall (l : positive) (a : array),
    heap st !! l = Some a -> heap st' !! l = Some a.
Proof.
  destruct (fit_grating_equation _ _ _ _ _ _ _ _ _ _ _ _ _ _ _ _ _ st)
    as [r st'] eqn:E.
  intros l a Hl.
  destruct (preserves_fit_grating_equation np_power np_nanmean np_nanstd
              np_nanmedian np_unique leastsq (dom (heap st)) _ _ _ _ _ _ _ _ _ _ _
              st r st' (reflexivity _) E) as [_ H].
  rewrite H; [exact Hl|]. apply elem_of_dom. eauto.
Qed.

(** ** The rejection loop *)

(** *** Signs of float64 values *)

(** A product with a boolean mask is positive only where the mask holds. *)
Lemma masked_product_positive (d : float) (b1 b2 : bool) :
  fgt (fmul (fmul d (of_bool b1)) (of_bool b2)) fzero = true ->
  b1 = true /\ b2 = true.
Proof.
  destruct b2.
  - destruct b1; [auto|].
    destruct d as [s|s| |s m e]; try destruct s; vm_compute; discriminate.
  - intros H. exfalso. revert H.
    destruct (fmul d (of_bool b1)) as [s|s| |s m e]; try destruct s;
      vm_compute; discriminate.
Qed.

Lemma positive_below (a b : float) :
  fgt a fzero = true -> flt a b = true -> fgt b fzero = true.
Proof.
  unfold fgt, flt, SFltb, fzero.
  destruct a as [s|s| |s m e], b as [s'|s'| |s' m' e']; simpl;
    try destruct s; try destruct s'; simpl; congruence.
Qed.

Lemma positive_not_above (a b : float) :
  isnan a = false -> flt a b = false -> fgt b fzero = true ->
  fgt a fzero = true.
Proof.
  unfold fgt, flt, SFltb, fzero.
  destruct a as [s|s| |s m e], b as [s'|s'| |s' m' e']; simpl;
    try destruct s; try destruct s'; simpl; congruence.
Qed.

Lemma positive_not_nan (a : float) : fgt a fzero = true -> isnan a = false.
Proof. destruct a; simpl; [reflexivity..|discriminate|reflexivity]. Qed.

(** Entries [np.unique] identifies are equal to the same values. *)
Lemma feq_same_value (u o v : float) :
  same_value u o = true -> feq v u = feq v o.
Proof.
  unfold same_value, feq, SFeqb. intros H.
  destruct u as [s|s| |s m e], o as [s'|s'| |s' m' e'];
    try (destruct v; reflexivity);
    simpl in H; try discriminate;
    try (destruct s, s'; simpl in H; try discriminate;
         destruct v as [t|t| |t n d]; try destruct t; reflexivity).
  destruct s, s'; simpl in H; try discriminate.
  - destruct (e ?= e') eqn:Ee; simpl in H; try discriminate.
    apply Z.compare_eq in Ee. subst e'.
    destruct (Pos.compare_cont Eq m m') eqn:Em; simpl in H; try discriminate.
    apply Pos.compare_eq in Em. subst m'. reflexivity.
  - destruct (e ?= e') eqn:Ee; simpl in H; try discriminate.
    apply Z.compare_eq in Ee. subst e'.
    destruct (Pos.compare_cont Eq m m') eqn:Em; simpl in H; try discriminate.
    apply Pos.compare_eq in Em. subst m'. reflexivity.
Qed.

Lemma same_value_refl (a : float) : same_value a a = true.
Proof.
  unfold same_value. destruct (isnan a) eqn:N.
  - rewrite orb_true_r. reflexivity.
  - rewrite (feq_refl a N). reflexivity.
Qed.

(** *** [np.nanargmax] *)

Lemma argmax_from_positive (full : list float) :
  forall (l : list float) (best : nat) (bv : float) (k : nat),
    full !! best = Some bv ->
    (forall j v, l !! j = Some v -> full !! (k + j)%nat = Some v) ->
    isnan bv = false -> (forall v, v ∈ l -> isnan v = false) ->
    exists p, full !! argmax_from best bv k l = Some p /\
      (fgt bv fzero = true -> fgt p fzero = true) /\
      (forall v, v ∈ l -> fgt v fzero = true -> fgt p fzero = true).
Proof.
  induction l as [|v t IH]; intros best bv k Hb Hl Nb Nl; simpl.
  - exists bv. split; [exact Hb|]. split; [auto|]. intros v Hv. inversion Hv.
  - assert (Nv : isnan v = false) by (apply Nl; left).
    assert (Hk : full !! k = Some v).
    { specialize (Hl 0%nat v eq_refl). rewrite Nat.add_0_r in Hl. exact Hl. }
    assert (Ht : forall j u, t !! j = Some u -> full !! (S k + j)%nat = Some u).
    { intros j u Hj. specialize (Hl (S j) u Hj).
      replace (S k + j)%nat with (k + S j)%nat by lia. exact Hl. }
    assert (Nt : forall u, u ∈ t -> isnan u = false)
      by (intros u Hu; apply Nl; right; exact Hu).
    destruct (flt bv v) eqn:L.
    + destruct (IH k v (S k) Hk Ht Nv Nt) as (p & Hp & Hv & Hrest).
      exists p. split; [exact Hp|]. split.
      * intros Hpos. apply Hv. exact (positive_below _ _ Hpos L).
      * intros u Hu Hpos. apply elem_of_cons in Hu as [->|Hu]; [auto|].
        exact (Hrest u Hu Hpos).
    + destruct (IH best bv (S k) Hb Ht Nb Nt) as (p & Hp & Hbv & Hrest).
      exists p. split; [exact Hp|]. split; [exact Hbv|].
      intros u Hu Hpos. apply elem_of_cons in Hu as [->|Hu].
      * apply Hbv. exact (positive_not_above _ _ Nb L Hpos).
      * exact (Hrest u Hu Hpos).
Qed.

(** Among entries of which one is positive, [nanargmax] picks a positive
    one. *)
Lemma nanargmax_positive (a : list float) (i : nat) :
  existsb (fun p => fgt p fzero) a = true ->
  nanargmax a = Ret i ->
  exists p, a !! i = Some p /\ fgt p fzero = true.
Proof.
  intros Hex Hi. unfold nanargmax in Hi.
  destruct (forallb isnan a); [discriminate|].
  set (clean := fun v : float => if isnan v then S754_infinity true else v) in *.
  assert (Hclean : forall v, isnan (clean v) = false).
  { intros v. unfold clean. destruct (isnan v) eqn:N; [reflexivity|exact N]. }
  assert (Hkeep : forall v, fgt v fzero = true -> clean v = v).
  { intros v Hv. unfold clean. rewrite (positive_not_nan v Hv). reflexivity. }
  assert (Hback : forall v, fgt (clean v) fzero = true -> clean v = v).
  { intros v. unfold clean. destruct (isnan v); [discriminate|reflexivity]. }
  apply existsb_exists in Hex as (q & Hq & Hqpos).
  apply list_elem_of_In in Hq.
  destruct a as [|v t]; [inversion Hq|].
  simpl in Hi. inversion Hi as [Hi']. clear Hi.
  assert (H1 : forall j u, map clean t !! j = Some u ->
                 map clean (v :: t) !! (1 + j)%nat = Some u)
    by (intros j u Hj; exact Hj).
  assert (H2 : forall u, u ∈ map clean t -> isnan u = false).
  { intros u Hu. apply list_elem_of_fmap in Hu as (u' & -> & _). apply Hclean. }
  destruct (argmax_from_positive (map clean (v :: t)) (map clean t) 0%nat
              (clean v) 1%nat eq_refl H1 (Hclean v) H2) as (p & Hp & Hv & Hrest).
  assert (Hpos : fgt p fzero = true).
  { apply elem_of_cons in Hq as [->|Hq].
    - apply Hv. rewrite (Hkeep _ Hqpos). exact Hqpos.
    - apply (Hrest (clean q)).
      + apply list_elem_of_fmap. exists q. auto.
      + rewrite (Hkeep _ Hqpos). exact Hqpos. }
  rewrite Hi' in Hp. rewrite list_lookup_fmap in Hp.
  destruct ((v :: t) !! i) as [u|] eqn:Hu; [|discriminate].
  simpl in Hp. inversion Hp; subst p.
  exists u. rewrite (Hback u Hpos) in Hpos. rewrite Hi'. auto.
Qed.

(** *** Counting the lines of an order *)

Lemma count_true_cons (b : bool) (l : list bool) :
  count_true (b :: l) = (if b then 1 else 0) + count_true l.
Proof.
  unfold count_true. rewrite filter_cons.
  destruct b; destruct (decide _); try congruence; simpl length; lia.
Qed.

Lemma count_selected (weight : list bool) (lc_order_s : list float) (o : float) :
  count_true ((filter (fun p => snd p = true)
                 (zip weight (map (fun v => feq v o) lc_order_s))).*1) =
  count_true (zip_with (fun v (b : bool) => feq v o && b) lc_order_s weight).
Proof.
  revert weight. induction lc_order_s as [|v t IH]; intros [|b w];
    try reflexivity.
  cbn [map zip_with]. rewrite count_true_cons, filter_cons. cbn [snd].
  destruct (feq v o); cbn [andb].
  - rewrite decide_True by reflexivity.
    rewrite fmap_cons, count_true_cons, IH. reflexivity.
  - rewrite decide_False by discriminate. rewrite IH. reflexivity.
Qed.

Lemma order_left_retained (weight : list bool) (lc_order_s : list float)
    (o : float) (k : Z) :
  order_left weight lc_order_s o = Ret k ->
  length weight = length lc_order_s /\
  k = retained_in_order lc_order_s weight o.
Proof.
  unfold order_left, mask_index, retained_in_order.
  rewrite length_map.
  destruct (Nat.eqb_spec (length weight) (length lc_order_s)) as [Hlen|];
    [|discriminate].
  intros H. injection H as <-. split; [exact Hlen|]. apply count_selected.
Qed.

Lemma retained_same_value (lc_order_s : list float) (weight : list bool)
    (u o : float) :
  same_value u o = true ->
  retained_in_order lc_order_s weight u = retained_in_order lc_order_s weight o.
Proof.
  intros H. unfold retained_in_order. f_equal.
  revert weight. induction lc_order_s as [|v t IH]; intros [|b w]; simpl;
    try reflexivity.
  rewrite (feq_same_value u o v H), IH. reflexivity.
Qed.

(** Zeroing the weight of line [i] takes at most one line from the order
    of line [i] and none from any other order. *)
Lemma retained_after_reject (lc_order_s : list float) (weight : list bool)
    (i : nat) (o o' : float) :
  lc_order_s !! i = Some o ->
  retained_in_order lc_order_s (<[i := false]> weight) o' =
    retained_in_order lc_order_s weight o' \/
  (feq o o' = true /\
   retained_in_order lc_order_s (<[i := false]> weight) o' =
     retained_in_order lc_order_s weight o' - 1).
Proof.
  unfold retained_in_order. revert weight i.
  induction lc_order_s as [|v t IH]; intros weight i Hi; [inversion Hi|].
  destruct weight as [|b w]; [left; destruct i; reflexivity|].
  destruct i as [|i]; simpl in *.
  - inversion Hi; subst v. rewrite !count_true_cons.
    destruct (feq o o') eqn:E; destruct b; simpl; auto.
    right. split; [reflexivity|]. lia.
  - rewrite !count_true_cons.
    destruct (IH w i Hi) as [H|[E H]]; rewrite H; [left; reflexivity|].
    right. split; [exact E|]. lia.
Qed.

(** *** Running the store monad *)

Lemma bind_inv {A B} (m : M A) (k : A -> M B) (st : state) (r : outcome B)
    (st' : state) :
  bind m k st = (r, st') ->
  (exists a st1, m st = (Ret a, st1) /\ k a st1 = (r, st')) \/
  (exists e, m st = (Raise e, st') /\ r = Raise e).
Proof.
  unfold bind. destruct (m st) as [[a|e] st1].
  - intros H. left. eauto.
  - intros H. inversion H; subst. right. eauto.
Qed.

Lemma load_inv (l : positive) (st : state) (r : outcome array) (st' : state) :
  load l st = (r, st') ->
  st' = st /\ forall a, r = Ret a -> heap st !! l = Some a.
Proof.
  unfold load. destruct (heap st !! l) as [a|]; intros H; inversion H; subst.
  - split; [reflexivity|]. intros a' Ha. inversion Ha; subst. reflexivity.
  - split; [reflexivity|]. intros a' Ha. discriminate.
Qed.

Lemma load_float_inv (l : positive) (st : state) (r : outcome (list float))
    (st' : state) :
  load_float l st = (r, st') ->
  st' = st /\ forall d, r = Ret d -> heap st !! l = Some (AFloat d).
Proof.
  unfold load_float. intros H.
  apply bind_inv in H as [(a & st1 & E & H)|(e & E & ->)].
  - apply load_inv in E as [-> Ha]. specialize (Ha a eq_refl).
    destruct a; inversion H; subst; (split; [reflexivity|]);
      intros d' Hd; inversion Hd; subst; exact Ha.
  - apply load_inv in E as [-> _]. split; [reflexivity|]. intros; discriminate.
Qed.

Lemma load_bool_inv (l : positive) (st : state) (r : outcome (list bool))
    (st' : state) :
  load_bool l st = (r, st') ->
  st' = st /\ forall d, r = Ret d -> heap st !! l = Some (ABool d).
Proof.
  unfold load_bool. intros H.
  apply bind_inv in H as [(a & st1 & E & H)|(e & E & ->)].
  - apply load_inv in E as [-> Ha]. specialize (Ha a eq_refl).
    destruct a; inversion H; subst; (split; [reflexivity|]);
      intros d' Hd; inversion Hd; subst; exact Ha.
  - apply load_inv in E as [-> _]. split; [reflexivity|]. intros; discriminate.
Qed.

Lemma lift_inv {A} (o : outcome A) (st : state) (r : outcome A) (st' : state) :
  lift o st = (r, st') -> st' = st /\ r = o.
Proof. intros H. inversion H; auto. Qed.

Lemma emit_inv (e : event) (st : state) (r : outcome unit) (st' : state) :
  emit e st = (r, st') -> heap st' = heap st.
Proof. intros H. inversion H; reflexivity. Qed.

(** A write through [l] changes the object at [l] only, and only into an
    array of the same kind. *)
Lemma store_at_float_other (l : positive) (i : nat) (v : float) (st : state)
    (r : outcome unit) (st' : state) (lw : positive) (w : list bool) :
  store_at_float l i v st = (r, st') ->
  heap st !! lw = Some (ABool w) -> heap st' !! lw = Some (ABool w).
Proof.
  unfold store_at_float. intros H Hw.
  apply bind_inv in H as [(a & st1 & E & H)|(e & E & ->)].
  - apply load_float_inv in E as [-> Ha]. specialize (Ha a eq_refl).
    destruct (i <? length a)%nat; inversion H; subst; simpl; [|exact Hw].
    rewrite lookup_insert_ne; [exact Hw|]. intros ->. congruence.
  - apply load_float_inv in E as [-> _]. exact Hw.
Qed.

Lemma store_at_bool_inv (l : positive) (i : nat) (v : bool) (st : state)
    (r : outcome unit) (st' : state) (w : list bool) :
  store_at_bool l i v st = (r, st') ->
  heap st !! l = Some (ABool w) ->
  (r = Ret tt /\ (i < length w)%nat /\
   heap st' !! l = Some (ABool (<[i := v]> w))) \/
  ((exists e, r = Raise e) /\ st' = st).
Proof.
  unfold store_at_bool. intros H Hw.
  apply bind_inv in H as [(a & st1 & E & H)|(e & E & ->)].
  - apply load_bool_inv in E as [-> Ha]. specialize (Ha a eq_refl).
    assert (a = w) by congruence. subst a.
    destruct (Nat.ltb_spec i (length w)); inversion H; subst.
    + left. split; [reflexivity|]. split; [assumption|]. simpl.
      apply lookup_insert_eq.
    + right. eauto.
  - apply load_bool_inv in E as [-> _]. right. eauto.
Qed.

Lemma fancy_index_lookup {A} (a : list A) (idx : list nat) (out : list A) :
  fancy_index a idx = Ret out ->
  length out = length idx /\
  forall k v, out !! k = Some v ->
    exists j, idx !! k = Some j /\ a !! j = Some v.
Proof.
  revert out. induction idx as [|j idx IH]; intros out H; simpl in H.
  - inversion H; subst. split; [reflexivity|]. intros k v Hk. inversion Hk.
  - destruct (a !! j) as [x|] eqn:Hj; [|discriminate].
    destruct (fancy_index a idx) as [xs|e]; [|discriminate].
    inversion H; subst. destruct (IH xs eq_refl) as [Hlen Hl].
    split; [simpl; lia|]. intros [|k] v Hk; simpl in Hk.
    + inversion Hk; subst. exists j. auto.
    + apply Hl. exact Hk.
Qed.

Lemma mapM_lookup_out {A B} (f : A -> outcome B) (l : list A) (bs : list B)
    (i : nat) (b : B) :
  mapM f l = Ret bs -> bs !! i = Some b ->
  exists a, l !! i = Some a /\ f a = Ret b.
Proof.
  intros H Hb. destruct (mapM_lookup f l bs H) as [Hlen Hl].
  destruct (lookup_lt_is_Some_2 l i) as (a & Ha).
  { rewrite <- Hlen. apply lookup_lt_Some in Hb. exact Hb. }
  destruct (Hl i a Ha) as (b' & Hb' & Hf).
  exists a. split; [exact Ha|]. congruence.
Qed.

(** Where [possible_outlier] is positive, the deviation exceeds the
    threshold and the order has more than [nl_eachorder] lines left. *)
Lemma possible_outlier_positive (dev : list float) (thr : float)
    (left : list Z) (nl : Z) (i : nat) (p : float) :
  possible_outlier dev thr left nl !! i = Some p -> fgt p fzero = true ->
  exists d k, dev !! i = Some d /\ left !! i = Some k /\
    fgt d thr = true /\ nl < k.
Proof.
  unfold possible_outlier. intros Hp Hpos.
  rewrite !lookup_zip_with, !list_lookup_fmap in Hp.
  destruct (dev !! i) as [d|]; [|discriminate]. simpl in Hp.
  destruct (left !! i) as [k|]; [|discriminate]. simpl in Hp.
  inversion Hp; subst p.
  apply masked_product_positive in Hpos as [H1 H2].
  exists d, k. split; [reflexivity|]. split; [reflexivity|].
  split; [exact H1|]. apply Z.ltb_lt. exact H2.
Qed.

Section RejectionLoop.
Variable np_power : float -> float -> float.
Variable np_nanmedian : list float -> float.
Variable np_unique : list float -> list float * list nat.
Variable leastsq :
  (list float -> list float) -> list float -> outcome (list float).

Hypothesis unique_reconstructs : reconstructs np_unique.

Lemma call_leastsq_heap (l : loss) (poly_order : nat * nat) (lv : locals)
    (x0 : list float) (st : state) (r : outcome (list float)) (st' : state) :
  call_leastsq np_power leastsq l poly_order lv x0 st = (r, st') ->
  heap st' = heap st.
Proof.
  unfold call_leastsq. intros H.
  apply bind_inv in H as [(ml & st1 & E & H)|(e & E & ->)];
    apply load_float_inv in E as [-> _]; [|reflexivity].
  apply bind_inv in H as [(w & st1 & E & H)|(e & E & ->)];
    apply load_bool_inv in E as [-> _]; [|reflexivity].
  apply bind_inv in H as [(u & st1 & E & H)|(e & E & ->)];
    apply emit_inv in E; [|exact E].
  apply lift_inv in H as [-> _]. exact E.
Qed.

(** One pass of the loop body: the weights are left as they were, or the
    weight of one line is zeroed; that line deviates by more than the
    threshold and its order has more than [nl_eachorder] weighted lines. *)
Lemma iteration_rejects_one (poly_order : nat * nat) (thr : float)
    (lar : bool) (nl : Z) (lv : locals) (x0 : list float)
    (st : state) (w : list bool) (r : outcome iter_result) (st' : state) :
  heap st !! l_weight lv = Some (ABool w) ->
  iteration np_power np_nanmedian np_unique leastsq poly_order thr lar nl
    lv x0 st = (r, st') ->
  exists w', heap st' !! l_weight lv = Some (ABool w') /\
    ((w' = w /\ forall res, r = Ret res -> ind_max_dev res = None) \/
     exists i d o,
       w' = <[i := false]> w /\ (i < length w)%nat /\
       fgt d thr = true /\
       lc_order_s lv !! i = Some o /\
       nl < retained_in_order (lc_order_s lv) w o /\
       forall res, r = Ret res ->
         ind_max_dev res = Some i /\ wave_dev res !! i = Some d).
Proof.
  intros Hw H. unfold iteration in H.
  assert (Hstay : forall s (e : exn),
            heap s = heap st ->
            exists w', heap s !! l_weight lv = Some (ABool w') /\
              ((w' = w /\ forall res, Raise e = Ret res -> ind_max_dev res = None) \/
               exists i d o,
                 w' = <[i := false]> w /\ (i < length w)%nat /\
                 fgt d thr = true /\ lc_order_s lv !! i = Some o /\
                 nl < retained_in_order (lc_order_s lv) w o /\
                 forall res, Raise e = Ret res ->
                   ind_max_dev res = Some i /\ wave_dev res !! i = Some d)).
  { intros s e Hs. exists w. rewrite Hs. split; [exact Hw|].
    left. split; [reflexivity|]. intros; discriminate. }
  apply bind_inv in H as [(x & st1 & E & H)|(e & E & ->)];
    apply call_leastsq_heap in E; [|apply Hstay; exact E].
  apply bind_inv in H as [(ord & s & E' & H)|(e & E' & ->)];
    apply load_float_inv in E' as [-> _]; [|apply Hstay; exact E].
  apply bind_inv in H as [(th & s & E' & H)|(e & E' & ->)];
    apply load_float_inv in E' as [-> _]; [|apply Hstay; exact E].
  destruct (wave_diff np_power poly_order lv x ord th) as [fw diff].
  destruct (np_unique (lc_order_s lv)) as [uniq inv] eqn:Eu.
  apply bind_inv in H as [(w0 & s & E' & H)|(e & E' & ->)];
    apply load_bool_inv in E' as [-> Hw0]; [|apply Hstay; exact E].
  specialize (Hw0 w0 eq_refl). rewrite E, Hw in Hw0.
  injection Hw0 as <-.
  apply bind_inv in H as [(uleft & s & E' & H)|(e & E' & ->)];
    apply lift_inv in E' as [-> Hul]; [|apply Hstay; exact E].
  apply bind_inv in H as [(left & s & E' & H)|(e & E' & ->)];
    apply lift_inv in E' as [-> Hleft]; [|apply Hstay; exact E].
  set (dev := deviation np_nanmedian diff) in *.
  set (outl := possible_outlier dev thr left nl) in *.
  destruct (existsb (fun p => fgt p fzero) outl) eqn:Eany.
  2:{ inversion H; subst. exists w. rewrite E. split; [exact Hw|].
      left. split; [reflexivity|]. intros res Hres. inversion Hres. reflexivity. }
  apply bind_inv in H as [(i & s & E' & H)|(e & E' & ->)];
    apply lift_inv in E' as [-> Hi]; [|apply Hstay; exact E].
  (* the line chosen *)
  destruct (nanargmax_positive outl i Eany (eq_sym Hi)) as (p & Hp & Hpos).
  destruct (possible_outlier_positive dev thr left nl i p Hp Hpos)
    as (d & k & Hd & Hk & Hthr & Hnl).
  destruct (fancy_index_lookup uleft inv left (eq_sym Hleft)) as [Hlen Hfi].
  destruct (Hfi i k Hk) as (j & Hj & Huj).
  destruct (mapM_lookup_out _ _ _ j k (eq_sym Hul) Huj) as (uj & Hu & Hcount).
  apply order_left_retained in Hcount as [Hwl Hcount].
  destruct (unique_reconstructs (lc_order_s lv)) as [Hinvlen Hrec].
  rewrite Eu in Hinvlen, Hrec. simpl in Hinvlen, Hrec.
  destruct (lookup_lt_is_Some_2 (lc_order_s lv) i) as (o & Ho).
  { rewrite <- Hinvlen. apply lookup_lt_Some in Hj. exact Hj. }
  destruct (Hrec i j o Hj Ho) as (u' & Hu' & Hsame).
  assert (u' = uj) by congruence. subst u'.
  rewrite (retained_same_value _ _ _ _ Hsame) in Hcount.
  (* the writes *)
  assert (Hw1 : heap st1 !! l_weight lv = Some (ABool w)) by (rewrite E; exact Hw).
  apply bind_inv in H as [(u1 & s1 & E1 & H)|(e & E1 & ->)];
    destruct (store_at_bool_inv _ _ _ _ _ _ w E1 Hw1)
      as [(Hr & Hil & Hs1)|((e' & He') & ->)];
    try discriminate; try (apply Hstay; exact E).
  clear Hr.
  assert (Hdone : forall s2 r2,
            heap s2 !! l_weight lv = Some (ABool (<[i := false]> w)) ->
            (forall res, r2 = Ret res ->
               ind_max_dev res = Some i /\ wave_dev res !! i = Some d) ->
            exists w', heap s2 !! l_weight lv = Some (ABool w') /\
              ((w' = w /\ forall res, r2 = Ret res -> ind_max_dev res = None) \/
               exists i d o,
                 w' = <[i := false]> w /\ (i < length w)%nat /\
                 fgt d thr = true /\ lc_order_s lv !! i = Some o /\
                 nl < retained_in_order (lc_order_s lv) w o /\
                 forall res, r2 = Ret res ->
                   ind_max_dev res = Some i /\ wave_dev res !! i = Some d)).
  { intros s2 r2 Hs2 Hr2. exists (<[i := false]> w). split; [exact Hs2|].
    right. exists i, d, o. repeat split; try assumption; try apply Hr2; auto.
    rewrite <- Hcount. exact Hnl. }
  apply bind_inv in H as [(u2 & s2 & E2 & H)|(e & E2 & ->)];
    pose proof (store_at_float_other _ _ _ _ _ _ _ _ E2 Hs1) as Hs2;
    [|apply Hdone; [exact Hs2|intros; discriminate]].
  apply bind_inv in H as [(u3 & s3 & E3 & H)|(e & E3 & ->)];
    pose proof (store_at_float_other _ _ _ _ _ _ _ _ E3 Hs2) as Hs3;
    [|apply Hdone; [exact Hs3|intros; discriminate]].
  apply bind_inv in H as [(u4 & s4 & E4 & H)|(e & E4 & ->)];
    apply emit_inv in E4;
    [|apply Hdone; [rewrite E4; exact Hs3|intros; discriminate]].
  inversion H; subst. apply Hdone; [rewrite E4; exact Hs3|].
  intros res Hres. inversion Hres; subst. simpl. auto.
Qed.

Lemma pass_keeps_orders (lc_order_s : list float) (nl : Z) (w w' : list bool) :
  (w' = w \/
   exists i o, w' = <[i := false]> w /\ lc_order_s !! i = Some o /\
     nl < retained_in_order lc_order_s w o) ->
  length w' = length w /\
  forall o', Z.min nl (retained_in_order lc_order_s w o') <=
             retained_in_order lc_order_s w' o'.
Proof.
  intros [->|(i & o & -> & Ho & Hnl)].
  - split; [reflexivity|]. intros o'. apply Z.le_min_r.
  - split; [apply length_insert|]. intros o'.
    destruct (retained_after_reject lc_order_s w i o o' Ho) as [->|[Hfeq ->]].
    + apply Z.le_min_r.
    + assert (Hsame : same_value o o' = true)
        by (unfold same_value; rewrite Hfeq; reflexivity).
      rewrite (retained_same_value lc_order_s w o o' Hsame) in Hnl. lia.
Qed.

(** The loop keeps, for every order, the retained count at or above
    [nl_eachorder], or where it was when it started below. *)
Lemma rejection_loop_keeps_orders (more : nat) (poly_order : nat * nat)
    (thr : float) (lar : bool) (nl : Z) (lv : locals) (x0 : list float) :
  forall (st : state) (w : list bool) (r : outcome iter_result) (st' : state),
    heap st !! l_weight lv = Some (ABool w) ->
    rejection_loop np_power np_nanmedian np_unique leastsq more poly_order
      thr lar nl lv x0 st = (r, st') ->
    exists w', heap st' !! l_weight lv = Some (ABool w') /\
      length w' = length w /\
      forall o, Z.min nl (retained_in_order (lc_order_s lv) w o) <=
                retained_in_order (lc_order_s lv) w' o.
Proof.
  assert (Hpass : forall st w r st',
    heap st !! l_weight lv = Some (ABool w) ->
    iteration np_power np_nanmedian np_unique leastsq poly_order thr lar nl
      lv x0 st = (r, st') ->
    exists w', heap st' !! l_weight lv = Some (ABool w') /\
      length w' = length w /\
      forall o, Z.min nl (retained_in_order (lc_order_s lv) w o) <=
                retained_in_order (lc_order_s lv) w' o).
  { intros st w r st' Hw H.
    destruct (iteration_rejects_one _ _ _ _ _ _ _ _ _ _ Hw H) as (w' & Hw' & Hcase).
    exists w'. split; [exact Hw'|]. apply pass_keeps_orders.
    destruct Hcase as [[-> _]|(i & d & o & -> & _ & _ & Ho & Hnl & _)]; [auto|].
    right. exists i, o. auto. }
  induction more as [|more IH]; intros st w r st' Hw H; simpl in H.
  - apply bind_inv in H as [(res & st1 & E & H)|(e & E & ->)];
      [|exact (Hpass _ _ _ _ Hw E)].
    destruct (Hpass _ _ _ _ Hw E) as (w1 & Hw1 & Hlen & Hc).
    destruct (ind_max_dev res); inversion H; subst; eauto.
  - apply bind_inv in H as [(res & st1 & E & H)|(e & E & ->)];
      [|exact (Hpass _ _ _ _ Hw E)].
    destruct (Hpass _ _ _ _ Hw E) as (w1 & Hw1 & Hlen & Hc).
    destruct (ind_max_dev res).
    + destruct (IH _ _ _ _ Hw1 H) as (w2 & Hw2 & Hlen2 & Hc2).
      exists w2. split; [exact Hw2|]. split; [congruence|].
      intros o. specialize (Hc o). specialize (Hc2 o). lia.
    + inversion H; subst. eauto.
Qed.
End RejectionLoop.

(** C1: in the rejection loop ([n_iter > 0]), a pass leaves the weights
    as they were or zeroes the weight of exactly one line; that line
    deviates from the median deviation of the pass by more than
    [max_dev_threshold] and its order has strictly more than
    [nl_eachorder] weighted lines at that moment.  Hence, after any number
    of passes, the count of weighted lines of every order is at least
    [nl_eachorder], or what it was at the start if that was less.
    [np.unique] is taken with its contract: [unique[inverse]] reconstructs
    the array. *)
Theorem rejection_loop_keeps_min_per_order
    (np_power : float -> float -> float)
    (np_nanmedian : list float -> float)
    (np_unique : list float -> list float * list nat)
    (leastsq : (list float -> list float) -> list float -> outcome (list float))
    (more : nat) (poly_order : nat * nat) (max_dev_threshold : float)
    (lar : bool) (nl_eachorder : Z) (lv : locals) (x0 : list float)
    (st : state) (weight : list bool) :
  reconstructs np_unique ->
  heap st !! l_weight lv = Some (ABool weight) ->
  (let '(r, st') :=
     iteration np_power np_nanmedian np_unique leastsq poly_order
       max_dev_threshold lar nl_eachorder lv x0 st in
   exists weight', heap st' !! l_weight lv = Some (ABool weight') /\
     ((weight' = weight /\ forall res, r = Ret res -> ind_max_dev res = None) \/
      exists i d o,
        weight' = <[i := false]> weight /\ (i < length weight)%nat /\
        fgt d max_dev_threshold = true /\
        lc_order_s lv !! i = Some o /\
        nl_eachorder < retained_in_order (lc_order_s lv) weight o /\
        forall res, r = Ret res ->
          ind_max_dev res = Some i /\ wave_dev res !! i = Some d)) /\
  (let '(r, st') :=
     rejection_loop np_power np_nanmedian np_unique leastsq more poly_order
       max_dev_threshold lar nl_eachorder lv x0 st in
   exists weight', heap st' !! l_weight lv = Some (ABool weight') /\
     length weight' = length weight /\
     forall o,
       Z.min nl_eachorder (retained_in_order (lc_order_s lv) weight o) <=
       retained_in_order (lc_order_s lv) weight' o).
Proof.
  intros Hu Hw. split.
  - destruct (iteration _ _ _ _ _ _ _ _ _ _ st) as [r st'] eqn:E.
    exact (iteration_rejects_one np_power np_nanmedian np_unique leastsq Hu
             _ _ _ _ _ _ _ _ _ _ Hw E).
  - destruct (rejection_loop _ _ _ _ _ _ _ _ _ _ _ st) as [r st'] eqn:E.
    exact (rejection_loop_keeps_orders np_power np_nanmedian np_unique leastsq
             Hu _ _ _ _ _ _ _ _ _ _ _ Hw E).
Qed.

(** *** The reference [unique] meets the contract *)

Lemma elem_of_insert_sorted (v : float) (l : list float) (y : float) :
  y ∈ insert_sorted v l <-> y = v \/ y ∈ l.
Proof.
  induction l as [|u t IH]; simpl.
  - rewrite list_elem_of_singleton. split; [auto|].
    intros [H|H]; [exact H|inversion H].
  - destruct (flt v u || isnan u).
    + rewrite elem_of_cons. reflexivity.
    + rewrite !elem_of_cons, IH. tauto.
Qed.

Lemma elem_of_sort_floats (l : list float) (y : float) :
  y ∈ sort_floats l <-> y ∈ l.
Proof.
  unfold sort_floats. induction l as [|u t IH]; simpl; [reflexivity|].
  rewrite elem_of_insert_sorted, IH, elem_of_cons. reflexivity.
Qed.

Lemma dedupe_from_covers (l : list float) :
  forall prev v, v ∈ l ->
    same_value prev v = true \/
    exists u, u ∈ dedupe_from prev l /\ same_value u v = true.
Proof.
  induction l as [|b t IH]; intros prev v Hv; [inversion Hv|].
  simpl. apply elem_of_cons in Hv as [->|Hv].
  - destruct (same_value prev b) eqn:E; [auto|].
    right. exists b. split; [left|apply same_value_refl].
  - destruct (same_value prev b) eqn:E.
    + apply IH. exact Hv.
    + right. destruct (IH b v Hv) as [H|(u & Hu & H)].
      * exists b. split; [left|exact H].
      * exists u. split; [right; exact Hu|exact H].
Qed.

Lemma dedupe_covers (l : list float) (v : float) :
  v ∈ l -> exists u, u ∈ dedupe l /\ same_value u v = true.
Proof.
  destruct l as [|a t]; intros Hv; [inversion Hv|]. simpl.
  apply elem_of_cons in Hv as [->|Hv].
  - exists a. split; [left|apply same_value_refl].
  - destruct (dedupe_from_covers t a v Hv) as [H|(u & Hu & H)].
    + exists a. split; [left|exact H].
    + exists u. split; [right; exact Hu|exact H].
Qed.

Lemma unique_ref_reconstructs : reconstructs unique_ref.
Proof.
  intros x. unfold unique_ref. simpl. split; [apply length_map|].
  intros k i v Hk Hv. rewrite list_lookup_fmap, Hv in Hk. simpl in Hk.
  destruct (list_find (fun w => same_value w v = true)
              (dedupe (sort_floats x))) as [[i' u]|] eqn:F.
  - injection Hk as <-. apply list_find_Some in F as (Hu & HP & _).
    exists u. auto.
  - exfalso. apply list_find_None in F.
    destruct (dedupe_covers (sort_floats x) v) as (u & Hu & Hs).
    { apply elem_of_sort_floats. apply list_elem_of_lookup. eauto. }
    rewrite Forall_forall in F. exact (F u Hu Hs).
Qed.

Lemma rejection_loop_keeps_min_per_order_witness :
  (let '(r, st') :=
     iteration power_ref nanmedian_ref unique_ref leastsq_ref (3, 5)%nat
       (of_Z 100) false 1 example_locals (replicate 15 fzero)
       example_loop_store in
   exists weight', heap st' !! 5%positive = Some (ABool weight') /\
     ((weight' = [true; true; true; true] /\
       forall res, r = Ret res -> ind_max_dev res = None) \/
      exists i d o,
        weight' = <[i := false]> [true; true; true; true] /\
        (i < 4)%nat /\
        fgt d (of_Z 100) = true /\
        lc_order_s example_locals !! i = Some o /\
        1 < retained_in_order (lc_order_s example_locals)
              [true; true; true; true] o /\
        forall res, r = Ret res ->
          ind_max_dev res = Some i /\ wave_dev res !! i = Some d)) /\
  (let '(r, st') :=
     rejection_loop power_ref nanmedian_ref unique_ref leastsq_ref 5
       (3, 5)%nat (of_Z 100) false 1 example_locals (replicate 15 fzero)
       example_loop_store in
   exists weight', heap st' !! 5%positive = Some (ABool weight') /\
     length weight' = 4%nat /\
     forall o,
       Z.min 1 (retained_in_order (lc_order_s example_locals)
                  [true; true; true; true] o) <=
       retained_in_order (lc_order_s example_locals) weight' o).
Proof.
  apply (rejection_loop_keeps_min_per_order power_ref nanmedian_ref unique_ref
           leastsq_ref 5 (3, 5)%nat (of_Z 100) false 1 example_locals
           (replicate 15 fzero) example_loop_store [true; true; true; true]).
  - exact unique_ref_reconstructs.
  - reflexivity.
Defined.

(** ** The solver calls of the non-iterative mode *)

Lemma silent_ret {A} (a : A) : silent (ret a).
  Proof. intros st r st' H. inversion H; reflexivity. Qed.

Lemma silent_raise {A} (e : exn) : silent (raise (A := A) e).
  Proof. intros st r st' H. inversion H; reflexivity. Qed.

Lemma silent_lift {A} (o : outcome A) : silent (lift o).
  Proof. intros st r st' H. inversion H; reflexivity. Qed.

Lemma silent_bind {A B} (m : M A) (k : A -> M B) :
    silent m -> (forall a, silent (k a)) -> silent (bind m k).
  Proof.
    intros Hm Hk st r st' H. unfold bind in H.
    destruct (m st) as [[a|e] st1] eqn:E.
    - rewrite (Hk a _ _ _ H). exact (Hm _ _ _ E).
    - inversion H; subst. exact (Hm _ _ _ E).
  Qed.

Lemma traces_silent {A} (m : M A) : silent m -> traces (eq []) m.
  Proof.
    intros Hm st r st' H. exists []. rewrite app_nil_r.
    split; [exact (Hm _ _ _ H)|]. destruct r; [reflexivity|].
    exists []. reflexivity.
  Qed.

Lemma traces_bind {A B} (S1 S2 : list event -> Prop) (m : M A) (k : A -> M B) :
    (exists t, S2 t) ->
    traces S1 m -> (forall a, traces S2 (k a)) ->
    traces (then_ S1 S2) (bind m k).
  Proof.
    intros [t2 Ht2] Hm Hk st r st' H. unfold bind in H.
    destruct (m st) as [[a|e] st1] eqn:E.
    - destruct (Hm _ _ _ E) as (d1 & Hd1 & HS1). simpl in HS1.
      destruct (Hk a _ _ _ H) as (d2 & Hd2 & HS2).
      exists (d1 ++ d2). split; [rewrite Hd2, Hd1, app_assoc; reflexivity|].
      destruct r.
      + exists d1, d2. auto.
      + destruct HS2 as (rest & HS2). exists rest, d1, (d2 ++ rest).
        split; [rewrite app_assoc; reflexivity|auto].
    - inversion H; subst. destruct (Hm _ _ _ E) as (d1 & Hd1 & rest & HS1).
      exists d1. split; [exact Hd1|].
      exists (rest ++ t2), (d1 ++ rest), t2.
      split; [rewrite app_assoc; reflexivity|auto].
  Qed.

Lemma traces_weaken {A} (S S' : list event -> Prop) (m : M A) :
    (forall t, S t -> S' t) -> traces S m -> traces S' m.
  Proof.
    intros HS Hm st r st' H. destruct (Hm _ _ _ H) as (d & Hd & Hr).
    exists d. split; [exact Hd|]. destruct r; [auto|].
    destruct Hr as (rest & Hr). exists rest. auto.
  Qed.

  (** A silent step in front changes nothing. *)
Lemma traces_after_silent {A B} (S : list event -> Prop) (m : M A) (k : A -> M B) :
    (exists t, S t) ->
    silent m -> (forall a, traces S (k a)) -> traces S (bind m k).
  Proof.
    intros HS Hm Hk.
    apply (traces_weaken (then_ (eq []) S)).
    - intros t (t1 & t2 & -> & <- & H). exact H.
    - apply traces_bind; [exact HS|apply traces_silent; exact Hm|exact Hk].
  Qed.
Lemma silent_load (l : positive) : silent (load l).
Proof.
  intros st r st' H. unfold load in H.
  destruct (heap st !! l); inversion H; reflexivity.
Qed.

Lemma silent_store (l : positive) (a : array) : silent (store l a).
Proof. intros st r st' H. inversion H; reflexivity. Qed.

Lemma silent_alloc (a : array) : silent (alloc a).
Proof. intros st r st' H. inversion H; reflexivity. Qed.

Lemma traces_emit (e : event) : traces (eq [e]) (emit e).
Proof.
  intros st r st' H. inversion H; subst. exists [e]. split; reflexivity.
Qed.

Ltac silent_auto :=
  repeat lazymatch goal with
  | |- silent (bind _ _) => apply silent_bind; [|intros ?]
  | |- silent (ret _) => apply silent_ret
  | |- silent (raise _) => apply silent_raise
  | |- silent (lift _) => apply silent_lift
  | |- silent (load _) => apply silent_load
  | |- silent (store _ _) => apply silent_store
  | |- silent (alloc _) => apply silent_alloc
  | |- silent (load_float _) => unfold load_float
  | |- silent (load_bool _) => unfold load_bool
  | |- silent (load_float2 _) => unfold load_float2
  | |- silent (match ?x with _ => _ end) => destruct x
  end.

Section NonIterative.
Variable np_power : float -> float -> float.
Variable np_nanmean np_nanstd np_nanmedian : list float -> float.
Variable np_unique : list float -> list float * list nat.
Variable leastsq :
  (list float -> list float) -> list float -> outcome (list float).

Lemma traces_call_leastsq (l : loss) (poly_order : nat * nat) (lv : locals)
    (x0 : list float) :
  traces (eq [EvFit l]) (call_leastsq np_power leastsq l poly_order lv x0).
Proof.
  unfold call_leastsq.
  apply traces_after_silent; [eauto|silent_auto|intros ml].
  apply traces_after_silent; [eauto|silent_auto|intros w].
  apply (traces_weaken (then_ (eq [EvFit l]) (eq []))).
  { intros t (t1 & t2 & -> & <- & <-). reflexivity. }
  apply traces_bind; [eauto|apply traces_emit|intros _].
  apply traces_silent. silent_auto.
Qed.


End NonIterative.




(** * Further properties of the code *)

(** ** [thar1d_fix]: shape and range of the result *)

(** X1: [thar1d_fix] keeps the shape of the spectrum: the result has the
    rows and the second extent of its argument, and every row keeps its
    length. *)
Theorem thar1d_fix_shape (a : array2) (conv_len : Z) (sat_count : float) :
  ncols (thar1d_fix a conv_len sat_count) = ncols a /\
  nrows (thar1d_fix a conv_len sat_count) = nrows a /\
  Forall2 (fun row' row => length row' = length row)
    (rows (thar1d_fix a conv_len sat_count)) (rows a).
Proof.
  split; [reflexivity|].
  pose proof (thar1d_fix_nrows a conv_len sat_count) as Hn.
  split; [exact Hn|].
  apply Forall2_same_length_lookup. split; [exact Hn|].
  intros r row' row Hrow' Hrow.
  destruct (thar1d_fix_row a conv_len sat_count r row Hrow)
    as (row2 & Hrow2 & Hlen & _).
  rewrite Hrow' in Hrow2. inversion Hrow2; subst. exact Hlen.
Qed.

(** X2: every sample of the result of [thar1d_fix] is the sample of the
    argument at the same place or zero, and none is below zero: a
    negative sample never survives, whatever [conv_len] and [sat_count]
    are. *)
Theorem thar1d_fix_never_negative (a : array2) (conv_len : Z)
    (sat_count : float) (r c : nat) (row' : list float) (v' : float) :
  rows (thar1d_fix a conv_len sat_count) !! r = Some row' ->
  row' !! c = Some v' ->
  flt v' fzero = false /\
  exists row v, rows a !! r = Some row /\ row !! c = Some v /\
    (v' = fzero \/ v' = v).
Proof.
  intros Hrow' Hv'.
  assert (Hr : (r < nrows a)%nat).
  { rewrite <- (thar1d_fix_nrows a conv_len sat_count).
    apply lookup_lt_Some in Hrow'. exact Hrow'. }
  destruct (lookup_lt_is_Some_2 (rows a) r Hr) as (row & Hrow).
  destruct (thar1d_fix_row a conv_len sat_count r row Hrow)
    as (row2 & Hrow2 & Hlen & Hcell).
  rewrite Hrow' in Hrow2. inversion Hrow2; subst row2.
  assert (Hc : (c < length row)%nat).
  { rewrite <- Hlen. apply lookup_lt_Some in Hv'. exact Hv'. }
  destruct (lookup_lt_is_Some_2 row c Hc) as (v & Hv).
  destruct (Hcell c v Hv) as (v2 & Hv2 & Hcase).
  rewrite Hv' in Hv2. inversion Hv2; subst v2.
  destruct Hcase as [[-> _]|[-> [Hn _]]].
  - split; [reflexivity|]. exists row, v. auto.
  - split; [exact Hn|]. exists row, v. auto.
Qed.

Lemma thar1d_fix_never_negative_witness :
  flt fzero fzero = false /\
  exists row v,
    rows (Array2 3 [[of_Z 60000; of_Z (-2); of_Z 7]]) !! 0%nat = Some row /\
    row !! 1%nat = Some v /\ (fzero = fzero \/ fzero = v).
Proof.
  apply (thar1d_fix_never_negative (Array2 3 [[of_Z 60000; of_Z (-2); of_Z 7]])
           1 (of_Z 50000) 0 1 [of_Z 60000; fzero; of_Z 7] fzero);
    vm_compute; reflexivity.
Defined.

Lemma thar1d_fix_interior_witness :
  exists row' v',
    rows (thar1d_fix (Array2 4 [[of_Z 1; of_Z 60000; of_Z 1; of_Z (-3)]]) 1
            (of_Z 50000)) !! 0%nat = Some row' /\
    row' !! 2%nat = Some v' /\
    ((v' = fzero /\
      (flt (of_Z 1) fzero = true \/
       window_covered [of_Z 1; of_Z 60000; of_Z 1; of_Z (-3)] 1 (of_Z 50000) 2)) \/
     (v' = of_Z 1 /\ flt (of_Z 1) fzero = false /\
      ~ window_covered [of_Z 1; of_Z 60000; of_Z 1; of_Z (-3)] 1 (of_Z 50000) 2)).
Proof.
  apply (thar1d_fix_interior (Array2 4 [[of_Z 1; of_Z 60000; of_Z 1; of_Z (-3)]])
           1 (of_Z 50000) 0 2 [of_Z 1; of_Z 60000; of_Z 1; of_Z (-3)] (of_Z 1)).
  - lia.
  - intros y u Hy Hu.
    destruct y as [|y]; [inversion Hy; subst; vm_compute in Hu; discriminate|].
    lia.
  - reflexivity.
  - reflexivity.
Defined.

(** ** [interpolate_order] *)

(** X4: for a template with a cell [0, 0], [interpolate_order] returns an
    order map of the shape of the fixed spectrum whose cell [(i, j)] is
    [i + order_temp[0, 0] + yshift]: the rows are constant, and neither
    [xshift] nor another cell of the template has a part in the result. *)
Theorem interpolate_order_cells (order_temp : array2) (xshift yshift : Z)
    (thar1d_fixed : array2) (o : float) (rest : list float)
    (others : list (list float)) :
  rows order_temp = (o :: rest) :: others ->
  exists out,
    interpolate_order order_temp (xshift, yshift) thar1d_fixed = Ret out /\
    nrows out = nrows thar1d_fixed /\ ncols out = ncols thar1d_fixed /\
    rectangular out /\
    forall i j, (i < nrows thar1d_fixed)%nat -> (j < ncols thar1d_fixed)%nat ->
      exists row, rows out !! i = Some row /\
        row !! j = Some (fadd (fadd (of_Z (Z.of_nat i)) o) (of_Z yshift)).
Proof.
  intros Ho. unfold interpolate_order, cell00. rewrite Ho.
  eexists. split; [reflexivity|].
  unfold nrows, rectangular. simpl.
  split; [rewrite !length_map; apply length_arange|].
  split; [reflexivity|].
  split.
  - apply Forall_forall. intros row Hrow.
    apply list_elem_of_fmap in Hrow as (v & -> & _). apply length_replicate.
  - intros i j Hi Hj.
    exists (replicate (ncols thar1d_fixed)
              (fadd (fadd (of_Z (Z.of_nat i)) o) (of_Z yshift))).
    split.
    + rewrite !list_lookup_fmap. unfold arange, zrange.
      rewrite list_lookup_fmap, lookup_seq_lt by lia. reflexivity.
    + apply lookup_replicate_2. exact Hj.
Qed.

Lemma interpolate_order_cells_witness :
  exists out,
    interpolate_order (Array2 2 [[of_Z 40; of_Z 40]; [of_Z 41; of_Z 41]]) (3, 1)
      (Array2 2 [[of_Z 7; of_Z 8]]) = Ret out /\
    nrows out = 1%nat /\ ncols out = 2%nat /\ rectangular out /\
    forall i j, (i < 1)%nat -> (j < 2)%nat ->
      exists row, rows out !! i = Some row /\
        row !! j = Some (fadd (fadd (of_Z (Z.of_nat i)) (of_Z 40)) (of_Z 1)).
Proof.
  apply (interpolate_order_cells
           (Array2 2 [[of_Z 40; of_Z 40]; [of_Z 41; of_Z 41]]) 3 1
           (Array2 2 [[of_Z 7; of_Z 8]]) (of_Z 40) [of_Z 40]
           [[of_Z 41; of_Z 41]]).
  reflexivity.
Defined.

(** ** [interpolate_wavelength]: shapes *)

Section RemapShape.
Variable tck : Type.
Variable splrep : list float -> list float -> Z -> option float -> tck.
Variable splev : list float -> tck -> list float.

(** [splev] returns one value for every evaluation point. *)
Hypothesis splev_length :
  forall (x : list float) (t : tck), length (splev x t) = length x.


End RemapShape.

Lemma splev_ref_length (x t : list float) : length (splev_ref x t) = length x.
Proof. unfold splev_ref. rewrite length_map, length_seq. reflexivity. Qed.



(** ** CCD frames: rotation *)

Lemma flip_cols_involutive (m : array2) : flip_cols (flip_cols m) = m.
Proof.
  destruct m as [n rs]. unfold flip_cols. simpl. f_equal.
  rewrite map_map. rewrite <- (map_id rs) at 2.
  apply map_ext. intros r. apply reverse_involutive.
Qed.

Lemma flip_rows_involutive (m : array2) : flip_rows (flip_rows m) = m.
Proof.
  destruct m as [n rs]. unfold flip_rows. simpl.
  rewrite reverse_involutive. reflexivity.
Qed.

Lemma flip_cols_rows (m : array2) :
  flip_cols (flip_rows m) = flip_rows (flip_cols m).
Proof.
  destruct m as [n rs]. unfold flip_cols, flip_rows. simpl. f_equal.
  apply (fmap_reverse reverse rs).
Qed.

Lemma transpose_flip_rows (m : array2) :
  transpose (flip_rows m) = flip_cols (transpose m).
Proof.
  destruct m as [n rs]. unfold transpose, flip_cols, flip_rows, nrows. simpl.
  rewrite length_reverse. f_equal. rewrite map_map.
  apply map_ext. intros j. apply (fmap_reverse _ rs).
Qed.

Lemma rectangular_transpose (m : array2) : rectangular (transpose m).
Proof.
  unfold rectangular, transpose. simpl.
  apply Forall_forall. intros r Hr.
  apply list_elem_of_fmap in Hr as (j & -> & _). apply length_map.
Qed.

Lemma rectangular_flip_cols (m : array2) :
  rectangular m -> rectangular (flip_cols m).
Proof.
  unfold rectangular, flip_cols. simpl. intros H.
  apply Forall_forall. intros r Hr.
  apply list_elem_of_fmap in Hr as (r0 & -> & Hr0).
  rewrite length_reverse. rewrite Forall_forall in H. apply H. exact Hr0.
Qed.

Lemma rectangular_flip_rows (m : array2) :
  rectangular m -> rectangular (flip_rows m).
Proof.
  unfold rectangular, flip_rows. simpl. intros H.
  apply Forall_reverse. exact H.
Qed.

Lemma transpose_involutive (m : array2) :
  rectangular m -> transpose (transpose m) = m.
Proof.
  destruct m as [n rs]. unfold rectangular, transpose, nrows. simpl.
  intros Hrect. rewrite length_map, length_seq. f_equal.
  apply list_eq. intros i. rewrite list_lookup_fmap.
  destruct (rs !! i) as [row|] eqn:Hrow.
  - rewrite lookup_seq_lt by (apply lookup_lt_Some in Hrow; exact Hrow).
    simpl. f_equal. rewrite map_map.
    rewrite Forall_lookup in Hrect. specialize (Hrect i row Hrow).
    apply list_eq. intros j. rewrite list_lookup_fmap.
    destruct (row !! j) as [v|] eqn:Hv.
    + rewrite lookup_seq_lt by (apply lookup_lt_Some in Hv; lia).
      simpl. rewrite list_lookup_fmap, Hrow. simpl. rewrite Hv. reflexivity.
    + rewrite lookup_seq_ge by (apply lookup_ge_None in Hv; lia). reflexivity.
  - rewrite lookup_seq_ge by (apply lookup_ge_None in Hrow; lia). reflexivity.
Qed.

Lemma transpose_flip_cols (m : array2) :
  rectangular m -> transpose (flip_cols m) = flip_rows (transpose m).
Proof.
  destruct m as [n rs]. unfold rectangular, transpose, flip_cols, flip_rows, nrows.
  simpl. intros Hrect. rewrite length_map. f_equal.
  apply list_eq. intros i. rewrite list_lookup_fmap.
  destruct (decide (i < n)%nat) as [Hi|Hi].
  - rewrite lookup_seq_lt by exact Hi.
    rewrite reverse_lookup by (rewrite length_map, length_seq; exact Hi).
    rewrite length_map, length_seq, list_lookup_fmap.
    rewrite lookup_seq_lt by lia. simpl. f_equal.
    rewrite map_map. apply Forall_fmap_ext_1.
    eapply Forall_impl; [exact Hrect|]. intros r Hr. simpl in *.
    rewrite reverse_lookup by lia. rewrite Hr. reflexivity.
  - rewrite lookup_seq_ge by lia. simpl. symmetry.
    apply lookup_ge_None. rewrite length_reverse, length_map, length_seq. lia.
Qed.

Lemma rectangular_np_rot90 (m : array2) (k : Z) :
  rectangular m -> rectangular (np_rot90 m k).
Proof.
  intros H. unfold np_rot90.
  destruct (k mod 4) as [|[[]|[]|]|]; auto using rectangular_transpose,
    rectangular_flip_cols, rectangular_flip_rows.
Qed.

(** The four rotations, named by the residue of [k]. *)
Lemma np_rot90_residue (m : array2) (k : Z) :
  (k mod 4 = 0 /\ np_rot90 m k = m) \/
  (k mod 4 = 1 /\ np_rot90 m k = transpose (flip_cols m)) \/
  (k mod 4 = 2 /\ np_rot90 m k = flip_cols (flip_rows m)) \/
  (k mod 4 = 3 /\ np_rot90 m k = flip_cols (transpose m)).
Proof.
  unfold np_rot90. pose proof (Z.mod_pos_bound k 4 ltac:(lia)) as Hb.
  destruct (k mod 4) as [|p|p] eqn:Hk; [auto| |lia].
  destruct p as [[]|[]|]; try lia; auto.
Qed.

Lemma np_rot90_compose (m : array2) (j k : Z) :
  rectangular m -> np_rot90 (np_rot90 m j) k = np_rot90 m (j + k).
Proof.
  intros Hrect.
  pose proof (Z.add_mod j k 4 ltac:(lia)) as Hjk.
  destruct (np_rot90_residue m j) as [[Hj ->]|[[Hj ->]|[[Hj ->]|[Hj ->]]]];
    [destruct (np_rot90_residue m k) as [[Hk ->]|[[Hk ->]|[[Hk ->]|[Hk ->]]]]
    |destruct (np_rot90_residue (transpose (flip_cols m)) k)
       as [[Hk ->]|[[Hk ->]|[[Hk ->]|[Hk ->]]]]
    |destruct (np_rot90_residue (flip_cols (flip_rows m)) k)
       as [[Hk ->]|[[Hk ->]|[[Hk ->]|[Hk ->]]]]
    |destruct (np_rot90_residue (flip_cols (transpose m)) k)
       as [[Hk ->]|[[Hk ->]|[[Hk ->]|[Hk ->]]]]];
    rewrite Hj, Hk in Hjk;
    match type of Hjk with
    | _ = ?r => let r' := eval vm_compute in r in change r with r' in Hjk
    end;
    destruct (np_rot90_residue m (j + k)) as [[H ->]|[[H ->]|[[H ->]|[H ->]]]];
    try congruence.
  all: first
    [ (* 1, 1 *)
      solve [rewrite (transpose_flip_cols (transpose (flip_cols m)))
               by apply rectangular_transpose;
             rewrite transpose_involutive
               by (apply rectangular_flip_cols; exact Hrect);
             symmetry; apply flip_cols_rows]
    | (* 1, 2 *)
      solve [rewrite (transpose_flip_cols m) by exact Hrect;
             rewrite flip_rows_involutive; reflexivity]
    | (* 1, 3 *)
      solve [rewrite transpose_involutive
               by (apply rectangular_flip_cols; exact Hrect);
             apply flip_cols_involutive]
    | (* 2, 1 *)
      solve [rewrite flip_cols_involutive; apply transpose_flip_rows]
    | (* 2, 2 *)
      solve [rewrite (flip_cols_rows m), flip_rows_involutive;
             apply flip_cols_involutive]
    | (* 2, 3 *)
      solve [rewrite (flip_cols_rows m), transpose_flip_rows,
               flip_cols_involutive; reflexivity]
    | (* 3, 1 *)
      solve [rewrite flip_cols_involutive; apply transpose_involutive;
             exact Hrect]
    | (* 3, 2 *)
      solve [rewrite <- (flip_cols_rows (transpose m)), flip_cols_involutive;
             symmetry; apply transpose_flip_cols; exact Hrect]
    | (* 3, 3 *)
      solve [rewrite (transpose_flip_cols (transpose m))
               by apply rectangular_transpose;
             rewrite transpose_involutive by exact Hrect; reflexivity] ].
Qed.

(** X7: rotating a frame [j] times and then [k] times is rotating it
    [j + k] times, for any integers (negative counts turn clockwise), and
    the attributes of the frame are carried along; in particular four
    quarter turns give the frame back. *)
Theorem ccd_rot90_compose (c : CCD) (j k : Z) :
  rectangular (data c) ->
  ccd_rot90 (ccd_rot90 c j) k = ccd_rot90 c (j + k) /\
  ccd_rot90 c 4 = c /\
  ccd_rot90 (ccd_rot90 c k) (- k) = c.
Proof.
  intros Hrect. unfold ccd_rot90, copy_info. simpl.
  rewrite !np_rot90_compose by exact Hrect.
  replace (k + - k) with 0 by lia.
  split; [reflexivity|]. destruct c as [d i]. split; reflexivity.
Qed.

Lemma ccd_rot90_compose_witness :
  let c := Ccd (Array2 3 [[of_Z 1; of_Z 2; of_Z 3]; [of_Z 4; of_Z 5; of_Z 6]])
               class_info in
  ccd_rot90 (ccd_rot90 c 1) 2 = ccd_rot90 c (1 + 2) /\
  ccd_rot90 c 4 = c /\
  ccd_rot90 (ccd_rot90 c 2) (- 2) = c.
Proof.
  intros c. apply (ccd_rot90_compose c 1 2). repeat constructor.
Defined.

(** X8: a rotation by an odd number of quarter turns exchanges the two
    extents of the frame, a rotation by an even number keeps them. *)
Theorem ccd_rot90_shape (c : CCD) (k : Z) :
  (nrows (data (ccd_rot90 c k)), ncols (data (ccd_rot90 c k))) =
  if Z.odd k then (ncols (data c), nrows (data c))
  else (nrows (data c), ncols (data c)).
Proof.
  unfold ccd_rot90, copy_info. simpl.
  assert (Hodd : Z.odd k = Z.odd (k mod 4)).
  { rewrite (Z.div_mod k 4) at 1 by lia.
    rewrite Z.add_comm, Z.odd_add_mul_even; [reflexivity|].
    exists 2. reflexivity. }
  rewrite Hodd.
  destruct (np_rot90_residue (data c) k) as [[H ->]|[[H ->]|[[H ->]|[H ->]]]];
    rewrite H; simpl; unfold nrows, transpose, flip_cols, flip_rows; simpl;
    rewrite ?length_map, ?length_seq, ?length_reverse; reflexivity.
Qed.

(** ** CCD frames: trimming *)

Lemma get_slice_in_range {A} (row : list A) (lo hi : nat) :
  (lo <= hi)%nat -> (hi <= length row)%nat ->
  get_slice row (Z.of_nat lo) (Z.of_nat hi) = take (hi - lo) (drop lo row).
Proof.
  intros H1 H2. unfold get_slice, clip_index.
  destruct (Z.ltb_spec (Z.of_nat lo) 0) as [H|_]; [lia|].
  destruct (Z.ltb_spec (Z.of_nat hi) 0) as [H|_]; [lia|].
  rewrite !Z.min_l by lia. rewrite !Nat2Z.id. reflexivity.
Qed.

(** X9: [trim((l, r, t, b))] with bounds inside the frame keeps the rows
    [l..r] and the columns [t..b], both ends included: the result has
    [r - l + 1] rows and [b - t + 1] columns, its cell [(i, j)] is the
    cell [(l + i, t + j)] of the frame, and its attributes are those of
    the frame, [_trim] included. *)
Theorem ccd_trim_window (c : CCD) (l r t b : nat) :
  rectangular (data c) ->
  (l <= r < nrows (data c))%nat -> (t <= b < ncols (data c))%nat ->
  let out := ccd_trim c (Z.of_nat l, Z.of_nat r, Z.of_nat t, Z.of_nat b) in
  info out = info c /\
  nrows (data out) = (r - l + 1)%nat /\
  ncols (data out) = (b - t + 1)%nat /\
  rectangular (data out) /\
  forall i j, (l + i <= r)%nat -> (t + j <= b)%nat ->
    exists row row' v,
      rows (data c) !! (l + i)%nat = Some row /\ row !! (t + j)%nat = Some v /\
      rows (data out) !! i = Some row' /\ row' !! j = Some v.
Proof.
  intros Hrect Hr Hb out.
  assert (Hout : data out =
            Array2 (b - t + 1)
              (map (fun row => take (b + 1 - t) (drop t row))
                   (take (r + 1 - l) (drop l (rows (data c)))))).
  { unfold out, ccd_trim, copy_info, window. simpl.
    replace (Z.of_nat r + 1) with (Z.of_nat (r + 1)) by lia.
    replace (Z.of_nat b + 1) with (Z.of_nat (b + 1)) by lia.
    rewrite (get_slice_in_range (rows (data c)) l (r + 1))
      by (unfold nrows in Hr; lia).
    rewrite (get_slice_in_range (replicate (ncols (data c)) tt) t (b + 1))
      by (rewrite ?length_replicate; lia).
    rewrite length_take, length_drop, length_replicate.
    f_equal; [lia|].
    apply Forall_fmap_ext_1. apply Forall_forall. intros row Hrow.
    apply get_slice_in_range; [lia|].
    apply subseteq_take, subseteq_drop in Hrow.
    unfold rectangular in Hrect. rewrite Forall_forall in Hrect.
    rewrite (Hrect row Hrow). lia. }
  split; [reflexivity|]. rewrite Hout. unfold nrows, rectangular. simpl.
  split.
  { rewrite length_map, length_take, length_drop. unfold nrows in Hr. lia. }
  split; [reflexivity|].
  split.
  { apply Forall_forall. intros row' Hrow'.
    apply list_elem_of_fmap in Hrow' as (row & -> & Hrow).
    apply subseteq_take, subseteq_drop in Hrow.
    unfold rectangular in Hrect. rewrite Forall_forall in Hrect.
    rewrite length_take, length_drop, (Hrect row Hrow). lia. }
  intros i j Hi Hj.
  destruct (lookup_lt_is_Some_2 (rows (data c)) (l + i)) as (row & Hrow);
    [unfold nrows in Hr; lia|].
  assert (Hlen : length row = ncols (data c)).
  { unfold rectangular in Hrect. rewrite Forall_lookup in Hrect.
    exact (Hrect _ _ Hrow). }
  destruct (lookup_lt_is_Some_2 row (t + j)) as (v & Hv); [lia|].
  exists row, (take (b + 1 - t) (drop t row)), v.
  split; [exact Hrow|]. split; [exact Hv|]. split.
  - rewrite list_lookup_fmap, lookup_take_lt by lia.
    rewrite lookup_drop, Hrow. reflexivity.
  - rewrite lookup_take_lt by lia. rewrite lookup_drop. exact Hv.
Qed.

Lemma ccd_trim_window_witness :
  let c := Ccd (Array2 3 [[of_Z 1; of_Z 2; of_Z 3]; [of_Z 4; of_Z 5; of_Z 6]])
               class_info in
  let out := ccd_trim c (Z.of_nat 1, Z.of_nat 1, Z.of_nat 1, Z.of_nat 2) in
  info out = info c /\
  nrows (data out) = (1 - 1 + 1)%nat /\
  ncols (data out) = (2 - 1 + 1)%nat /\
  rectangular (data out) /\
  forall i j, (1 + i <= 1)%nat -> (1 + j <= 2)%nat ->
    exists row row' v,
      rows (data c) !! (1 + i)%nat = Some row /\ row !! (1 + j)%nat = Some v /\
      rows (data out) !! i = Some row' /\ row' !! j = Some v.
Proof.
  intros c.
  apply (ccd_trim_window c 1 1 1 2).
  - repeat constructor.
  - unfold nrows. simpl. lia.
  - simpl. lia.
Defined.

(** ** CCD frames: reading *)

Section ReadProperties.
Variable fits_open : string -> option (list hdu_unit).


(** X11: reading with [trim] and [rot90] gives the pixels of reading the
    file as it is and calling [trim] and [rot90] on the frame; the
    attributes differ: [read] records the two arguments, the methods
    leave [_trim] and [_rot90] as they were. *)
Theorem ccd_read_is_trim_then_rot90 (fp0 : string) (hdu0 : Z)
    (gain_ ron_ : float) (unit0 : string) (trim : Z * Z * Z * Z) (rot90 : Z)
    (plain : CCD) :
  ccd_read fits_open fp0 hdu0 gain_ ron_ unit0 None 0 = Ret plain ->
  exists ccd,
    ccd_read fits_open fp0 hdu0 gain_ ron_ unit0 (Some trim) rot90 = Ret ccd /\
    data ccd = data (ccd_rot90 (ccd_trim plain trim) rot90) /\
    _trim (info ccd) = Some trim /\ _rot90 (info ccd) = rot90 /\
    _trim (info (ccd_rot90 (ccd_trim plain trim) rot90)) = None /\
    _rot90 (info (ccd_rot90 (ccd_trim plain trim) rot90)) = 0.
Proof.
  unfold ccd_read. intros Hplain.
  destruct (fits_open fp0) as [units|]; [|discriminate].
  destruct (py_index units hdu0) as [h|e]; [|discriminate].
  inversion Hplain; subst plain; clear Hplain.
  destruct trim as [[[l r] t] b].
  eexists. split; [reflexivity|]. simpl.
  repeat split.
Qed.
End ReadProperties.

Lemma ccd_read_is_trim_then_rot90_witness :
  let files := fun name : string =>
    if String.eqb name "a.fits"
    then Some [HduUnit (Array2 2 [[of_Z 1; of_Z 2]; [of_Z 3; of_Z 4]]) []]
    else None in
  exists ccd,
    ccd_read files "a.fits" 0 fone fzero "adu" (Some (0, 0, 0, 1)) 1 = Ret ccd /\
    data ccd =
      data (ccd_rot90
              (ccd_trim (Ccd (Array2 2 [[of_Z 1; of_Z 2]; [of_Z 3; of_Z 4]])
                           (CcdInfo fone fzero "adu" "a.fits" 0 None None None 0))
                 (0, 0, 0, 1)) 1) /\
    _trim (info ccd) = Some (0, 0, 0, 1) /\ _rot90 (info ccd) = 1 /\
    _trim (info (ccd_rot90
              (ccd_trim (Ccd (Array2 2 [[of_Z 1; of_Z 2]; [of_Z 3; of_Z 4]])
                           (CcdInfo fone fzero "adu" "a.fits" 0 None None None 0))
                 (0, 0, 0, 1)) 1)) = None /\
    _rot90 (info (ccd_rot90
              (ccd_trim (Ccd (Array2 2 [[of_Z 1; of_Z 2]; [of_Z 3; of_Z 4]])
                           (CcdInfo fone fzero "adu" "a.fits" 0 None None None 0))
                 (0, 0, 0, 1)) 1)) = 0.
Proof.
  intros files.
  apply (ccd_read_is_trim_then_rot90 files "a.fits" 0 fone fzero "adu"
           (0, 0, 0, 1) 1).
  reflexivity.
Defined.

(** ** Refining ThAr positions: alignment of the results *)

Section RefineAlignment.
Variable tck : Type.
Variable splrep : list float -> list float -> Z -> option float -> tck.
Variable splev : list float -> tck -> list float.
Variable np_exp : float -> float.
Variable np_power : float -> float -> float.
Variable curve_fit :
  (list float -> float -> float -> float -> float -> list float) ->
  list float -> list float -> list float -> list float * list float ->
  option (list float * list (list float)).

(** [splev] returns one value for every evaluation point. *)
Hypothesis splev_length :
  forall (x : list float) (t : tck), length (splev x t) = length x.

Lemma refine_order_lengths
    (this_wave_init this_xcoord this_thar this_thar_list : list float)
    (this_order fit_width lc_tol : float) (k : Z)
    (lc_coord lc_order lc_thar : list float) (popt pcov : list (list float)) :
  refine_thar_positions_order tck splrep splev np_exp np_power curve_fit
    this_wave_init this_xcoord this_thar this_thar_list this_order
    fit_width lc_tol k = Ret (Some (lc_coord, lc_order, lc_thar, popt, pcov)) ->
  lc_thar = this_thar_list /\ lc_thar <> [] /\
  length lc_coord = length lc_thar /\ length lc_order = length lc_thar /\
  length popt = length lc_thar /\ length pcov = length lc_thar.
Proof.
  unfold refine_thar_positions_order.
  destruct (Nat.eqb_spec (length this_thar_list) 0) as [|Hne]; [discriminate|].
  destruct (mapM _ this_thar_list) as [fits|] eqn:Hfits; [|discriminate].
  destruct (inversion_interpolant _ _ _ _ _) as [t|]; [|discriminate].
  intros H. inversion H; subst; clear H.
  destruct (mapM_lookup _ _ _ Hfits) as [Hlen _].
  split; [reflexivity|].
  split; [intros ->; apply Hne; reflexivity|].
  rewrite !length_map, splev_length, !length_map. auto.
Qed.

(** X12: the five arrays [refine_thar_positions_order] returns for an
    order are aligned with the catalogue lines it was given: the third is
    that list itself, the others have its length, entry [i] of the
    parameter and variance lists is what the fit of line [i] gave, and
    the order array holds [1.0 * this_order] throughout. *)
Theorem refine_order_aligned
    (this_wave_init this_xcoord this_thar this_thar_list : list float)
    (this_order fit_width lc_tol : float) (k : Z)
    (lc_coord lc_order lc_thar : list float) (popt pcov : list (list float)) :
  refine_thar_positions_order tck splrep splev np_exp np_power curve_fit
    this_wave_init this_xcoord this_thar this_thar_list this_order
    fit_width lc_tol k = Ret (Some (lc_coord, lc_order, lc_thar, popt, pcov)) ->
  lc_thar = this_thar_list /\ lc_thar <> [] /\
  length lc_coord = length lc_thar /\ length lc_order = length lc_thar /\
  length popt = length lc_thar /\ length pcov = length lc_thar /\
  Forall (fun o => o = fmul fone this_order) lc_order /\
  forall i line, this_thar_list !! i = Some line ->
    exists p q, popt !! i = Some p /\ pcov !! i = Some q /\
      refine_line np_exp np_power curve_fit this_wave_init this_thar
        fit_width lc_tol line = Ret (p, q).
Proof.
  unfold refine_thar_positions_order.
  destruct (Nat.eqb_spec (length this_thar_list) 0) as [|Hne]; [discriminate|].
  destruct (mapM _ this_thar_list) as [fits|] eqn:Hfits; [|discriminate].
  destruct (inversion_interpolant _ _ _ _ _) as [t|]; [|discriminate].
  intros H. inversion H; subst; clear H.
  destruct (mapM_lookup _ _ _ Hfits) as [Hlen Hlook].
  split; [reflexivity|].
  split; [intros ->; apply Hne; reflexivity|].
  rewrite !length_map, splev_length, !length_map.
  repeat (split; [exact Hlen|]).
  split.
  - apply Forall_forall. intros o Ho.
    apply list_elem_of_fmap in Ho as (c & -> & _). reflexivity.
  - intros i line Hline.
    destruct (Hlook i line Hline) as ([p q] & Hb & Hf).
    exists p, q. rewrite !list_lookup_fmap, Hb. auto.
Qed.

Lemma mask_index_subseteq {A} (a : list A) (mask : list bool) (out : list A) :
  mask_index a mask = Ret out -> out ⊆ a.
Proof.
  unfold mask_index. destruct (_ =? _)%nat; [|discriminate].
  intros H. inversion H; subst; clear H. intros x Hx.
  apply list_elem_of_fmap in Hx as ([y b] & -> & Hy).
  apply list_elem_of_filter in Hy as [_ Hy].
  apply elem_of_zip_l in Hy. exact Hy.
Qed.

Lemma lines_in_range_subseteq (thar_list w lines : list float) :
  lines_in_range thar_list w = Ret lines -> lines ⊆ thar_list.
Proof.
  unfold lines_in_range.
  destruct (np_min w); [|discriminate]. destruct (np_max w); [|discriminate].
  apply mask_index_subseteq.
Qed.

Lemma length_mjoin_pieces {T A B} (f : T -> list A) (g : T -> list B)
    (r : list T) :
  Forall (fun t => length (f t) = length (g t)) r ->
  length (mjoin (map f r)) = length (mjoin (map g r)).
Proof.
  induction 1 as [|t r Ht _ IH]; [reflexivity|].
  simpl. rewrite !length_app, Ht, IH. reflexivity.
Qed.

Lemma np_stack_inv {A} (parts : list (list A)) (out : list A) :
  np_stack parts = Ret out -> parts <> [] /\ out = mjoin parts.
Proof.
  destruct parts; [discriminate|]. intros H. inversion H. split; [discriminate|reflexivity].
Qed.

(** X13: the five arrays [refine_thar_positions] returns have one length,
    and every wavelength of the third is a line of the catalogue. *)
Theorem refine_thar_positions_aligned
    (wave_init order_init thar1d_fixed : array2) (thar_list : list float)
    (fit_width lc_tol : float) (k : Z)
    (lc_coord lc_order lc_thar : list float) (popt pcov : list (list float)) :
  refine_thar_positions tck splrep splev np_exp np_power curve_fit
    wave_init order_init thar1d_fixed thar_list fit_width lc_tol k
    = Ret (lc_coord, lc_order, lc_thar, popt, pcov) ->
  length lc_coord = length lc_thar /\ length lc_order = length lc_thar /\
  length popt = length lc_thar /\ length pcov = length lc_thar /\
  lc_thar <> [] /\ lc_thar ⊆ thar_list.
Proof.
  unfold refine_thar_positions.
  destruct (mapM _ (seq 0 (nrows wave_init))) as [r0|] eqn:Hr0; [|discriminate].
  set (r := omap id r0).
  destruct (np_stack (map (fun t => t.1.1.1.1) r)) as [a1|] eqn:H1; [|discriminate].
  destruct (np_stack (map (fun t => t.1.1.1.2) r)) as [a2|] eqn:H2; [|discriminate].
  destruct (np_stack (map (fun t => t.1.1.2) r)) as [a3|] eqn:H3; [|discriminate].
  destruct (np_stack (map (fun t => t.1.2) r)) as [a4|] eqn:H4; [|discriminate].
  destruct (np_stack (map (fun t => t.2) r)) as [a5|] eqn:H5; [|discriminate].
  intros H. inversion H; subst; clear H.
  apply np_stack_inv in H1 as [Hne ->]. apply np_stack_inv in H2 as [_ ->].
  apply np_stack_inv in H3 as [_ ->]. apply np_stack_inv in H4 as [_ ->].
  apply np_stack_inv in H5 as [_ ->].
  assert (Hall : Forall
            (fun t => t.1.1.2 <> [] /\ t.1.1.2 ⊆ thar_list /\
               length t.1.1.1.1 = length t.1.1.2 /\
               length t.1.1.1.2 = length t.1.1.2 /\
               length t.1.2 = length t.1.1.2 /\
               length t.2 = length t.1.1.2) r).
  { apply Forall_forall. intros t Ht. unfold r in Ht.
    apply list_elem_of_omap in Ht as (ot & Hot & Heq). simpl in Heq. subst ot.
    apply list_elem_of_lookup in Hot as (i & Hi).
    destruct (mapM_lookup_out _ _ _ _ _ Hr0 Hi) as (i_order & _ & Hone).
    unfold refine_one_order in Hone.
    destruct (row_at wave_init i_order) as [w|]; [|discriminate].
    destruct (row_at thar1d_fixed i_order) as [spec|]; [|discriminate].
    destruct (lines_in_range thar_list w) as [lines|] eqn:Hlines; [|discriminate].
    destruct (cell_i0 order_init i_order) as [o|]; [|discriminate].
    destruct t as [[[[c1 c2] c3] c4] c5].
    apply refine_order_lengths in Hone
      as (-> & Hn & Hl1 & Hl2 & Hl3 & Hl4).
    simpl. apply lines_in_range_subseteq in Hlines. auto 10. }
  repeat split.
  - apply length_mjoin_pieces. eapply Forall_impl; [exact Hall|]. simpl. tauto.
  - apply length_mjoin_pieces. eapply Forall_impl; [exact Hall|]. simpl. tauto.
  - apply length_mjoin_pieces. eapply Forall_impl; [exact Hall|]. simpl.
    tauto.
  - apply length_mjoin_pieces. eapply Forall_impl; [exact Hall|]. simpl. tauto.
  - destruct r as [|t r']; [contradiction Hne; reflexivity|].
    apply Forall_cons in Hall as [(Ht & _) _]. simpl.
    destruct (t.1.1.2); [contradiction Ht; reflexivity|discriminate].
  - intros x Hx. apply list_elem_of_join in Hx as (piece & Hx & Hp).
    apply list_elem_of_fmap in Hp as (t & -> & Ht).
    rewrite Forall_forall in Hall. destruct (Hall t Ht) as (_ & Hsub & _).
    apply Hsub. exact Hx.
Qed.

(** X14: when no order has a catalogue line strictly inside its
    wavelength range (more than one unit from both ends), nothing is
    left to stack and [refine_thar_positions] raises ValueError; so does
    a wavelength map without rows. *)
Theorem refine_thar_positions_no_lines
    (wave_init order_init thar1d_fixed : array2) (thar_list : list float)
    (fit_width lc_tol : float) (k : Z) :
  (forall i w, rows wave_init !! i = Some w ->
     lines_in_range thar_list w = Ret [] /\
     is_Some (rows thar1d_fixed !! i) /\
     exists o rest, rows order_init !! i = Some (o :: rest)) ->
  refine_thar_positions tck splrep splev np_exp np_power curve_fit
    wave_init order_init thar1d_fixed thar_list fit_width lc_tol k
    = Raise ValueError.
Proof.
  intros Hall. unfold refine_thar_positions.
  rewrite (mapM_Ret _ (fun _ => None) (seq 0 (nrows wave_init))).
  - assert (Hnone : forall (l : list nat) T,
              omap id (map (fun _ : nat => @None T) l) = []).
    { intros l T. induction l; [reflexivity|]. simpl. exact IHl. }
    rewrite Hnone. reflexivity.
  - intros i Hi. apply elem_of_seq in Hi.
    destruct (lookup_lt_is_Some_2 (rows wave_init) i) as (w & Hw);
      [unfold nrows in Hi; lia|].
    destruct (Hall i w Hw) as (Hlines & (spec & Hspec) & (o & rest & Ho)).
    unfold refine_one_order, row_at, cell_i0.
    rewrite Hw, Hspec, Hlines, Ho. reflexivity.
Qed.
End RefineAlignment.

Lemma refine_order_aligned_witness :
  let popt := [[fzero; of_Z 100000; of_Z 2; f0_1]] in
  let pcov := [[fzero; fzero; fzero; fzero]] in
  refine_thar_positions_order (list float) splrep_ref splev_ref
    (fun v => v) power_ref curve_fit_ref
    [of_Z 1; of_Z 2; of_Z 3] [of_Z 0; of_Z 1; of_Z 2]
    [of_Z 5; of_Z 9; of_Z 5] [of_Z 2] (of_Z 40) (of_Z 5) (of_Z 5) 3
    = Ret (Some ([fzero], [fmul fone (of_Z 40)], [of_Z 2], popt, pcov)) /\
  length [fzero] = length [of_Z 2] /\
  length popt = length [of_Z 2] /\ length pcov = length [of_Z 2].
Proof.
  intros popt pcov.
  assert (Hrun : refine_thar_positions_order (list float) splrep_ref splev_ref
            (fun v => v) power_ref curve_fit_ref
            [of_Z 1; of_Z 2; of_Z 3] [of_Z 0; of_Z 1; of_Z 2]
            [of_Z 5; of_Z 9; of_Z 5] [of_Z 2] (of_Z 40) (of_Z 5) (of_Z 5) 3
            = Ret (Some ([fzero], [fmul fone (of_Z 40)], [of_Z 2], popt, pcov)))
    by (vm_compute; reflexivity).
  split; [exact Hrun|].
  destruct (refine_order_aligned (list float) splrep_ref splev_ref
              (fun v => v) power_ref curve_fit_ref splev_ref_length
              _ _ _ _ _ _ _ _ _ _ _ _ _ Hrun)
    as (_ & _ & H1 & _ & H3 & H4 & _).
  exact (conj H1 (conj H3 H4)).
Defined.

Lemma refine_thar_positions_aligned_witness :
  let lc_thar := [fdiv (of_Z 5) (of_Z 2); fdiv (of_Z 25) (of_Z 2)] in
  let popt := [[fzero; of_Z 100000; fdiv (of_Z 5) (of_Z 2); f0_1];
               [fzero; of_Z 100000; fdiv (of_Z 25) (of_Z 2); f0_1]] in
  let pcov := [[fzero; fzero; fzero; fzero]; [fzero; fzero; fzero; fzero]] in
  length [fzero; fzero] = length lc_thar /\
  length [fmul fone (of_Z 40); fmul fone (of_Z 41)] = length lc_thar /\
  length popt = length lc_thar /\ length pcov = length lc_thar /\
  lc_thar <> [] /\ lc_thar ⊆ lc_thar.
Proof.
  intros lc_thar popt pcov.
  apply (refine_thar_positions_aligned (list float) splrep_ref splev_ref
           (fun v => v) power_ref curve_fit_ref splev_ref_length
           (Array2 4 [[of_Z 1; of_Z 2; of_Z 3; of_Z 4];
                      [of_Z 11; of_Z 12; of_Z 13; of_Z 14]])
           (Array2 4 [[of_Z 40; of_Z 40; of_Z 40; of_Z 40];
                      [of_Z 41; of_Z 41; of_Z 41; of_Z 41]])
           (Array2 4 [[of_Z 5; of_Z 9; of_Z 5; of_Z 5];
                      [of_Z 5; of_Z 9; of_Z 5; of_Z 5]])
           lc_thar (of_Z 5) (of_Z 5) 3).
  vm_compute. reflexivity.
Defined.

Lemma refine_thar_positions_no_lines_witness :
  refine_thar_positions (list float) splrep_ref splev_ref
    (fun v => v) power_ref curve_fit_ref
    (Array2 4 [[of_Z 1; of_Z 2; of_Z 3; of_Z 4]])
    (Array2 4 [[of_Z 40; of_Z 40; of_Z 40; of_Z 40]])
    (Array2 4 [[of_Z 5; of_Z 9; of_Z 5; of_Z 5]])
    [of_Z 100; of_Z 3] (of_Z 5) (of_Z 5) 3
  = Raise ValueError.
Proof.
  apply (refine_thar_positions_no_lines (list float) splrep_ref splev_ref
           (fun v => v) power_ref curve_fit_ref).
  intros i w Hw. destruct i as [|i]; [|destruct i; discriminate].
  inversion Hw; subst w. split; [vm_compute; reflexivity|].
  split; [exists [of_Z 5; of_Z 9; of_Z 5; of_Z 5]; reflexivity|].
  exists (of_Z 40), [of_Z 40; of_Z 40; of_Z 40]. reflexivity.
Defined.

(** ** [polyval2d]: the terms that count *)

Section SurfaceProperties.
Variable np_power : float -> float -> float.

Lemma polyval2d_fold_ext (M : nat) (x y : list float) :
  forall (pairs : list (nat * nat)) (coefs coefs' : list float) (z : list float),
    length coefs = length coefs' ->
    (forall k a a' i j,
       coefs !! k = Some a -> coefs' !! k = Some a' ->
       pairs !! k = Some (i, j) -> (i + j < M)%nat -> a = a') ->
    fold_left
      (fun z '(a, (i, j)) =>
         if (i + j <? M)%nat
         then zip_with fadd z
                (zip_with fmul
                   (map (fun xv => fmul a (np_power xv (of_Z (Z.of_nat i)))) x)
                   (map (fun yv => np_power yv (of_Z (Z.of_nat j))) y))
         else z)
      (zip coefs pairs) z =
    fold_left
      (fun z '(a, (i, j)) =>
         if (i + j <? M)%nat
         then zip_with fadd z
                (zip_with fmul
                   (map (fun xv => fmul a (np_power xv (of_Z (Z.of_nat i)))) x)
                   (map (fun yv => np_power yv (of_Z (Z.of_nat j))) y))
         else z)
      (zip coefs' pairs) z.
Proof.
  induction pairs as [|[i j] pairs IH]; intros coefs coefs' z Hlen Hsame.
  - destruct coefs, coefs'; reflexivity.
  - destruct coefs as [|a coefs], coefs' as [|a' coefs']; try discriminate;
      [reflexivity|].
    simpl. destruct (Nat.ltb_spec (i + j) M) as [Hlt|Hge].
    + rewrite (Hsame 0%nat a a' i j eq_refl eq_refl eq_refl Hlt).
      apply IH; [simpl in Hlen; lia|].
      intros k b b' i' j' Hb Hb' Hp. apply (Hsame (S k) b b' i' j' Hb Hb' Hp).
    + apply IH; [simpl in Hlen; lia|].
      intros k b b' i' j' Hb Hb' Hp. apply (Hsame (S k) b b' i' j' Hb Hb' Hp).
Qed.

(** X15: with the degree pair [(orderx, ordery)] given, [polyval2d] uses
    the coefficient paired with [(i, j)] only when
    [i + j < max(orderx, ordery)]: two coefficient arrays of one length
    that agree on those coefficients give the same surface. *)
Theorem polyval2d_ignores_high_terms (x y coefs coefs' : list float)
    (orderx ordery : nat) :
  length coefs = length coefs' ->
  (forall k a a' i j,
     coefs !! k = Some a -> coefs' !! k = Some a' ->
     ij_product orderx ordery !! k = Some (i, j) ->
     (i + j < Nat.max orderx ordery)%nat -> a = a') ->
  polyval2d np_power x y (AFloat coefs) (Some (orderx, ordery)) =
  polyval2d np_power x y (AFloat coefs') (Some (orderx, ordery)).
Proof.
  intros Hlen Hsame. unfold polyval2d, polyval2d_terms. simpl. f_equal.
  apply polyval2d_fold_ext; assumption.
Qed.

Lemma length_polyval2d_terms (x y coefs : list float) (orders : nat * nat) :
  length y = length x ->
  length (polyval2d_terms np_power x y coefs orders) = length x.
Proof.
  intros Hxy. unfold polyval2d_terms. destruct orders as [orderx ordery].
  assert (H : forall (l : list (float * (nat * nat))) (z : list float),
            length z = length x ->
            length
              (fold_left
                 (fun z '(a, (i, j)) =>
                    if (i + j <? Nat.max orderx ordery)%nat
                    then zip_with fadd z
                           (zip_with fmul
                              (map (fun xv => fmul a (np_power xv (of_Z (Z.of_nat i)))) x)
                              (map (fun yv => np_power yv (of_Z (Z.of_nat j))) y))
                    else z) l z) = length x).
  { induction l as [|[a [i j]] l IH]; intros z Hz; [exact Hz|].
    simpl. apply IH. destruct (_ <? _)%nat; [|exact Hz].
    rewrite !length_zip_with, !length_map. lia. }
  apply H. apply length_map.
Qed.
End SurfaceProperties.

Lemma polyval2d_ignores_high_terms_witness :
  polyval2d power_ref [of_Z 2] [of_Z 3]
    (AFloat [of_Z 1; of_Z 2; of_Z 3; of_Z 4]) (Some (1, 1)%nat) =
  polyval2d power_ref [of_Z 2] [of_Z 3]
    (AFloat [of_Z 1; of_Z 7; of_Z 8; of_Z 9]) (Some (1, 1)%nat).
Proof.
  apply (polyval2d_ignores_high_terms power_ref [of_Z 2] [of_Z 3]
           [of_Z 1; of_Z 2; of_Z 3; of_Z 4] [of_Z 1; of_Z 7; of_Z 8; of_Z 9] 1 1).
  - reflexivity.
  - intros k a a' i j Ha Ha' Hp Hlt.
    destruct k as [|[|[|[|k]]]]; simpl in Hp; inversion Hp; subst; simpl in Hlt;
      try lia.
    simpl in Ha, Ha'. congruence.
Defined.

(** ** [grating_equation_predict] *)

Lemma length_flatten (a : array2) :
  rectangular a -> length (flatten a) = (nrows a * ncols a)%nat.
Proof.
  destruct a as [m rs]. unfold rectangular, flatten, nrows. simpl.
  induction 1 as [|r rs Hr _ IH]; [reflexivity|].
  simpl. rewrite length_app, Hr, IH. reflexivity.
Qed.

Lemma chunks_shape (n m : nat) :
  forall flat : list float, length flat = (n * m)%nat ->
    length (chunks n m flat) = n /\
    Forall (fun r => length r = m) (chunks n m flat).
Proof.
  induction n as [|n IH]; intros flat Hlen; [split; [reflexivity|constructor]|].
  simpl. destruct (IH (drop m flat)) as [H1 H2].
  { rewrite length_drop. simpl in Hlen. lia. }
  split; [rewrite H1; reflexivity|].
  constructor; [|exact H2]. rewrite length_take. simpl in Hlen. lia.
Qed.

Lemma stretch_same {A} (n : nat) (l : list A) : length l = n -> stretch n l = l.
Proof.
  destruct l as [|a [|b l]]; try reflexivity. intros <-. reflexivity.
Qed.

Section PredictProperties.
Variable np_power : float -> float -> float.

(** X16: on two rectangular grids of one shape
    [grating_equation_predict] returns, and the prediction has the shape
    of the grids. *)
Theorem grating_equation_predict_shape (grid_coord grid_order : array2)
    (x_mini_lsq : list float) (poly_order : nat * nat)
    (scaler_coord scaler_order scaler_ml : float * float) :
  rectangular grid_coord -> rectangular grid_order ->
  nrows grid_order = nrows grid_coord -> ncols grid_order = ncols grid_coord ->
  exists out,
    grating_equation_predict np_power grid_coord grid_order x_mini_lsq
      poly_order scaler_coord scaler_order scaler_ml = Ret out /\
    nrows out = nrows grid_coord /\ ncols out = ncols grid_coord /\
    rectangular out.
Proof.
  intros Hc Ho Hn Hm. unfold grating_equation_predict.
  assert (Hlen : length (flatten grid_order) = length (flatten grid_coord))
    by (rewrite !length_flatten, Hn, Hm by assumption; reflexivity).
  rewrite Hlen, Nat.eqb_refl. simpl.
  rewrite (stretch_same _ _ Hlen).
  unfold reshape.
  rewrite length_zip_with, length_map, length_polyval2d_terms
    by (rewrite !length_map; exact Hlen).
  rewrite length_map, Hlen, Nat.min_id, (length_flatten _ Hc), Nat.eqb_refl.
  eexists. split; [reflexivity|].
  match goal with
  | |- context [chunks ?n ?m ?f] =>
      destruct (chunks_shape n m f) as [H1 H2]
  end.
  { rewrite length_zip_with, length_map, length_polyval2d_terms
      by (rewrite !length_map; exact Hlen).
    rewrite length_map, Hlen, Nat.min_id. apply length_flatten. exact Hc. }
  unfold nrows at 1. unfold rectangular. simpl. auto.
Qed.

(** X17: the predictor agrees with the fit on the fitted lines.  With the
    coordinates and orders of the lines as one-row grids, and the scalers
    [standardize] computed for them, [grating_equation_predict] returns
    the wavelengths [fitted_wave] that [fit_grating_equation] compares
    with the catalogue when it rejects lines. *)
Theorem predict_reproduces_fitted_wave
    (np_nanmean np_nanstd : list float -> float)
    (coord order lc_thar x : list float) (poly_order : nat * nat)
    (ml_mean ml_std : float) (l1 l2 l3 l4 : positive) :
  length order = length coord ->
  let '(coord_s, coord_mean, coord_std) := standardize np_nanmean np_nanstd coord in
  let '(order_s, order_mean, order_std) := standardize np_nanmean np_nanstd order in
  let lv := Locals coord_s order_s ml_mean ml_std l1 l2 l3 l4 in
  grating_equation_predict np_power
    (Array2 (length coord) [coord]) (Array2 (length coord) [order])
    x poly_order (coord_mean, coord_std) (order_mean, order_std)
    (ml_mean, ml_std)
  = Ret (Array2 (length coord)
           [fst (wave_diff np_power poly_order lv x order lc_thar)]).
Proof.
  intros Hlen. unfold standardize, grating_equation_predict, wave_diff,
    standardize_inverse, flatten, polyval2d, reshape, nrows. simpl.
  rewrite !app_nil_r, Hlen, Nat.eqb_refl. simpl.
  rewrite (stretch_same _ _ Hlen).
  rewrite length_zip_with, length_map, length_polyval2d_terms
    by (rewrite !length_map; exact Hlen).
  rewrite length_map, Hlen, Nat.min_id, Nat.add_0_r, Nat.eqb_refl.
  rewrite take_ge; [reflexivity|].
  rewrite length_zip_with, length_map, length_polyval2d_terms
    by (rewrite !length_map; exact Hlen).
  lia.
Qed.
End PredictProperties.

Lemma grating_equation_predict_shape_witness :
  exists out,
    grating_equation_predict power_ref
      (Array2 2 [[of_Z 0; of_Z 1]; [of_Z 0; of_Z 1]])
      (Array2 2 [[of_Z 40; of_Z 40]; [of_Z 41; of_Z 41]])
      [of_Z 1; of_Z 2; of_Z 3; of_Z 4] (1, 1)%nat
      (fzero, fone) (of_Z 40, fone) (of_Z 5000, of_Z 10) = Ret out /\
    nrows out = 2%nat /\ ncols out = 2%nat /\ rectangular out.
Proof.
  apply (grating_equation_predict_shape power_ref
           (Array2 2 [[of_Z 0; of_Z 1]; [of_Z 0; of_Z 1]])
           (Array2 2 [[of_Z 40; of_Z 40]; [of_Z 41; of_Z 41]])
           [of_Z 1; of_Z 2; of_Z 3; of_Z 4] (1, 1)%nat
           (fzero, fone) (of_Z 40, fone) (of_Z 5000, of_Z 10));
    try reflexivity; repeat constructor.
Defined.

Lemma predict_reproduces_fitted_wave_witness :
  let coord := [of_Z 10; of_Z 20; of_Z 30; of_Z 40] in
  let order := [of_Z 1; of_Z 1; of_Z 2; of_Z 2] in
  let lc_thar := [of_Z 5000; of_Z 5100; of_Z 2500; of_Z 9999] in
  let x := replicate 15 fone in
  let '(coord_s, coord_mean, coord_std) := standardize nanmean_ref nanstd_ref coord in
  let '(order_s, order_mean, order_std) := standardize nanmean_ref nanstd_ref order in
  let lv := Locals coord_s order_s (of_Z 8000) (of_Z 6000)
              2%positive 3%positive 4%positive 5%positive in
  grating_equation_predict power_ref
    (Array2 (length coord) [coord]) (Array2 (length coord) [order])
    x (3, 5)%nat (coord_mean, coord_std) (order_mean, order_std)
    (of_Z 8000, of_Z 6000)
  = Ret (Array2 (length coord)
           [fst (wave_diff power_ref (3, 5)%nat lv x order lc_thar)]).
Proof.
  intros coord order lc_thar x.
  apply (predict_reproduces_fitted_wave power_ref nanmean_ref nanstd_ref
           coord order lc_thar x (3, 5)%nat (of_Z 8000) (of_Z 6000)
           2%positive 3%positive 4%positive 5%positive).
  reflexivity.
Defined.

(** ** [polyfit_reject] *)

(** *** [np.nanargmax] among entries above [-inf] *)

Lemma above_ninf_not_nan (v : float) :
  flt (S754_infinity true) v = true -> isnan v = false.
Proof. destruct v; try reflexivity. discriminate. Qed.

Lemma above_ninf_up (a b : float) :
  flt a b = true -> flt (S754_infinity true) b = true.
Proof.
  destruct a as [s|s| |s m e], b as [s'|[]| |s' m' e']; try reflexivity;
    try discriminate; destruct s; discriminate.
Qed.

Lemma above_ninf_keep (a b : float) :
  isnan a = false -> flt a b = false ->
  flt (S754_infinity true) b = true -> flt (S754_infinity true) a = true.
Proof.
  destruct a as [s|[]| |s m e]; try reflexivity; try discriminate.
  intros _ H1 H2. rewrite H2 in H1. discriminate.
Qed.

Lemma argmax_from_above (full : list float) :
  forall (l : list float) (best : nat) (bv : float) (k : nat),
    full !! best = Some bv ->
    (forall j v, l !! j = Some v -> full !! (k + j)%nat = Some v) ->
    isnan bv = false -> (forall v, v ∈ l -> isnan v = false) ->
    exists p, full !! argmax_from best bv k l = Some p /\
      (flt (S754_infinity true) bv = true -> flt (S754_infinity true) p = true) /\
      (forall v, v ∈ l -> flt (S754_infinity true) v = true ->
         flt (S754_infinity true) p = true).
Proof.
  induction l as [|v t IH]; intros best bv k Hb Hl Nb Nl; simpl.
  - exists bv. split; [exact Hb|]. split; [auto|]. intros v Hv. inversion Hv.
  - assert (Nv : isnan v = false) by (apply Nl; left).
    assert (Hk : full !! k = Some v).
    { specialize (Hl 0%nat v eq_refl). rewrite Nat.add_0_r in Hl. exact Hl. }
    assert (Ht : forall j u, t !! j = Some u -> full !! (S k + j)%nat = Some u).
    { intros j u Hj. specialize (Hl (S j) u Hj).
      replace (S k + j)%nat with (k + S j)%nat by lia. exact Hl. }
    assert (Nt : forall u, u ∈ t -> isnan u = false)
      by (intros u Hu; apply Nl; right; exact Hu).
    destruct (flt bv v) eqn:L.
    + destruct (IH k v (S k) Hk Ht Nv Nt) as (p & Hp & Hv & Hrest).
      exists p. split; [exact Hp|]. split.
      * intros _. apply Hv. exact (above_ninf_up _ _ L).
      * intros u Hu Hpos. apply elem_of_cons in Hu as [->|Hu]; [auto|].
        exact (Hrest u Hu Hpos).
    + destruct (IH best bv (S k) Hb Ht Nb Nt) as (p & Hp & Hbv & Hrest).
      exists p. split; [exact Hp|]. split; [exact Hbv|].
      intros u Hu Hpos. apply elem_of_cons in Hu as [->|Hu].
      * apply Hbv. exact (above_ninf_keep _ _ Nb L Hpos).
      * exact (Hrest u Hu Hpos).
Qed.

(** Among entries of which one is a number above [-inf], [nanargmax]
    picks an entry that is not NaN. *)
Lemma nanargmax_not_nan (a : list float) (i : nat) (q : float) :
  q ∈ a -> flt (S754_infinity true) q = true ->
  nanargmax a = Ret i ->
  exists p, a !! i = Some p /\ isnan p = false.
Proof.
  intros Hq Hqpos Hi. unfold nanargmax in Hi.
  destruct (forallb isnan a); [discriminate|].
  set (clean := fun v : float => if isnan v then S754_infinity true else v) in *.
  assert (Hclean : forall v, isnan (clean v) = false).
  { intros v. unfold clean. destruct (isnan v) eqn:N; [reflexivity|exact N]. }
  assert (Hkeep : forall v, flt (S754_infinity true) v = true -> clean v = v).
  { intros v Hv. unfold clean. rewrite (above_ninf_not_nan v Hv). reflexivity. }
  assert (Hback : forall v, flt (S754_infinity true) (clean v) = true ->
            isnan v = false).
  { intros v. unfold clean. destruct (isnan v); [discriminate|reflexivity]. }
  destruct a as [|v t]; [inversion Hq|].
  simpl in Hi. inversion Hi as [Hi']. clear Hi.
  assert (H1 : forall j u, map clean t !! j = Some u ->
                 map clean (v :: t) !! (1 + j)%nat = Some u)
    by (intros j u Hj; exact Hj).
  assert (H2 : forall u, u ∈ map clean t -> isnan u = false).
  { intros u Hu. apply list_elem_of_fmap in Hu as (u' & -> & _). apply Hclean. }
  destruct (argmax_from_above (map clean (v :: t)) (map clean t) 0%nat
              (clean v) 1%nat eq_refl H1 (Hclean v) H2) as (p & Hp & Hv & Hrest).
  assert (Hpos : flt (S754_infinity true) p = true).
  { apply elem_of_cons in Hq as [->|Hq].
    - apply Hv. rewrite (Hkeep _ Hqpos). exact Hqpos.
    - apply (Hrest (clean q)).
      + apply list_elem_of_fmap. exists q. auto.
      + rewrite (Hkeep _ Hqpos). exact Hqpos. }
  rewrite Hi' in Hp. rewrite list_lookup_fmap in Hp.
  destruct ((v :: t) !! i) as [u|] eqn:Hu; [|discriminate].
  simpl in Hp. inversion Hp; subst p.
  exists u. rewrite Hi'. split; [exact Hu|]. apply Hback. exact Hpos.
Qed.

(** *** Counting the reserved points *)

Lemma count_true_insert_false (ind : list bool) (i : nat) :
  count_true ind - 1 <= count_true (<[i := false]> ind) <= count_true ind.
Proof.
  revert i. induction ind as [|b ind IH]; intros i.
  - simpl. unfold count_true. simpl. lia.
  - destruct i as [|i]; simpl.
    + rewrite !count_true_cons. destruct b; lia.
    + rewrite !count_true_cons. specialize (IH i). lia.
Qed.

Lemma count_true_reject (ind : list bool) (i : nat) :
  ind !! i = Some true ->
  count_true (<[i := false]> ind) = count_true ind - 1.
Proof.
  revert i. induction ind as [|b ind IH]; intros i Hi; [inversion Hi|].
  destruct i as [|i]; simpl in *.
  - inversion Hi; subst. rewrite !count_true_cons. lia.
  - rewrite !count_true_cons, (IH i Hi). lia.
Qed.

Lemma count_true_bounds (ind : list bool) :
  0 <= count_true ind <= Z.of_nat (length ind).
Proof.
  induction ind as [|b ind IH]; [unfold count_true; simpl; lia|].
  rewrite count_true_cons. simpl length. destruct b; lia.
Qed.

Lemma count_true_all (n : nat) :
  count_true (replicate n true) = Z.of_nat n.
Proof.
  induction n as [|n IH]; [reflexivity|].
  simpl replicate. rewrite count_true_cons, IH. lia.
Qed.

Lemma mask_index_all_true {A B} (a : list A) (x : list B) (out : list A) :
  mask_index a (map (fun _ => true) x) = Ret out ->
  out = a /\ length a = length x.
Proof.
  unfold mask_index. rewrite length_map.
  destruct (Nat.eqb_spec (length a) (length x)) as [Hlen|]; [|discriminate].
  intros H. inversion H; subst; clear H. split; [|exact Hlen].
  revert x Hlen. induction a as [|v a IH]; intros [|u x] Hlen;
    try discriminate; [reflexivity|].
  cbn [map zip_with]. rewrite filter_cons. cbn [snd].
  rewrite decide_True by reflexivity. rewrite fmap_cons. cbn [fst].
  f_equal. apply IH. simpl in Hlen. lia.
Qed.

Lemma fabs_above_ninf (r e : float) :
  fgt (fabs r) e = true -> flt (S754_infinity true) (fabs r) = true.
Proof.
  unfold fgt. destruct r as [s|s| |s m e']; simpl; try reflexivity.
  all: destruct e as [s2|s2| |s2 m2 e2]; try destruct s2; discriminate.
Qed.

Lemma fabs_not_nan (r : float) : isnan (fabs r) = false -> isnan r = false.
Proof. destruct r; auto. Qed.

Section PolyfitRejectProperties.
Variable leastsq :
  (list float -> list float) -> list float -> outcome (list float).
Variable np_polyfit :
  list float -> list float -> nat -> list float -> outcome (list float).

(** The point a pass rejects is a reserved one: rejected points have no
    weight, so their residual is NaN and [nanargmax] passes them over. *)
Lemma rejected_is_reserved (p0 x_ y_ w_ : list float) (epsilon : float)
    (ind : list bool) (bad_reserved : list bool) (i : nat) :
  length w_ = length ind ->
  (forall k, ind !! k = Some false ->
     exists wv, w_ !! k = Some wv /\ fgt wv fzero = false) ->
  mask_index (map (fun r => fgt (fabs r) epsilon)
                  (weighted_residuals p0 x_ y_ w_)) ind = Ret bad_reserved ->
  existsb (fun b : bool => b) bad_reserved = true ->
  nanargmax (map fabs (weighted_residuals p0 x_ y_ w_)) = Ret i ->
  ind !! i = Some true.
Proof.
  intros Hlen Hinv Hmask Hany Harg.
  apply existsb_exists in Hany as (b & Hb & ->).
  apply list_elem_of_In in Hb.
  apply mask_index_subseteq in Hmask. apply Hmask in Hb.
  apply list_elem_of_fmap in Hb as (r & Hr & Hin). symmetry in Hr.
  assert (Hmem : fabs r ∈ map fabs (weighted_residuals p0 x_ y_ w_))
    by (apply list_elem_of_fmap; exists r; auto).
  destruct (nanargmax_not_nan _ i (fabs r) Hmem
              (fabs_above_ninf _ _ Hr) Harg) as (p & Hp & Np).
  rewrite list_lookup_fmap in Hp.
  destruct (weighted_residuals p0 x_ y_ w_ !! i) as [ri|] eqn:Hri; [|discriminate].
  simpl in Hp. inversion Hp; subst p. apply fabs_not_nan in Np.
  unfold weighted_residuals in Hri. rewrite lookup_zip_with in Hri.
  destruct (w_ !! i) as [wv|] eqn:Hw; [|discriminate]. simpl in Hri.
  destruct (zip_with fsub y_ (map (np_polyval p0) x_) !! i) as [d|]; [|discriminate].
  simpl in Hri. inversion Hri as [Hri']. clear Hri.
  destruct (fgt wv fzero) eqn:Hpos; [|subst ri; discriminate].
  destruct (ind !! i) as [[]|] eqn:Hi.
  - reflexivity.
  - destruct (Hinv i Hi) as (wv' & Hw' & Hz). rewrite Hw in Hw'.
    inversion Hw'; subst. congruence.
  - apply lookup_ge_None in Hi. apply lookup_lt_Some in Hw. lia.
Qed.

Lemma reject_loop_terminates (x_ y_ : list float) (deg : nat)
    (epsilon : float) (n_reserve : Z) :
  forall (fuel : nat) (ind : list bool) (w_ : list float),
    length w_ = length ind ->
    (forall k, ind !! k = Some false ->
       exists wv, w_ !! k = Some wv /\ fgt wv fzero = false) ->
    count_true ind < Z.of_nat fuel ->
    is_Some (reject_loop leastsq fuel x_ y_ deg epsilon n_reserve ind w_).
Proof.
  induction fuel as [|fuel IH]; intros ind w_ Hlen Hinv Hfuel.
  - pose proof (count_true_bounds ind). lia.
  - simpl. destruct (n_reserve <? count_true ind); [|eexists; reflexivity].
    destruct (reserved_fit leastsq x_ y_ w_ deg ind) as [p0|e];
      [|eexists; reflexivity].
    destruct (mask_index _ ind) as [bad_reserved|e] eqn:Hmask;
      [|eexists; reflexivity].
    destruct (existsb _ bad_reserved) eqn:Hany; [|eexists; reflexivity].
    destruct (nanargmax _) as [i|e] eqn:Harg; [|eexists; reflexivity].
    destruct (Nat.ltb_spec i (length ind)) as [Hi|Hi]; [|eexists; reflexivity].
    pose proof (rejected_is_reserved _ _ _ _ _ _ _ _ Hlen Hinv Hmask Hany Harg)
      as Hres.
    apply IH.
    + rewrite !length_insert. exact Hlen.
    + intros k Hk. destruct (decide (k = i)) as [->|Hne].
      * exists fzero. split; [|reflexivity].
        apply list_lookup_insert_eq. lia.
      * rewrite list_lookup_insert_ne in Hk by auto.
        rewrite list_lookup_insert_ne by auto. apply Hinv. exact Hk.
    + rewrite (count_true_reject _ _ Hres). lia.
Qed.

(** X18: the loop of [polyfit_reject] ends: every pass that does not
    leave the loop takes one more point out of the reserved ones, so
    after at most [len(x)] rejections the function returns or raises,
    whatever the solvers return. *)
Theorem polyfit_reject_terminates (x y : list float) (deg : nat)
    (w : option (list float)) (epsilon : float) (n_reserve : Z) :
  is_Some (polyfit_reject leastsq np_polyfit x y deg w epsilon n_reserve).
Proof.
  unfold polyfit_reject.
  destruct (mask_index x _) as [x_|e] eqn:Hx; [|eexists; reflexivity].
  destruct (mask_index y _) as [y_|e] eqn:Hy; [|eexists; reflexivity].
  destruct (mask_index (default _ w) _) as [w_|e] eqn:Hw; [|eexists; reflexivity].
  apply mask_index_all_true in Hx as [-> _].
  apply mask_index_all_true in Hw as [-> Hwlen].
  destruct (reject_loop_terminates x y_ deg epsilon n_reserve (S (length x))
              (map (fun _ => true) x) (default (map (fun _ => fone) x) w))
    as (r & ->).
  - rewrite length_map. exact Hwlen.
  - intros k Hk. rewrite list_lookup_fmap in Hk.
    destruct (x !! k); discriminate.
  - pose proof (count_true_bounds (map (fun _ : float => true) x)) as Hb.
    rewrite length_map in Hb. lia.
  - destruct r as [[ind w_']|e]; [|eexists; reflexivity].
    destruct (mask_index x ind); [|eexists; reflexivity].
    destruct (mask_index y_ ind); [|eexists; reflexivity].
    destruct (mask_index w_' ind); [|eexists; reflexivity].
    destruct (np_polyfit _ _ _ _); eexists; reflexivity.
Qed.

Lemma reject_loop_keeps_reserve (x_ y_ : list float) (deg : nat)
    (epsilon : float) (n_reserve : Z) :
  forall (fuel : nat) (ind : list bool) (w_ : list float)
         (ind' : list bool) (w_' : list float),
    w_ = map of_bool ind ->
    reject_loop leastsq fuel x_ y_ deg epsilon n_reserve ind w_
      = Some (Ret (ind', w_')) ->
    w_' = map of_bool ind' /\ length ind' = length ind /\
    Z.min n_reserve (count_true ind) <= count_true ind' /\
    forall k, ind' !! k = Some true -> ind !! k = Some true.
Proof.
  induction fuel as [|fuel IH]; intros ind w_ ind' w_' Hw Hrun; [discriminate|].
  simpl in Hrun.
  destruct (Z.ltb_spec n_reserve (count_true ind)) as [Hlt|Hge].
  2: { inversion Hrun; subst. split; [reflexivity|]. split; [reflexivity|].
       split; [lia|auto]. }
  destruct (reserved_fit leastsq x_ y_ w_ deg ind) as [p0|e]; [|discriminate].
  destruct (mask_index _ ind) as [bad_reserved|e]; [|discriminate].
  destruct (existsb _ bad_reserved).
  2: { inversion Hrun; subst. split; [reflexivity|]. split; [reflexivity|].
       split; [lia|auto]. }
  destruct (nanargmax _) as [i|e]; [|discriminate].
  destruct (Nat.ltb_spec i (length ind)) as [Hi|Hi]; [|discriminate].
  apply IH in Hrun as (Hw' & Hlen & Hcount & Hsub).
  - split; [exact Hw'|]. rewrite length_insert in Hlen. split; [exact Hlen|].
    pose proof (count_true_insert_false ind i). split; [lia|].
    intros k Hk. specialize (Hsub k Hk).
    destruct (decide (k = i)) as [->|Hne].
    + rewrite list_lookup_insert_eq in Hsub by lia. discriminate.
    + rewrite list_lookup_insert_ne in Hsub by auto. exact Hsub.
  - subst w_. rewrite list_fmap_insert. reflexivity.
Qed.

(** X19: with the default weights, [polyfit_reject] returns a mask of the
    length of [x] in which at least [min(n_reserve, len(x))] points are
    kept: rejection stops before the reserve is touched. *)
Theorem polyfit_reject_keeps_reserve (x y : list float) (deg : nat)
    (epsilon : float) (n_reserve : Z) (p : list float) (mask : list bool) :
  polyfit_reject leastsq np_polyfit x y deg None epsilon n_reserve
    = Some (Ret (p, mask)) ->
  length mask = length x /\
  Z.min n_reserve (Z.of_nat (length x)) <= count_true mask.
Proof.
  unfold polyfit_reject.
  change (default (map (fun _ : float => fone) x) None)
    with (map (fun _ : float => fone) x).
  destruct (mask_index x _) as [x_|e] eqn:Hx; [|discriminate].
  destruct (mask_index y _) as [y_|e] eqn:Hy; [|discriminate].
  destruct (mask_index (map (fun _ : float => fone) x) _) as [w_|e] eqn:Hw;
    [|discriminate].
  apply mask_index_all_true in Hx as [-> _].
  apply mask_index_all_true in Hw as [-> _].
  destruct (reject_loop _ _ _ _ _ _ _ _ _) as [[[ind w_']|e]|] eqn:Hloop;
    try discriminate.
  apply reject_loop_keeps_reserve in Hloop as (-> & Hlen & Hcount & _).
  2: { rewrite map_map. reflexivity. }
  destruct (mask_index x ind); [|discriminate].
  destruct (mask_index y_ ind); [|discriminate].
  destruct (mask_index (map of_bool ind) ind); [|discriminate].
  destruct (np_polyfit _ _ _ _); [|discriminate].
  intros H. inversion H; subst; clear H.
  assert (Hmask : map (fun v => fgt v fzero) (map of_bool ind) = ind).
  { rewrite map_map. rewrite <- (map_id ind) at 2. apply map_ext.
    intros []; reflexivity. }
  rewrite Hmask. rewrite length_map in Hlen. split; [exact Hlen|].
  assert (Hall : count_true (map (fun _ : float => true) x) = Z.of_nat (length x)).
  { clear. induction x as [|v x IH]; [reflexivity|].
    simpl map. rewrite count_true_cons, IH. simpl length. lia. }
  rewrite Hall in Hcount. exact Hcount.
Qed.
End PolyfitRejectProperties.

Lemma polyfit_reject_keeps_reserve_witness :
  length [true; false; true; true] = length [of_Z 1; of_Z 2; of_Z 3; of_Z 4] /\
  Z.min 3 (Z.of_nat (length [of_Z 1; of_Z 2; of_Z 3; of_Z 4]))
    <= count_true [true; false; true; true].
Proof.
  apply (polyfit_reject_keeps_reserve leastsq_ref
           (fun _ _ deg _ => Ret (replicate (deg + 1) fzero))
           [of_Z 1; of_Z 2; of_Z 3; of_Z 4] [fzero; of_Z 5; fzero; fzero] 1
           (fdiv (of_Z 2) (of_Z 1000)) 3 [fzero; fzero]
           [true; false; true; true]).
  vm_compute. reflexivity.
Defined.

(** ** Order of float64 values *)

Lemma lex_compare_trans (o : comparison) (e1 e2 e3 : Z) (m1 m2 m3 : positive) :
  o <> Eq ->
  match e1 ?= e2 with Lt => Lt | Gt => Gt | Eq => Pos.compare_cont Eq m1 m2 end = o ->
  match e2 ?= e3 with Lt => Lt | Gt => Gt | Eq => Pos.compare_cont Eq m2 m3 end = o ->
  match e1 ?= e3 with Lt => Lt | Gt => Gt | Eq => Pos.compare_cont Eq m1 m3 end = o.
Proof.
  intros Ho.
  change (Pos.compare_cont Eq m1 m2) with (m1 ?= m2)%positive.
  change (Pos.compare_cont Eq m2 m3) with (m2 ?= m3)%positive.
  change (Pos.compare_cont Eq m1 m3) with (m1 ?= m3)%positive.
  destruct (Z.compare_spec e1 e2) as [H12|H12|H12];
    destruct (Z.compare_spec e2 e3) as [H23|H23|H23];
    destruct (Z.compare_spec e1 e3) as [H13|H13|H13]; try lia;
    intros <-; try congruence; intros H; try congruence.
  all: destruct (Pos.compare_spec m1 m2) as [M12|M12|M12];
    destruct (Pos.compare_spec m2 m3) as [M23|M23|M23];
    destruct (Pos.compare_spec m1 m3) as [M13|M13|M13]; try lia; try congruence.
Qed.

Lemma flt_trans (a b c : float) :
  flt a b = true -> flt b c = true -> flt a c = true.
Proof.
  unfold flt, SFltb.
  destruct a as [sa|sa| |sa ma ea], b as [sb|sb| |sb mb eb],
    c as [sc|sc| |sc mc ec]; simpl; try congruence;
    repeat match goal with s : bool |- _ => destruct s end; simpl;
    try congruence.
  - intros H1 H2.
    assert (H : match ea ?= ec with
                | Lt => Lt | Gt => Gt | Eq => Pos.compare_cont Eq ma mc end = Gt).
    { apply (lex_compare_trans Gt ea eb ec ma mb mc); [discriminate| |].
      - destruct (ea ?= eb); try congruence.
        destruct (Pos.compare_cont Eq ma mb); simpl in H1; congruence.
      - destruct (eb ?= ec); try congruence.
        destruct (Pos.compare_cont Eq mb mc); simpl in H2; congruence. }
    destruct (ea ?= ec); try congruence. rewrite H. reflexivity.
  - intros H1 H2.
    assert (H : match ea ?= ec with
                | Lt => Lt | Gt => Gt | Eq => Pos.compare_cont Eq ma mc end = Lt).
    { apply (lex_compare_trans Lt ea eb ec ma mb mc); [discriminate| |].
      - destruct (ea ?= eb); try congruence.
        destruct (Pos.compare_cont Eq ma mb); congruence.
      - destruct (eb ?= ec); try congruence.
        destruct (Pos.compare_cont Eq mb mc); congruence. }
    destruct (ea ?= ec); try congruence. rewrite H. reflexivity.
Qed.

Lemma lex_compare_lt_le (o : comparison) (e1 e2 e3 : Z) (m1 m2 m3 : positive) :
  o <> Eq ->
  match e1 ?= e2 with Lt => Lt | Gt => Gt | Eq => Pos.compare_cont Eq m1 m2 end = o ->
  match e3 ?= e2 with Lt => Lt | Gt => Gt | Eq => Pos.compare_cont Eq m3 m2 end <> o ->
  match e1 ?= e3 with Lt => Lt | Gt => Gt | Eq => Pos.compare_cont Eq m1 m3 end = o.
Proof.
  intros Ho.
  change (Pos.compare_cont Eq m1 m2) with (m1 ?= m2)%positive.
  change (Pos.compare_cont Eq m3 m2) with (m3 ?= m2)%positive.
  change (Pos.compare_cont Eq m1 m3) with (m1 ?= m3)%positive.
  destruct (Z.compare_spec e1 e2) as [H12|H12|H12];
    destruct (Z.compare_spec e3 e2) as [H23|H23|H23];
    destruct (Z.compare_spec e1 e3) as [H13|H13|H13]; try lia;
    intros <-; try congruence; intros H; try congruence.
  all: destruct (Pos.compare_spec m1 m2) as [M12|M12|M12];
    destruct (Pos.compare_spec m3 m2) as [M23|M23|M23];
    destruct (Pos.compare_spec m1 m3) as [M13|M13|M13]; try lia; try congruence.
Qed.

Lemma flt_lt_le_trans (a b c : float) :
  flt a b = true -> flt c b = false -> isnan c = false -> flt a c = true.
Proof.
  unfold flt, SFltb.
  destruct a as [sa|sa| |sa ma ea], b as [sb|sb| |sb mb eb],
    c as [sc|sc| |sc mc ec]; simpl; try congruence;
    repeat match goal with s : bool |- _ => destruct s end; simpl;
    try congruence.
  - intros H1 H2 _.
    assert (H : match ea ?= ec with
                | Lt => Lt | Gt => Gt | Eq => Pos.compare_cont Eq ma mc end = Gt).
    { apply (lex_compare_lt_le Gt ea eb ec ma mb mc); [discriminate| |].
      - destruct (ea ?= eb); try congruence.
        destruct (Pos.compare_cont Eq ma mb); simpl in H1; congruence.
      - destruct (ec ?= eb); try congruence.
        destruct (Pos.compare_cont Eq mc mb); simpl in H2; congruence. }
    destruct (ea ?= ec); try congruence. rewrite H. reflexivity.
  - intros H1 H2 _.
    assert (H : match ea ?= ec with
                | Lt => Lt | Gt => Gt | Eq => Pos.compare_cont Eq ma mc end = Lt).
    { apply (lex_compare_lt_le Lt ea eb ec ma mb mc); [discriminate| |].
      - destruct (ea ?= eb); try congruence.
        destruct (Pos.compare_cont Eq ma mb); congruence.
      - destruct (ec ?= eb); try congruence.
        destruct (Pos.compare_cont Eq mc mb); congruence. }
    destruct (ea ?= ec); try congruence. rewrite H. reflexivity.
Qed.

Lemma flt_feq_l (a b v : float) : feq a b = true -> flt a v = flt b v.
Proof.
  unfold feq, SFeqb, flt, SFltb.
  destruct a as [sa|sa| |sa ma ea], b as [sb|sb| |sb mb eb]; simpl;
    try congruence;
    repeat match goal with s : bool |- _ => destruct s end; simpl;
    try congruence; try (destruct v as [?|[]| |[] ? ?]; reflexivity).
  - destruct (Z.compare_spec ea eb) as [->|_|_]; try discriminate.
    change (Pos.compare_cont Eq ma mb) with (ma ?= mb)%positive.
    destruct (Pos.compare_spec ma mb) as [->|_|_]; try discriminate. reflexivity.
  - destruct (Z.compare_spec ea eb) as [->|_|_]; try discriminate.
    change (Pos.compare_cont Eq ma mb) with (ma ?= mb)%positive.
    destruct (Pos.compare_spec ma mb) as [->|_|_]; try discriminate. reflexivity.
Qed.

(** ** [thar1d_corr2d]: the returned shift *)

Lemma fmax_not_nan (a b : float) :
  isnan (fmax a b) = false ->
  isnan a = false /\ isnan b = false /\ fmax a b = (if flt a b then b else a).
Proof.
  unfold fmax. destruct (isnan a) eqn:Na; [congruence|].
  destruct (isnan b) eqn:Nb; [congruence|]. auto.
Qed.

(** A maximum that is not NaN bounds every entry, and no entry is NaN. *)
Lemma fold_fmax_bound (l : list float) :
  forall acc, isnan (fold_left fmax l acc) = false ->
    isnan acc = false /\ flt (fold_left fmax l acc) acc = false /\
    forall v, v ∈ l ->
      isnan v = false /\ flt (fold_left fmax l acc) v = false.
Proof.
  induction l as [|v t IH]; intros acc HR; simpl in *.
  - split; [exact HR|]. split; [apply flt_irrefl|]. intros v Hv. inversion Hv.
  - destruct (IH _ HR) as (Hn & Hacc & Ht).
    destruct (fmax_not_nan _ _ Hn) as (Na & Nv & Hm).
    split; [exact Na|].
    set (R := fold_left fmax t (fmax acc v)) in *.
    rewrite Hm in Hacc.
    destruct (flt acc v) eqn:L.
    + assert (HRacc : flt R acc = false).
      { destruct (flt R acc) eqn:E; [|reflexivity].
        rewrite (flt_trans _ _ _ E L) in Hacc. discriminate. }
      split; [exact HRacc|].
      intros u Hu. apply elem_of_cons in Hu as [->|Hu]; [auto|]. apply Ht, Hu.
    + split; [exact Hacc|].
      intros u Hu. apply elem_of_cons in Hu as [->|Hu]; [|apply Ht, Hu].
      split; [exact Nv|].
      destruct (flt R v) eqn:E; [|reflexivity].
      rewrite (flt_lt_le_trans _ _ _ E L Na) in Hacc. discriminate.
Qed.

Lemma np_max_bound (a : list float) (mx : float) :
  np_max a = Ret mx -> isnan mx = false ->
  forall v, v ∈ a -> isnan v = false /\ flt mx v = false.
Proof.
  destruct a as [|v0 t]; [discriminate|]. simpl. intros H N. inversion H; subst.
  destruct (fold_fmax_bound t v0 N) as (N0 & H0 & Ht).
  intros v Hv. apply elem_of_cons in Hv as [->|Hv]; [auto|]. apply Ht, Hv.
Qed.

Lemma set_cell_shape (R C : nat) (m : list (list float)) (r c : nat) (v : float) :
  length m = R /\ Forall (fun row => length row = C) m ->
  length (set_cell m r c v) = R /\
  Forall (fun row => length row = C) (set_cell m r c v).
Proof.
  intros [H1 H2]. unfold set_cell. split; [rewrite length_alter; exact H1|].
  apply Forall_alter; [exact H2|]. intros row _ Hrow.
  rewrite length_insert. exact Hrow.
Qed.

Lemma fold_outcome_inv {A B} (P : A -> Prop) (f : outcome A -> B -> outcome A)
    (l : list B) :
  (forall acc b m, f acc b = Ret m -> exists m0, acc = Ret m0 /\ (P m0 -> P m)) ->
  forall acc m, fold_left f l acc = Ret m ->
    exists m0, acc = Ret m0 /\ (P m0 -> P m).
Proof.
  intros Hf. induction l as [|b l IH]; intros acc m H; simpl in H.
  - exists m. auto.
  - destruct (IH _ _ H) as (m1 & H1 & HP).
    destruct (Hf _ _ _ H1) as (m0 & H0 & HP0).
    exists m0. auto.
Qed.

Section CorrelationProperties.
Variable np_mean : list float -> float.

Lemma fill_corr2d_shape (thar1d_fixed thar_temp : array2) (xtrim ytrim : Z * Z)
    (x_shiftmax y_shiftmax : Z) (R C : nat) (init corr2d : list (list float)) :
  fill_corr2d np_mean thar1d_fixed thar_temp xtrim ytrim x_shiftmax y_shiftmax
    init = Ret corr2d ->
  length init = R /\ Forall (fun row => length row = C) init ->
  length corr2d = R /\ Forall (fun row => length row = C) corr2d.
Proof.
  unfold fill_corr2d. intros H.
  apply (fold_outcome_inv
           (fun m => length m = R /\ Forall (fun row => length row = C) m))
    in H as (m0 & Hm0 & HP).
  - inversion Hm0; subst. exact HP.
  - intros acc xofst m Hin.
    apply (fold_outcome_inv
             (fun m => length m = R /\ Forall (fun row => length row = C) m))
      in Hin as (m1 & Hm1 & HP1); [eauto|].
    intros acc' yofst m' Hstep.
    destruct acc' as [m2|e]; [|discriminate].
    destruct (corr_cell _ _ _ _ _ _ _) as [v|e]; [|discriminate].
    inversion Hstep; subst. exists m2. split; [reflexivity|].
    apply set_cell_shape.
Qed.

(** X20: when [thar1d_corr2d] returns a shift [(dx, dy)] with the
    surface, the surface has [2 * y_shiftmax + 1] rows of
    [2 * x_shiftmax + 1] cells, the shift lies within the two bounds, the
    cell it addresses, [(y_shiftmax - dy, x_shiftmax - dx)], holds a
    number, no cell of the surface is larger and no other cell is equal
    to it. *)
Theorem thar1d_corr2d_returns_maximum (thar1d_fixed thar_temp : array2)
    (x_shiftmax y_shiftmax dx dy : Z) (corr2d : list (list float)) :
  thar1d_corr2d np_mean thar1d_fixed thar_temp x_shiftmax y_shiftmax
    = Ret ((dx, dy), corr2d) ->
  length corr2d = Z.to_nat (2 * y_shiftmax + 1) /\
  Forall (fun row => length row = Z.to_nat (2 * x_shiftmax + 1)) corr2d /\
  - x_shiftmax <= dx <= x_shiftmax /\ - y_shiftmax <= dy <= y_shiftmax /\
  exists row mx,
    corr2d !! Z.to_nat (y_shiftmax - dy) = Some row /\
    row !! Z.to_nat (x_shiftmax - dx) = Some mx /\
    isnan mx = false /\
    forall r c row' v,
      corr2d !! r = Some row' -> row' !! c = Some v ->
      flt mx v = false /\
      ((r, c) <> (Z.to_nat (y_shiftmax - dy), Z.to_nat (x_shiftmax - dx)) ->
       feq v mx = false).
Proof.
  unfold thar1d_corr2d.
  destruct (Z.ltb_spec (1 + 2 * y_shiftmax) 0) as [|Hy]; [discriminate|].
  destruct (Z.ltb_spec (1 + 2 * x_shiftmax) 0) as [|Hx]; [discriminate|].
  simpl orb. cbv iota.
  destruct (fill_corr2d _ _ _ _ _ _ _ _) as [m|e] eqn:Hfill; [|discriminate].
  destruct (where_max m) as [cells|e] eqn:Hmax; [|discriminate].
  destruct cells as [|[r0 c0] [|cell2 cells]]; try discriminate.
  simpl. intros H. inversion H; subst; clear H.
  apply (fill_corr2d_shape _ _ _ _ _ _ (Z.to_nat (1 + 2 * y_shiftmax))
           (Z.to_nat (1 + 2 * x_shiftmax))) in Hfill.
  2: { split; [apply length_replicate|].
       apply Forall_forall. intros row Hrow.
       apply elem_of_replicate in Hrow as [-> _]. apply length_replicate. }
  destruct Hfill as [HR HC].
  unfold where_max in Hmax.
  destruct (np_max (mjoin corr2d)) as [MX|e] eqn:HMX; [|discriminate].
  inversion Hmax as [Hcells]. clear Hmax.
  assert (Hin : (r0, c0) ∈ where2 (map (map (fun v => feq v MX)) corr2d))
    by (rewrite Hcells; left).
  apply elem_of_where2 in Hin as (brow & Hbrow & Hb).
  rewrite list_lookup_fmap in Hbrow.
  destruct (corr2d !! r0) as [row|] eqn:Hrow; [|discriminate].
  simpl in Hbrow. inversion Hbrow; subst brow. clear Hbrow.
  rewrite list_lookup_fmap in Hb.
  destruct (row !! c0) as [mx|] eqn:Hmx; [|discriminate].
  simpl in Hb. inversion Hb as [Heq]. clear Hb.
  assert (NMX : isnan MX = false).
  { destruct (isnan MX) eqn:N; [|reflexivity].
    rewrite (feq_nan_r mx MX N) in Heq. discriminate. }
  assert (Hr0 : (r0 < Z.to_nat (1 + 2 * y_shiftmax))%nat)
    by (rewrite <- HR; apply lookup_lt_Some in Hrow; exact Hrow).
  assert (Hc0 : (c0 < Z.to_nat (1 + 2 * x_shiftmax))%nat).
  { rewrite Forall_lookup in HC. rewrite <- (HC r0 row Hrow).
    apply lookup_lt_Some in Hmx. exact Hmx. }
  replace (2 * y_shiftmax + 1) with (1 + 2 * y_shiftmax) by lia.
  replace (2 * x_shiftmax + 1) with (1 + 2 * x_shiftmax) by lia.
  split; [exact HR|]. split; [exact HC|].
  split; [lia|]. split; [lia|].
  replace (y_shiftmax - (y_shiftmax - Z.of_nat r0)) with (Z.of_nat r0) by lia.
  replace (x_shiftmax - (x_shiftmax - Z.of_nat c0)) with (Z.of_nat c0) by lia.
  rewrite !Nat2Z.id.
  exists row, mx. split; [exact Hrow|]. split; [exact Hmx|].
  assert (Nmx : isnan mx = false).
  { destruct mx; try reflexivity. discriminate. }
  split; [exact Nmx|].
  intros r c row' v Hrow' Hv.
  assert (Hmem : v ∈ mjoin corr2d).
  { apply list_elem_of_join. exists row'. split.
    - apply list_elem_of_lookup. exists c. exact Hv.
    - apply list_elem_of_lookup. exists r. exact Hrow'. }
  destruct (np_max_bound _ _ HMX NMX v Hmem) as [Nv Hle].
  split.
  - rewrite (flt_feq_l mx MX v Heq). exact Hle.
  - intros Hne.
    assert (Hsv : same_value mx MX = true)
      by (unfold same_value; rewrite Heq; reflexivity).
    rewrite (feq_same_value mx MX v Hsv).
    destruct (feq v MX) eqn:E; [|reflexivity].
    exfalso. apply Hne.
    assert (Hin : (r, c) ∈ where2 (map (map (fun v => feq v MX)) corr2d)).
    { apply elem_of_where2. exists (map (fun v => feq v MX) row').
      rewrite !list_lookup_fmap, Hrow', Hv. simpl. rewrite E. auto. }
    rewrite Hcells in Hin. apply list_elem_of_singleton in Hin. exact Hin.
Qed.
End CorrelationProperties.

Lemma thar1d_corr2d_returns_maximum_witness :
  let row := [of_Z 0; of_Z 0; of_Z 1; of_Z 3; of_Z 7;
              of_Z 0; of_Z 2; of_Z 0; of_Z 1; of_Z 0] in
  let thar := Array2 10 [row; row; row; row; row] in
  exists corr2d,
    thar1d_corr2d mean_naive thar thar 2 0 = Ret ((0, 0), corr2d) /\
    length corr2d = Z.to_nat (2 * 0 + 1) /\
    Forall (fun r => length r = Z.to_nat (2 * 2 + 1)) corr2d /\
    - 2 <= 0 <= 2.
Proof.
  intros row thar.
  assert (H : exists corr2d,
            thar1d_corr2d mean_naive thar thar 2 0 = Ret ((0, 0), corr2d))
    by (eexists; vm_compute; reflexivity).
  destruct H as (corr2d & H). exists corr2d. split; [exact H|].
  destruct (thar1d_corr2d_returns_maximum mean_naive thar thar 2 0 0 0 corr2d H)
    as (H1 & H2 & H3 & _).
  auto.
Defined.

(** ** [fit_grating_equation]: the two modes *)

Section FitModes.
Variable np_power : float -> float -> float.
Variable np_nanmean np_nanstd np_nanmedian : list float -> float.
Variable np_unique : list float -> list float * list nat.
Variable leastsq :
  (list float -> list float) -> list float -> outcome (list float).

(** X21: in the non-iterative mode ([n_iter <= 0]) [nl_eachorder] has no
    part in the fit: result and store are the same for any two values of
    it, so nothing keeps a minimum of lines per order in that mode. *)
Theorem non_iterative_ignores_nl_eachorder
    (lc_coord lc_order lc_thar popt pcov : positive)
    (ind_good_thar0 : option positive) (poly_order : nat * nat)
    (max_dev_threshold : float) (n_iter : Z) (lar : bool)
    (nl_eachorder nl_eachorder' : Z) (st : state) :
  n_iter <= 0 ->
  fit_grating_equation np_power np_nanmean np_nanstd np_nanmedian np_unique
    leastsq lc_coord lc_order lc_thar popt pcov ind_good_thar0 poly_order
    max_dev_threshold n_iter lar nl_eachorder st =
  fit_grating_equation np_power np_nanmean np_nanstd np_nanmedian np_unique
    leastsq lc_coord lc_order lc_thar popt pcov ind_good_thar0 poly_order
    max_dev_threshold n_iter lar nl_eachorder' st.
Proof.
  intros Hn. unfold fit_grating_equation.
  destruct (Z.ltb_spec 0 n_iter) as [H|_]; [lia|]. reflexivity.
Qed.
End FitModes.

Lemma non_iterative_ignores_nl_eachorder_witness :
  example_fit (of_Z 1000) 0 true 10 = example_fit (of_Z 1000) 0 true 1.
Proof.
  apply (non_iterative_ignores_nl_eachorder power_ref nanmean_ref nanstd_ref
           nanmedian_ref unique_ref leastsq_ref 1%positive 2%positive
           3%positive 4%positive 5%positive None (3, 5)%nat (of_Z 1000) 0 true
           10 1 example_store).
  lia.
Defined.

(** *** Events told by the outcome *)

Lemma emits_weaken {A} (S S' : outcome A -> list event -> Prop) (m : M A) :
  (forall r d, S r d -> S' r d) -> emits S m -> emits S' m.
Proof.
  intros HS Hm st r st' H. destruct (Hm _ _ _ H) as (d & Hd & Hr).
  exists d. auto.
Qed.

Lemma emits_bind {A B} (S1 : outcome A -> list event -> Prop)
    (S2 : A -> outcome B -> list event -> Prop) (m : M A) (k : A -> M B) :
  emits S1 m -> (forall a, emits (S2 a) (k a)) ->
  emits (fun r d =>
           (exists a d1 d2, d = d1 ++ d2 /\ S1 (Ret a) d1 /\ S2 a r d2) \/
           (exists e, r = Raise e /\ S1 (Raise e) d))
        (bind m k).
Proof.
  intros Hm Hk st r st' H. unfold bind in H.
  destruct (m st) as [[a|e] st1] eqn:E.
  - destruct (Hm _ _ _ E) as (d1 & Hd1 & HS1).
    destruct (Hk a _ _ _ H) as (d2 & Hd2 & HS2).
    exists (d1 ++ d2). split; [rewrite Hd2, Hd1, app_assoc; reflexivity|].
    left. exists a, d1, d2. auto.
  - inversion H; subst. destruct (Hm _ _ _ E) as (d1 & Hd1 & HS1).
    exists d1. split; [exact Hd1|]. right. exists e. auto.
Qed.

Lemma emits_silent_bind {A B} (S : outcome B -> list event -> Prop)
    (m : M A) (k : A -> M B) :
  silent m -> (forall a, emits S (k a)) -> (forall e, S (Raise e) []) ->
  emits S (bind m k).
Proof.
  intros Hm Hk HS st r st' H. unfold bind in H.
  destruct (m st) as [[a|e] st1] eqn:E.
  - destruct (Hk a _ _ _ H) as (d & Hd & Hr).
    exists d. rewrite <- (Hm _ _ _ E). auto.
  - inversion H; subst. exists []. rewrite app_nil_r.
    split; [exact (Hm _ _ _ E)|apply HS].
Qed.

Lemma emits_one {A} (e : event) (m : M A) :
  traces (eq [e]) m ->
  emits (fun r d => match r with
                    | Ret _ => d = [e]
                    | Raise _ => d = [] \/ d = [e]
                    end) m.
Proof.
  intros Hm st r st' H. destruct (Hm _ _ _ H) as (d & Hd & Hr).
  exists d. split; [exact Hd|]. destruct r as [a|err]; [auto|].
  destruct Hr as (rest & Hr).
  destruct d as [|e1 [|e2 d]]; [auto| |discriminate].
  inversion Hr; subst. auto.
Qed.

Lemma silent_store_at_bool (l : positive) (i : nat) (v : bool) :
  silent (store_at_bool l i v).
Proof. unfold store_at_bool. silent_auto. Qed.

Lemma silent_store_at_float (l : positive) (i : nat) (v : float) :
  silent (store_at_float l i v).
Proof. unfold store_at_float. silent_auto. Qed.

Lemma passes_cons (l : loss) (i : nat) (idxs : list nat) :
  passes l (i :: idxs) = [EvFit l; EvReject [i]] ++ passes l idxs.
Proof. reflexivity. Qed.

Lemma count_fits_app (a b : list event) :
  count_fits (a ++ b) = (count_fits a + count_fits b)%nat.
Proof.
  induction a as [|[] a IH]; simpl; [reflexivity| |exact IH].
  rewrite IH. reflexivity.
Qed.

Lemma count_rejects_app (a b : list event) :
  count_rejects (a ++ b) = (count_rejects a + count_rejects b)%nat.
Proof.
  induction a as [|[] a IH]; simpl; [reflexivity|exact IH|].
  rewrite IH. reflexivity.
Qed.

Lemma count_passes (l : loss) (idxs : list nat) :
  count_fits (passes l idxs) = length idxs /\
  count_rejects (passes l idxs) = length idxs.
Proof.
  induction idxs as [|i idxs [IH1 IH2]]; [split; reflexivity|].
  rewrite passes_cons. simpl. rewrite IH1, IH2. split; reflexivity.
Qed.

Section IterativeMode.
Variable np_power : float -> float -> float.
Variable np_nanmean np_nanstd np_nanmedian : list float -> float.
Variable np_unique : list float -> list float * list nat.
Variable leastsq :
  (list float -> list float) -> list float -> outcome (list float).

(** One pass: a fit, then the rejection of the line the pass reports. *)
Lemma emits_iteration (poly_order : nat * nat) (thr : float) (lar : bool)
    (nl : Z) (lv : locals) (x0 : list float) :
  emits (fun r d =>
           match r with
           | Ret res =>
               d = EvFit (if lar then ResidualLar else Residual) ::
                   match ind_max_dev res with
                   | Some i => [EvReject [i]]
                   | None => []
                   end
           | Raise _ =>
               d = [] \/ d = [EvFit (if lar then ResidualLar else Residual)]
           end)
    (iteration np_power np_nanmedian np_unique leastsq poly_order thr lar nl
       lv x0).
Proof.
  unfold iteration. set (l := if lar then ResidualLar else Residual).
  eapply emits_weaken;
    [|apply (emits_bind
               (fun r d => match r with
                           | Ret _ => d = [EvFit l]
                           | Raise _ => d = [] \/ d = [EvFit l]
                           end)
               (fun _ r d =>
                  match r with
                  | Ret res => d = match ind_max_dev res with
                                   | Some i => [EvReject [i]]
                                   | None => []
                                   end
                  | Raise _ => d = []
                  end));
      [apply emits_one, traces_call_leastsq|intros x]].
  { intros r d [(a & d1 & d2 & -> & -> & H2)|(e & -> & H1)].
    - destruct r; rewrite H2; auto.
    - exact H1. }
  apply emits_silent_bind; [silent_auto|intros ord|reflexivity].
  apply emits_silent_bind; [silent_auto|intros th|reflexivity].
  destruct (wave_diff np_power poly_order lv x ord th) as [fw diff].
  destruct (np_unique (lc_order_s lv)) as [u inv].
  apply emits_silent_bind; [silent_auto|intros w|reflexivity].
  apply emits_silent_bind; [silent_auto|intros ul|reflexivity].
  apply emits_silent_bind; [silent_auto|intros left|reflexivity].
  cbv zeta. destruct (existsb _ _).
  - apply emits_silent_bind; [silent_auto|intros i|reflexivity].
    apply emits_silent_bind; [apply silent_store_at_bool|intros _|reflexivity].
    apply emits_silent_bind; [apply silent_store_at_float|intros _|reflexivity].
    apply emits_silent_bind; [apply silent_store_at_float|intros _|reflexivity].
    intros st r st' H. unfold bind, emit, ret in H. inversion H; subst.
    exists [EvReject [i]]. split; reflexivity.
  - intros st r st' H. inversion H; subst. exists []. rewrite app_nil_r.
    split; reflexivity.
Qed.

Lemma traces_rejection_loop (poly_order : nat * nat) (thr : float) (lar : bool)
    (nl : Z) (lv : locals) (x0 : list float) :
  forall more,
    traces (loop_events (if lar then ResidualLar else Residual) more)
      (rejection_loop np_power np_nanmedian np_unique leastsq more poly_order
         thr lar nl lv x0).
Proof.
  set (l := if lar then ResidualLar else Residual).
  induction more as [|more IH]; intros st r st' H; simpl in H;
    apply bind_inv in H as [(res & st1 & Hit & Hk)|(e & Hit & ->)].
  - destruct (emits_iteration _ _ _ _ _ _ _ _ _ Hit) as (d & Hd & Hr).
    fold l in Hr.
    assert (Hret : (Ret res, st1) = (r, st'))
      by (destruct (ind_max_dev res); exact Hk).
    injection Hret as <- <-. exists d. split; [exact Hd|].
    destruct (ind_max_dev res) as [i|]; subst d.
    + exists [i]. right. auto.
    + exists []. left. split; [reflexivity|simpl; lia].
  - destruct (emits_iteration _ _ _ _ _ _ _ _ _ Hit) as (d & Hd & Hr).
    fold l in Hr. exists d. split; [exact Hd|].
    exists (match d with [] => [EvFit l] | _ => [] end), [].
    left. split; [|simpl; lia].
    destruct Hr as [->| ->]; reflexivity.
  - destruct (emits_iteration _ _ _ _ _ _ _ _ _ Hit) as (d & Hd & Hr).
    fold l in Hr.
    destruct (ind_max_dev res) as [i|]; subst d.
    + destruct (IH _ _ _ Hk) as (d2 & Hd2 & Hr2).
      exists ([EvFit l; EvReject [i]] ++ d2).
      split; [rewrite Hd2, Hd, <- app_assoc; reflexivity|].
      destruct r as [a|e].
      * destruct Hr2 as (idxs & [[-> Hlen]|[-> Hlen]]); exists (i :: idxs);
          rewrite passes_cons; [left|right]; simpl; split;
          try reflexivity; simpl in *; lia.
      * destruct Hr2 as (rest & idxs & [[Heq Hlen]|[Heq Hlen]]);
          exists rest, (i :: idxs); rewrite passes_cons, <- app_assoc, Heq;
          [left|right]; simpl; split; try reflexivity; simpl in *; lia.
    + injection Hk as <- <-. exists [EvFit l]. split; [exact Hd|].
      exists []. left. split; [reflexivity|simpl; lia].
  - destruct (emits_iteration _ _ _ _ _ _ _ _ _ Hit) as (d & Hd & Hr).
    fold l in Hr. exists d. split; [exact Hd|].
    exists (match d with [] => [EvFit l] | _ => [] end), [].
    left. split; [|simpl; lia].
    destruct Hr as [->| ->]; reflexivity.
Qed.

Lemma traces_fit_iterative
    (lc_coord lc_order lc_thar popt pcov : positive)
    (ind_good_thar0 : option positive) (poly_order : nat * nat)
    (thr : float) (n_iter : Z) (lar : bool) (nl : Z) :
  0 < n_iter ->
  traces (iterative_events lar n_iter)
    (fit_grating_equation np_power np_nanmean np_nanstd np_nanmedian
       np_unique leastsq lc_coord lc_order lc_thar popt pcov
       ind_good_thar0 poly_order thr n_iter lar nl).
Proof.
  intros Hn. unfold fit_grating_equation.
  set (l := if lar then ResidualLar else Residual).
  assert (HL : exists t, loop_events l (Z.to_nat n_iter - 1) t).
  { exists [EvFit l], []. left. split; [reflexivity|simpl; lia]. }
  assert (HS : exists t, iterative_events lar n_iter t).
  { destruct HL as (t & Ht). exists (EvFit Residual :: t), t. auto. }
  replace (0 <? n_iter) with true by (symmetry; apply Z.ltb_lt; exact Hn).
  repeat (cbv zeta;
          first
            [ apply traces_after_silent;
              [exact HS | solve [silent_auto] | intros ?]
            | lazymatch goal with
              | |- traces _ (match ?x with _ => _ end) => destruct x
              end ]).
  apply (traces_weaken (then_ (eq [EvFit Residual])
                          (loop_events l (Z.to_nat n_iter - 1)))).
  { intros t (t1 & t2 & -> & <- & H). exists t2. auto. }
  apply traces_bind; [exact HL|apply traces_call_leastsq|intros x0].
  apply (traces_weaken (then_ (loop_events l (Z.to_nat n_iter - 1)) (eq []))).
  { intros t (t1 & t2 & -> & H & <-). rewrite app_nil_r. exact H. }
  apply traces_bind; [eauto| |intros x; apply traces_silent; silent_auto].
  apply (traces_weaken (then_ (loop_events l (Z.to_nat n_iter - 1)) (eq []))).
  { intros t (t1 & t2 & -> & H & <-). rewrite app_nil_r. exact H. }
  apply traces_bind; [eauto|apply traces_rejection_loop|intros r].
  apply traces_silent. silent_auto.
Qed.
End IterativeMode.

Lemma iterative_events_counts (lar : bool) (n_iter : Z) (t : list event) :
  0 < n_iter -> iterative_events lar n_iter t ->
  (count_fits t <= Z.to_nat n_iter + 1)%nat /\
  (count_rejects t <= Z.to_nat n_iter)%nat.
Proof.
  intros Hn (t' & -> & idxs & [[-> Hlen]|[-> Hlen]]); simpl;
    rewrite ?count_fits_app, ?count_rejects_app;
    destruct (count_passes (if lar then ResidualLar else Residual) idxs)
      as [-> ->]; simpl; lia.
Qed.

(** X22: in the iterative mode ([n_iter > 0]) the fit calls the solver
    once to seed it and then once in every pass of the loop; a pass that
    finds an outlier rejects that one line and the loop goes on, a pass
    that finds none ends the loop, and after [n_iter] passes the loop
    ends in any case, without a fit after the last rejection.  So there
    are at most [n_iter + 1] solver calls and [n_iter] rejected lines.
    A run that raises has gone through a beginning of such a
    sequence. *)
Theorem iterative_fit_calls
    (np_power : float -> float -> float)
    (np_nanmean np_nanstd np_nanmedian : list float -> float)
    (np_unique : list float -> list float * list nat)
    (leastsq : (list float -> list float) -> list float -> outcome (list float))
    (lc_coord lc_order lc_thar popt pcov : positive)
    (ind_good_thar0 : option positive) (poly_order : nat * nat)
    (max_dev_threshold : float) (n_iter : Z) (lar : bool) (nl_eachorder : Z)
    (st : state) :
  0 < n_iter ->
  let '(r, st') :=
    fit_grating_equation np_power np_nanmean np_nanstd np_nanmedian np_unique
      leastsq lc_coord lc_order lc_thar popt pcov ind_good_thar0 poly_order
      max_dev_threshold n_iter lar nl_eachorder st in
  exists done,
    trace st' = trace st ++ done /\
    (count_fits done <= Z.to_nat n_iter + 1)%nat /\
    (count_rejects done <= Z.to_nat n_iter)%nat /\
    match r with
    | Ret _ => iterative_events lar n_iter done
    | Raise _ => exists rest, iterative_events lar n_iter (done ++ rest)
    end.
Proof.
  intros Hn.
  destruct (fit_grating_equation _ _ _ _ _ _ _ _ _ _ _ _ _ _ _ _ _ st)
    as [r st'] eqn:E.
  destruct (traces_fit_iterative np_power np_nanmean np_nanstd np_nanmedian
              np_unique leastsq _ _ _ _ _ _ _ _ _ _ _ Hn _ _ _ E)
    as (done & Hd & Hr).
  exists done. split; [exact Hd|].
  destruct r as [v|e].
  - destruct (iterative_events_counts _ _ _ Hn Hr). auto.
  - destruct Hr as (rest & Hr).
    destruct (iterative_events_counts _ _ _ Hn Hr) as [H1 H2].
    rewrite count_fits_app in H1. rewrite count_rejects_app in H2.
    split; [lia|]. split; [lia|]. exists rest. exact Hr.
Qed.

Lemma iterative_fit_calls_witness :
  let '(r, st') := example_fit (of_Z 100) 2 false 1 in
  exists done,
    trace st' = trace example_store ++ done /\
    (count_fits done <= Z.to_nat 2 + 1)%nat /\
    (count_rejects done <= Z.to_nat 2)%nat /\
    match r with
    | Ret _ => iterative_events false 2 done
    | Raise _ => exists rest, iterative_events false 2 (done ++ rest)
    end.
Proof.
  apply (iterative_fit_calls power_ref nanmean_ref nanstd_ref nanmedian_ref
           unique_ref leastsq_ref 1%positive 2%positive 3%positive 4%positive
           5%positive None (3, 5)%nat (of_Z 100) 2 false 1 example_store).
  lia.
Defined.

(** *** The indices [fit_grating_equation] returns *)

Lemma increasing_cons (x : nat) (l : list nat) :
  increasing (x :: l) <-> (forall y, y ∈ l -> (x < y)%nat) /\ increasing l.
Proof.
  unfold increasing. split.
  - intros H. split.
    + intros y Hy. apply list_elem_of_lookup in Hy as (j & Hj).
      apply (H 0%nat (S j) x y eq_refl Hj). lia.
    + intros i j a b Ha Hb Hij. apply (H (S i) (S j) a b Ha Hb). lia.
  - intros [H1 H2] i j a b Ha Hb Hij.
    destruct j as [|j]; [lia|]. simpl in Hb.
    destruct i as [|i]; simpl in Ha.
    + inversion Ha; subst. apply H1. apply list_elem_of_lookup. eauto.
    + apply (H2 i j a b Ha Hb). lia.
Qed.

Lemma increasing_nil : increasing [].
Proof. intros i j x y H. inversion H. Qed.

Lemma increasing_seq (s n : nat) : increasing (seq s n).
Proof.
  revert s. induction n as [|n IH]; intros s; [apply increasing_nil|].
  simpl. apply increasing_cons. split; [|apply IH].
  intros y Hy. apply elem_of_seq in Hy. lia.
Qed.

Lemma increasing_filter (P : nat -> Prop) `{!forall i, Decision (P i)}
    (l : list nat) :
  increasing l -> increasing (filter P l).
Proof.
  induction l as [|x l IH]; intros Hl; [apply increasing_nil|].
  apply increasing_cons in Hl as [H1 H2]. rewrite filter_cons.
  destruct (decide (P x)); [|apply IH, H2].
  apply increasing_cons. split; [|apply IH, H2].
  intros y Hy. apply list_elem_of_filter in Hy as [_ Hy]. apply H1, Hy.
Qed.

Lemma increasing_mask_index (a : list nat) (mask : list bool) (out : list nat) :
  mask_index a mask = Ret out -> increasing a -> increasing out.
Proof.
  unfold mask_index. destruct (_ =? _)%nat; [|discriminate].
  intros H. inversion H; subst; clear H.
  revert mask. induction a as [|x a IH]; intros mask Ha;
    [destruct mask; apply increasing_nil|].
  apply increasing_cons in Ha as [H1 H2].
  destruct mask as [|b mask]; [apply increasing_nil|].
  cbn [zip_with]. rewrite filter_cons. cbn [snd].
  destruct (decide (b = true)); [|apply IH, H2].
  rewrite fmap_cons. cbn [fst]. apply increasing_cons. split; [|apply IH, H2].
  intros y Hy. apply list_elem_of_fmap in Hy as ([y' b'] & -> & Hy).
  apply list_elem_of_filter in Hy as [_ Hy]. apply elem_of_zip_l in Hy.
  apply H1, Hy.
Qed.

Lemma returns_bind {A B} (P : B -> Prop) (m : M A) (k : A -> M B) :
  (forall a, returns P (k a)) -> returns P (bind m k).
Proof.
  intros Hk st b st' H. unfold bind in H.
  destruct (m st) as [[a|e] st1]; [|discriminate]. exact (Hk a _ _ _ H).
Qed.

Lemma returns_bind_lift {A B} (P : B -> Prop) (o : outcome A) (k : A -> M B) :
  (forall a, o = Ret a -> returns P (k a)) -> returns P (bind (lift o) k).
Proof.
  intros Hk st b st' H. unfold bind, lift in H.
  destruct o as [a|e]; [|discriminate]. exact (Hk a eq_refl _ _ _ H).
Qed.

Section ReturnedIndices.
Variable np_power : float -> float -> float.
Variable np_nanmean np_nanstd np_nanmedian : list float -> float.
Variable np_unique : list float -> list float * list nat.
Variable leastsq :
  (list float -> list float) -> list float -> outcome (list float).

(** X23: the indices of good lines [fit_grating_equation] returns are
    positions of the caller's line arrays, in increasing order without
    repetition. *)
Theorem fit_returns_valid_indices
    (lc_coord lc_order lc_thar popt pcov : positive)
    (ind_good_thar0 : option positive) (poly_order : nat * nat)
    (max_dev_threshold : float) (n_iter : Z) (lar : bool) (nl_eachorder : Z)
    (st st' : state) (coord x : list float) (ind : list nat)
    (scaler_coord scaler_order scaler_ml : float * float) :
  heap st !! lc_coord = Some (AFloat coord) ->
  fit_grating_equation np_power np_nanmean np_nanstd np_nanmedian np_unique
    leastsq lc_coord lc_order lc_thar popt pcov ind_good_thar0 poly_order
    max_dev_threshold n_iter lar nl_eachorder st
    = (Ret (x, ind, scaler_coord, scaler_order, scaler_ml), st') ->
  increasing ind /\ forall i, i ∈ ind -> (i < length coord)%nat.
Proof.
  intros Hc Hrun. unfold fit_grating_equation in Hrun.
  apply bind_inv in Hrun as [(c & st1 & Hload & Hrest)|(e & _ & Habs)];
    [|discriminate].
  apply load_float_inv in Hload as [-> Hheap].
  specialize (Hheap c eq_refl). rewrite Hc in Hheap.
  inversion Hheap; subst c; clear Hheap.
  match type of Hrest with
  | ?m _ = _ =>
      assert (HR : returns
                (fun r => increasing r.1.1.1.2 /\
                   forall i, i ∈ r.1.1.1.2 -> (i < length coord)%nat) m)
  end.
  2: { exact (HR _ _ _ Hrest). }
  clear Hrest.
  apply returns_bind; intros ind0.
  apply returns_bind; intros popt_a.
  apply returns_bind; intros pcov_a.
  cbv zeta.
  match goal with
  | |- context [mask_index coord ?m] => set (mask := m)
  end.
  apply returns_bind_lift; intros coord' Hcoord'.
  repeat first
    [ apply returns_bind_lift; intros ? ?
    | apply returns_bind; intros ?
    | lazymatch goal with
      | |- returns _ (match ?t with _ => _ end) => destruct t
      end ].
  intros s r s' Hret. inversion Hret; subst; clear Hret. simpl.
  match goal with
  | H : mask_index (where1 mask) _ = Ret ?out |- _ =>
      pose proof (increasing_mask_index _ _ _ H) as Hinc;
      pose proof (mask_index_subseteq _ _ _ H) as Hsub
  end.
  split.
  - apply Hinc. unfold where1. apply increasing_filter, increasing_seq.
  - intros i Hi. apply Hsub in Hi. apply elem_of_where1 in Hi.
    apply lookup_lt_Some in Hi.
    unfold mask_index in Hcoord'.
    destruct (Nat.eqb_spec (length coord) (length mask)) as [Hlen|];
      [|discriminate].
    rewrite Hlen. exact Hi.
Qed.
End ReturnedIndices.

Lemma fit_returns_valid_indices_witness :
  increasing [0; 1]%nat /\ forall i, i ∈ [0; 1]%nat -> (i < 4)%nat.
Proof.
  destruct (example_fit (of_Z 100) 5 false 0) as [r st'] eqn:E.
  assert (Hr : exists x s1 s2 s3, r = Ret (x, [0; 1]%nat, s1, s2, s3)).
  { assert (Hfst : r = (example_fit (of_Z 100) 5 false 0).1)
      by (rewrite E; reflexivity).
    rewrite Hfst. vm_compute. repeat eexists. }
  destruct Hr as (x & s1 & s2 & s3 & ->).
  apply (fit_returns_valid_indices power_ref nanmean_ref nanstd_ref
           nanmedian_ref unique_ref leastsq_ref 1%positive 2%positive
           3%positive 4%positive 5%positive None (3, 5)%nat (of_Z 100) 5 false
           0 example_store st' [of_Z 10; of_Z 20; of_Z 30; of_Z 40] x [0; 1]%nat
           s1 s2 s3).
  - reflexivity.
  - exact E.
Defined.

(** ** [clean_thar_polyfit1d_reject] *)

Lemma mask_index_elem {A} (a : list A) (mask : list bool) (out : list A)
    (v : A) :
  mask_index a mask = Ret out -> v ∈ out ->
  exists k, a !! k = Some v /\ mask !! k = Some true.
Proof.
  unfold mask_index. destruct (_ =? _)%nat; [|discriminate].
  intros H Hv. inversion H; subst; clear H.
  apply list_elem_of_fmap in Hv as ([v' b] & -> & Hv).
  apply list_elem_of_filter in Hv as [Hb Hv]. simpl in Hb. subst b.
  apply list_elem_of_lookup in Hv as (k & Hk).
  apply lookup_zip_Some in Hk. exists k. exact Hk.
Qed.

Lemma mask_index_cons {A} (x : A) (a : list A) (b : bool) (m : list bool) :
  mask_index (x :: a) (b :: m) =
  match mask_index a m with
  | Ret o => Ret (if b then x :: o else o)
  | Raise e => Raise e
  end.
Proof.
  unfold mask_index. simpl length.
  change (S (length a) =? S (length m))%nat with (length a =? length m)%nat.
  destruct (length a =? length m)%nat; [|reflexivity].
  cbn [zip_with]. rewrite filter_cons. cbn [snd].
  destruct b.
  - rewrite decide_True by reflexivity. reflexivity.
  - rewrite decide_False by discriminate. reflexivity.
Qed.

Lemma filter_seq_shift (b : bool) (m : list bool) (n : nat) :
  forall s,
    filter (fun i => (b :: m) !! i = Some true) (seq (S s) n) =
    S <$> filter (fun i => m !! i = Some true) (seq s n).
Proof.
  induction n as [|n IH]; intros s; [reflexivity|].
  cbn [seq]. rewrite !filter_cons, IH. cbn [lookup list_lookup].
  destruct (decide (m !! s = Some true)) as [H|H]; reflexivity.
Qed.

Lemma where1_cons (b : bool) (m : list bool) :
  where1 (b :: m) = (if b then [0%nat] else []) ++ (S <$> where1 m).
Proof.
  unfold where1. cbn [length seq]. rewrite filter_cons, filter_seq_shift.
  destruct b.
  - rewrite decide_True by reflexivity. reflexivity.
  - rewrite decide_False by discriminate. reflexivity.
Qed.

(** Entry [k] of [a[mask]] is the entry of [a] at the [k]-th position
    where the mask holds. *)
Lemma mask_index_at_where1 {A} (mask : list bool) :
  forall (a out : list A) (k i : nat),
    mask_index a mask = Ret out -> where1 mask !! k = Some i ->
    out !! k = a !! i.
Proof.
  induction mask as [|b m IH]; intros a out k i Hout Hk; [inversion Hk|].
  destruct a as [|x a]; [discriminate|].
  rewrite mask_index_cons in Hout.
  destruct (mask_index a m) as [o|] eqn:Ho; [|discriminate].
  inversion Hout; subst out; clear Hout.
  rewrite where1_cons in Hk.
  destruct b.
  - destruct k as [|k]; simpl in Hk.
    + inversion Hk; subst. reflexivity.
    + rewrite list_lookup_fmap in Hk.
      destruct (where1 m !! k) as [i'|] eqn:Hi'; [|discriminate].
      simpl in Hk. inversion Hk; subst. simpl. exact (IH a o k i' Ho Hi').
  - simpl in Hk. rewrite list_lookup_fmap in Hk.
    destruct (where1 m !! k) as [i'|] eqn:Hi'; [|discriminate].
    simpl in Hk. inversion Hk; subst. simpl. exact (IH a o k i' Ho Hi').
Qed.

Lemma mark_good_spec (subs : list nat) :
  forall (m : list bool),
    length (foldl (fun m i => <[i := true]> m) m subs) = length m /\
    forall i, foldl (fun m i => <[i := true]> m) m subs !! i = Some true ->
      m !! i = Some true \/ i ∈ subs.
Proof.
  induction subs as [|j subs IH]; intros m; simpl; [auto|].
  destruct (IH (<[j := true]> m)) as [Hlen Hin].
  rewrite length_insert in Hlen. split; [exact Hlen|].
  intros i Hi. destruct (Hin i Hi) as [H|H].
  - destruct (decide (i = j)) as [->|Hne]; [right; left|].
    rewrite list_lookup_insert_ne in H by auto. auto.
  - right. right. exact H.
Qed.

Section CleanTharProperties.
Variable np_unique : list float -> list float * list nat.
Variable leastsq :
  (list float -> list float) -> list float -> outcome (list float).
Variable np_polyfit :
  list float -> list float -> nat -> list float -> outcome (list float).

Lemma usable_lines_finite (coord lc_order lc_thar : list float)
    (popt : array2) (o : float) (sub : list nat) (x y : list float) (i : nat) :
  usable_lines coord lc_order lc_thar popt o = Ret (sub, x, y) ->
  i ∈ sub ->
  exists v, coord !! i = Some v /\ isfinite v = true.
Proof.
  unfold usable_lines. intros H Hi.
  destruct (mask_index coord _) as [this_coord|] eqn:Hc; [|discriminate].
  destruct (mask_index lc_thar _) as [this_thar|]; [|discriminate].
  destruct (masked_column popt _ 2) as [centre|]; [|discriminate].
  destruct (mask_index this_coord _) as [x'|]; [|discriminate].
  destruct (mask_index (zip_with fsub centre this_thar) _) as [y'|];
    [|discriminate].
  destruct (mask_index this_thar _) as [z'|]; [|discriminate].
  destruct (mask_index (where1 _) _) as [sub'|] eqn:Hsub; [|discriminate].
  inversion H; subst; clear H.
  destruct (mask_index_elem _ _ _ _ Hsub Hi) as (k & Hk & Huse).
  apply lookup_zip_with_Some in Huse as (fx & fy & Hand & Hfx & _).
  rewrite list_lookup_fmap in Hfx.
  destruct (this_coord !! k) as [v|] eqn:Hv; [|discriminate].
  simpl in Hfx. inversion Hfx; subst fx; clear Hfx.
  symmetry in Hand. apply andb_true_iff in Hand as [Hfin _].
  exists v. split; [|exact Hfin].
  rewrite <- (mask_index_at_where1 _ _ _ _ _ Hc Hk). exact Hv.
Qed.

Lemma clean_order_finite (coord lc_order lc_thar : list float)
    (popt : array2) (deg : nat) (w : option (list float)) (epsilon : float)
    (n_reserve : Z) (o : float) (part : list nat) (i : nat) :
  clean_order leastsq np_polyfit coord lc_order lc_thar popt deg w epsilon
    n_reserve o = Ret part ->
  i ∈ part ->
  exists v, coord !! i = Some v /\ isfinite v = true.
Proof.
  unfold clean_order. intros H Hi.
  destruct (usable_lines coord lc_order lc_thar popt o)
    as [[[sub x] y]|] eqn:Hu; [|discriminate].
  destruct (polyfit_reject _ _ _ _ _ _ _ _) as [[[p ind]|]|]; try discriminate.
  apply mask_index_subseteq in H.
  exact (usable_lines_finite _ _ _ _ _ _ _ _ _ Hu (H _ Hi)).
Qed.

(** X24: the mask [clean_thar_polyfit1d_reject] returns has the length of
    [lc_coord], and it marks only lines whose coordinate is finite and,
    when [ind_good0] is given, that [ind_good0] marks. *)
Theorem clean_thar_marks_usable_lines (lc_coord : positive)
    (lc_order lc_thar : list float) (popt : array2)
    (ind_good0 : option (list bool)) (deg : nat) (w : option (list float))
    (epsilon : float) (n_reserve : Z) (st st' : state)
    (coord0 : list float) (mask : list bool) :
  heap st !! lc_coord = Some (AFloat coord0) ->
  clean_thar_polyfit1d_reject np_unique leastsq np_polyfit lc_coord lc_order
    lc_thar popt ind_good0 deg w epsilon n_reserve st = (Ret mask, st') ->
  length mask = length coord0 /\
  forall i, mask !! i = Some true ->
    (exists v, coord0 !! i = Some v /\ isfinite v = true) /\
    (forall good, ind_good0 = Some good -> good !! i = Some true).
Proof.
  intros Hc Hrun. unfold clean_thar_polyfit1d_reject in Hrun.
  apply bind_inv in Hrun as [(c & st1 & Hload & Hrun)|(e & _ & Habs)];
    [|discriminate].
  apply load_float_inv in Hload as [-> Hheap].
  specialize (Hheap c eq_refl). rewrite Hc in Hheap.
  inversion Hheap; subst c; clear Hheap.
  apply bind_inv in Hrun as [(coord & st2 & Hcoord & Hrun)|(e & _ & Habs)];
    [|discriminate].
  apply bind_inv in Hrun as [(parts & st3 & Hparts & Hrun)|(e & _ & Habs)];
    [|discriminate].
  apply lift_inv in Hparts as [-> Hparts]. symmetry in Hparts.
  inversion Hrun; subst mask st'; clear Hrun.
  assert (Hrel : length coord = length coord0 /\
            forall i v, coord !! i = Some v -> isfinite v = true ->
              coord0 !! i = Some v /\
              forall good, ind_good0 = Some good -> good !! i = Some true).
  { destruct ind_good0 as [good|].
    - apply bind_inv in Hcoord as [(c' & st4 & Hassign & Hk)|(e & _ & Habs)];
        [|discriminate].
      apply lift_inv in Hassign as [-> Hassign]. symmetry in Hassign.
      unfold bind, store, ret in Hk. inversion Hk; subst; clear Hk.
      unfold mask_assign in Hassign. rewrite length_map in Hassign.
      destruct (Nat.eqb_spec (length coord0) (length good)) as [Hlen|];
        [|discriminate].
      inversion Hassign; subst coord; clear Hassign.
      split; [rewrite length_zip_with, length_map; lia|].
      intros i v Hv Hfin. rewrite lookup_zip_with, list_lookup_fmap in Hv.
      destruct (coord0 !! i) as [v0|]; [|discriminate].
      destruct (good !! i) as [[]|] eqn:Hg; simpl in Hv; try discriminate.
      + inversion Hv; subst. split; [reflexivity|].
        intros good' Heq. inversion Heq; subst. exact Hg.
      + inversion Hv; subst. discriminate.
    - inversion Hcoord; subst. split; [reflexivity|].
      intros i v Hv _. split; [exact Hv|]. intros good Heq. discriminate. }
  destruct Hrel as [Hlen Hrel].
  unfold mark_good.
  destruct (mark_good_spec (mjoin parts) (replicate (length coord) false))
    as [Hl Hin].
  rewrite length_replicate in Hl. split; [rewrite Hl; exact Hlen|].
  intros i Hi. destruct (Hin i Hi) as [Hrep|Hmem].
  { apply lookup_replicate in Hrep as [Habs _]. discriminate. }
  apply list_elem_of_join in Hmem as (part & Hipart & Hpart).
  apply list_elem_of_lookup in Hpart as (k & Hk).
  destruct (mapM_lookup_out _ _ _ _ _ Hparts Hk) as (o & _ & Ho).
  destruct (clean_order_finite _ _ _ _ _ _ _ _ _ _ _ Ho Hipart) as (v & Hv & Hfin).
  destruct (Hrel i v Hv Hfin) as [H0 Hgood].
  split; [exists v; auto|exact Hgood].
Qed.

(** X25: [clean_thar_polyfit1d_reject] writes into the caller's
    [lc_coord]: with [ind_good0] given (and of the length of the array),
    the coordinates of the lines it does not mark are NaN afterwards,
    whether the function returns or raises later; the other coordinates
    and every other array are as before. *)
Theorem clean_thar_overwrites_lc_coord (lc_coord : positive)
    (lc_order lc_thar : list float) (popt : array2)
    (good : list bool) (deg : nat) (w : option (list float))
    (epsilon : float) (n_reserve : Z) (st : state) (coord0 : list float) :
  heap st !! lc_coord = Some (AFloat coord0) ->
  length good = length coord0 ->
  let '(r, st') :=
    clean_thar_polyfit1d_reject np_unique leastsq np_polyfit lc_coord lc_order
      lc_thar popt (Some good) deg w epsilon n_reserve st in
  heap st' !! lc_coord =
    Some (AFloat (zip_with (fun v (g : bool) => if g then v else nan)
                    coord0 good)) /\
  forall l, l <> lc_coord -> heap st' !! l = heap st !! l.
Proof.
  intros Hc Hlen.
  destruct (clean_thar_polyfit1d_reject _ _ _ _ _ _ _ _ _ _ _ _ st)
    as [r st'] eqn:Hrun.
  assert (Hl : load_float lc_coord st = (Ret coord0, st))
    by (unfold load_float, bind, load; rewrite Hc; reflexivity).
  assert (HA : mask_assign coord0 (map negb good) nan =
               Ret (zip_with (fun v (g : bool) => if g then v else nan)
                      coord0 good)).
  { unfold mask_assign. rewrite length_map, <- Hlen, Nat.eqb_refl. f_equal.
    clear. revert good. induction coord0 as [|v c IH]; intros [|g good];
      try reflexivity. simpl. rewrite IH. destruct g; reflexivity. }
  unfold clean_thar_polyfit1d_reject in Hrun.
  unfold bind at 1 in Hrun. rewrite Hl in Hrun.
  unfold bind at 1 in Hrun. unfold bind at 1 in Hrun. unfold bind at 1 in Hrun.
  rewrite HA in Hrun. cbv [lift store ret bind] in Hrun.
  destruct (mapM _ _) in Hrun; inversion Hrun; subst; simpl;
    (split; [apply lookup_insert_eq|]);
    intros l Hl'; apply lookup_insert_ne; auto.
Qed.

End CleanTharProperties.

Lemma clean_thar_marks_usable_lines_witness :
  length [true; true; false; true] = length [of_Z 10; of_Z 20; of_Z 30; of_Z 40] /\
  forall i, [true; true; false; true] !! i = Some true ->
    (exists v, [of_Z 10; of_Z 20; of_Z 30; of_Z 40] !! i = Some v /\
       isfinite v = true) /\
    (forall good, Some [true; true; false; true] = Some good ->
       good !! i = Some true).
Proof.
  destruct (example_clean (Some [true; true; false; true]) None)
    as [r st'] eqn:E.
  assert (Hr : r = Ret [true; true; false; true]).
  { assert (Hfst : r = (example_clean (Some [true; true; false; true]) None).1)
      by (rewrite E; reflexivity).
    rewrite Hfst. vm_compute. reflexivity. }
  subst r.
  apply (clean_thar_marks_usable_lines unique_ref leastsq_ref polyfit_ref
           1%positive [of_Z 1; of_Z 1; of_Z 2; of_Z 2]
           [of_Z 5000; of_Z 5100; of_Z 2500; of_Z 9999] example_popt
           (Some [true; true; false; true]) 1 None (fdiv (of_Z 4) (of_Z 1000)) 3
           example_lines st').
  - reflexivity.
  - exact E.
Defined.

Lemma clean_thar_overwrites_lc_coord_witness :
  let '(r, st') := example_clean (Some [true; true; false; true]) None in
  heap st' !! 1%positive =
    Some (AFloat (zip_with (fun v (g : bool) => if g then v else nan)
                    [of_Z 10; of_Z 20; of_Z 30; of_Z 40]
                    [true; true; false; true])) /\
  forall l, l <> 1%positive -> heap st' !! l = heap example_lines !! l.
Proof.
  apply (clean_thar_overwrites_lc_coord unique_ref leastsq_ref polyfit_ref
           1%positive [of_Z 1; of_Z 1; of_Z 2; of_Z 2]
           [of_Z 5000; of_Z 5100; of_Z 2500; of_Z 9999] example_popt
           [true; true; false; true] 1 None (fdiv (of_Z 4) (of_Z 1000)) 3
           example_lines [of_Z 10; of_Z 20; of_Z 30; of_Z 40]);
    reflexivity.
Defined.

